(** * A shallow embedding of the combat engine (src/models/combat/combat.ts)

    The development follows the revised [Combat] class: the turn scheduler
    ([move_combat_queue]), the effect ledger ([apply_effect],
    [remove_effect], [update_active_effects]), the action validator and
    executor ([act], [get_available_actions]), the win check
    ([check_finish]) and the generator that drives them ([_init]); then
    the constructor with the shuffle of the initiative order
    ([shuffleArray]), and the ledger and [act] of the first revision of
    the class (module [Legacy]).

    Conventions of the embedding.
    - Hit points, mana, damage and durations are whole numbers.  The
      counters of the effects are whole numbers held by doubles, which may
      also be infinite or [NaN] (a [num]): their arithmetic is exact up to
      [2 ^ 53] and rounded beyond.  The quotient of a damage by a duration
      is a double.
    - Characters live in [combat_queue]; the two groups and every target
      refer to them by their position in the queue, so that a change of a
      character's hit points is seen through every reference, as it is
      through the shared objects of the source.
    - Effect records are objects that the source mutates in place and keeps
      visiting after they left the array.  They live in [objects], an
      append-only store, and [active_effects] holds their addresses.
    - Actions, effects and autonomous characters carry closures.  A closure
      is a reference [fn] into a table of [Externals]; running one yields the
      list of commands it issues against the engine and the characters.
    - What is printed under [verbose] is not part of the state; the reads
      that the report of [act] makes are.
    - [Math.random] is a sequence of draws, each a rational number of the
      interval from 0 to 1, 1 excluded. *)

From Stdlib Require Import ZArith QArith Qround SpecFloat Lia.
From stdpp Require Import base list strings.
Close Scope Q_scope.

(** ** Numbers

    A JavaScript number is an IEEE 754 double: [spec_float] of the
    Standard Library at a precision of 53 bits and a maximal exponent of
    1024.  The whole numbers up to [2 ^ 53] in magnitude are doubles, and
    sums, differences and products that stay in that range are exact;
    beyond it they are rounded to the nearest double, ties to even, and to
    an infinity past the largest double.  A whole number that the engine
    is given ([Fin z] in a duration or a counter) is taken to be a
    double; those that it computes are. *)

Inductive num := Fin (z : Z) | Infinity | NaN | NegInfinity.

Definition double := spec_float.

(** The double nearest to a whole number. *)
Definition double_of_Z (z : Z) : double := binary_normalize 53 1024 z 0 false.

(** The magnitude of the whole numbers that are all doubles. *)
Definition max_safe : Z := 9007199254740992.

(** The whole number that a double is, for a double that is one. *)
Definition num_of_double (x : double) : num :=
  match x with
  | S754_zero _ => Fin 0
  | S754_infinity false => Infinity
  | S754_infinity true => NegInfinity
  | S754_nan => NaN
  | S754_finite s m e =>
      Fin (cond_Zopp s
             (if (0 <=? e)%Z then Z.pos m * 2 ^ e else Z.pos m / 2 ^ (- e)))%Z
  end.

Definition double_of_num (a : num) : double :=
  match a with
  | Fin z => double_of_Z z
  | Infinity => S754_infinity false
  | NegInfinity => S754_infinity true
  | NaN => S754_nan
  end.

(** The result of an operation whose exact value is the whole number [z]. *)
Definition round_whole (z : Z) : num :=
  if (Z.abs z <=? max_safe)%Z then Fin z
  else num_of_double (double_of_Z z).

(** [d * this.combat_queue.length] *)
Definition num_times_length (d : num) (n : nat) : num :=
  match d with
  | Fin z => round_whole (z * Z.of_nat n)
  | Infinity => match n with O => NaN | S _ => Infinity end
  | NegInfinity => match n with O => NaN | S _ => NegInfinity end
  | NaN => NaN
  end.

(** [a + b] *)
Definition num_add (a b : num) : num :=
  match a, b with
  | Fin x, Fin y => round_whole (x + y)
  | NaN, _ | _, NaN => NaN
  | Infinity, NegInfinity | NegInfinity, Infinity => NaN
  | Infinity, _ | _, Infinity => Infinity
  | NegInfinity, _ | _, NegInfinity => NegInfinity
  end.

(** [a - 1] *)
Definition num_pred (a : num) : num :=
  match a with
  | Fin x => round_whole (x - 1)
  | other => other
  end.

(** [a > 0] *)
Definition num_positive (a : num) : bool :=
  match a with
  | Fin x => (0 <? x)%Z
  | Infinity => true
  | NaN | NegInfinity => false
  end.

(** [a === 0] *)
Definition num_is_zero (a : num) : bool :=
  match a with
  | Fin x => (x =? 0)%Z
  | _ => false
  end.

(** [a === Infinity] *)
Definition num_is_infinity (a : num) : bool :=
  match a with
  | Infinity => true
  | _ => false
  end.

(** [a % this.combat_queue.length === 0]; the remainder of two whole
    numbers is exact, takes the sign of the dividend and is [NaN] for an
    empty queue or an infinite dividend. *)
Definition round_boundary (a : num) (n : nat) : bool :=
  match a, n with
  | Fin x, S _ => (Z.rem x (Z.of_nat n) =? 0)%Z
  | _, _ => false
  end.

(** The quotient [damage / duration] of a whole damage by a duration, as
    the division of doubles gives it. *)
Definition rate := double.

Definition damage_rate (dmg : Z) (d : num) : rate :=
  SFdiv 53 1024 (double_of_Z dmg) (double_of_num d).

(** [a > b] on quotients *)
Definition rate_gt (a b : rate) : bool := SFltb b a.

(** ** Data model *)

Inductive EEffectType := STAGGERED | BLOCKING | BURNING | CASTING.

#[global] Instance EEffectType_eq_dec : EqDecision EEffectType.
Proof. solve_decision. Defined.

(** Modelled from the spec: the declaration of [ESpellComponent] is not
    among the sources; the engine tests for the somatic and the verbal
    component only. *)
Inductive ESpellComponent := SOMATIC | VERBAL.

#[global] Instance ESpellComponent_eq_dec : EqDecision ESpellComponent.
Proof. solve_decision. Defined.

(** The action types that the sources mention; the engine only tests for
    [NULL]. *)
Inductive EActionType :=
  NULL | PHYSICAL_ATTACK | HELP | HEAL | DOT | USE_ITEM.

#[global] Instance EActionType_eq_dec : EqDecision EActionType.
Proof. solve_decision. Defined.

(** A reference to a closure of the surrounding application. *)
Definition fn := nat.

(** Modelled from the spec: the revised [IEffect] and its guards
    [instanceOfEffectWithDamage] and [instanceOfEffectWithComponents] are
    not among the sources.  Following the effect contract, [damage],
    [components], [turn_action] and [action_after_end] are optional fields
    (a guard holds when the field is present) and the two component
    blockers are booleans that are false when left out. *)
Record IEffect := {
  type : EEffectType;
  blocks_action : bool;
  duration : num;
  blocks_somatic : bool;
  blocks_verbal : bool;
  damage : option Z;
  components : option (list ESpellComponent);
  turn_action : option fn;
  action_after_end : option fn;
}.

Definition set_damage (d : option Z) (e : IEffect) : IEffect :=
  {| type := type e; blocks_action := blocks_action e; duration := duration e;
     blocks_somatic := blocks_somatic e; blocks_verbal := blocks_verbal e;
     damage := d; components := components e;
     turn_action := turn_action e; action_after_end := action_after_end e |}.

Definition set_duration (d : num) (e : IEffect) : IEffect :=
  {| type := type e; blocks_action := blocks_action e; duration := d;
     blocks_somatic := blocks_somatic e; blocks_verbal := blocks_verbal e;
     damage := damage e; components := components e;
     turn_action := turn_action e; action_after_end := action_after_end e |}.

Definition set_turn_action (f : option fn) (e : IEffect) : IEffect :=
  {| type := type e; blocks_action := blocks_action e; duration := duration e;
     blocks_somatic := blocks_somatic e; blocks_verbal := blocks_verbal e;
     damage := damage e; components := components e;
     turn_action := f; action_after_end := action_after_end e |}.

(** An element of [CombatEffects]: [{ char_id, remaining_turns } & IEffect]. *)
Record ActiveEffect := {
  char_id : string;
  remaining_turns : num;
  fields : IEffect;
}.

Definition set_remaining_turns (r : num) (ae : ActiveEffect) : ActiveEffect :=
  {| char_id := char_id ae; remaining_turns := r; fields := fields ae |}.

(** [effect.remaining_turns -= 1] *)
Definition decrement_turns (ae : ActiveEffect) : ActiveEffect :=
  set_remaining_turns (num_pred (remaining_turns ae)) ae.

(** What [execute] of an action is: the synthetic no-op of
    [get_available_actions], or a closure of the application. *)
Inductive execute_fn := ExecuteNoop | ExecuteExtern (f : fn).

Record IAction := {
  action_id : string;
  parent_action_id : option string;
  action_type : EActionType;
  related_skill : bool;
  execute : execute_fn;
}.

(** An equipped item; [instanceOfEquipmentWithActions] holds when the item
    has the field. *)
Record Equipment := {
  equipment_actions : option (list IAction);
}.

Inductive CharacterKind := NPC (strategy : fn) | Player.

Record Character := {
  character_id : string;
  current_hp : Z;
  current_mana : Z;
  default_available_actions : list IAction;
  equipped_equipment : list Equipment;
  spells : list IAction;
  kind : CharacterKind;
}.

Definition set_current_hp (hp : Z) (c : Character) : Character :=
  {| character_id := character_id c; current_hp := hp;
     current_mana := current_mana c;
     default_available_actions := default_available_actions c;
     equipped_equipment := equipped_equipment c; spells := spells c;
     kind := kind c |}.

Definition set_current_mana (mana : Z) (c : Character) : Character :=
  {| character_id := character_id c; current_hp := current_hp c;
     current_mana := mana;
     default_available_actions := default_available_actions c;
     equipped_equipment := equipped_equipment c; spells := spells c;
     kind := kind c |}.

Record CombatResult := { winner : nat }.

(** The snapshot of a turn; characters are positions in the queue.  The
    two ledger callbacks of the snapshot are the commands [ApplyEffect] and
    [RemoveEffect] below. *)
Record TurnState := {
  agent : nat;
  available_actions : list IAction;
  allies : list nat;
  enemies : list nat;
}.

(** A call of a closure of an effect record, by the record's address:
    [turn_action] (with the record's [remaining_turns] at the call) or
    [action_after_end]. *)
Inductive Call :=
  | TurnActionCall (a : nat) (f : fn) (remaining : num)
  | ActionAfterEndCall (a : nat) (g : fn).

(** The fields of the class, the store of effect records, and [calls], a
    ghost log of the effect closures called so far, which nothing reads. *)
Record Combat := {
  _result : option CombatResult;
  current_index : nat;
  combat_queue : list Character;
  group_1 : list nat;
  group_2 : list nat;
  verbose : bool;
  turn_state : option TurnState;
  objects : list ActiveEffect;
  active_effects : list nat;
  calls : list Call;
}.

Definition set_result (r : option CombatResult) (st : Combat) : Combat :=
  {| _result := r; current_index := current_index st;
     combat_queue := combat_queue st; group_1 := group_1 st;
     group_2 := group_2 st; verbose := verbose st;
     turn_state := turn_state st;
     objects := objects st; active_effects := active_effects st;
     calls := calls st |}.

Definition set_current_index (i : nat) (st : Combat) : Combat :=
  {| _result := _result st; current_index := i;
     combat_queue := combat_queue st; group_1 := group_1 st;
     group_2 := group_2 st; verbose := verbose st;
     turn_state := turn_state st;
     objects := objects st; active_effects := active_effects st;
     calls := calls st |}.

Definition set_combat_queue (q : list Character) (st : Combat) : Combat :=
  {| _result := _result st; current_index := current_index st;
     combat_queue := q; group_1 := group_1 st;
     group_2 := group_2 st; verbose := verbose st;
     turn_state := turn_state st;
     objects := objects st; active_effects := active_effects st;
     calls := calls st |}.

Definition set_turn_state (ts : option TurnState) (st : Combat) : Combat :=
  {| _result := _result st; current_index := current_index st;
     combat_queue := combat_queue st; group_1 := group_1 st;
     group_2 := group_2 st; verbose := verbose st;
     turn_state := ts;
     objects := objects st; active_effects := active_effects st;
     calls := calls st |}.

Definition set_objects (os : list ActiveEffect) (st : Combat) : Combat :=
  {| _result := _result st; current_index := current_index st;
     combat_queue := combat_queue st; group_1 := group_1 st;
     group_2 := group_2 st; verbose := verbose st;
     turn_state := turn_state st;
     objects := os; active_effects := active_effects st;
     calls := calls st |}.

Definition log_call (c : Call) (st : Combat) : Combat :=
  {| _result := _result st; current_index := current_index st;
     combat_queue := combat_queue st; group_1 := group_1 st;
     group_2 := group_2 st; verbose := verbose st;
     turn_state := turn_state st;
     objects := objects st; active_effects := active_effects st;
     calls := calls st ++ [c] |}.

Definition set_active_effects (l : list nat) (st : Combat) : Combat :=
  {| _result := _result st; current_index := current_index st;
     combat_queue := combat_queue st; group_1 := group_1 st;
     group_2 := group_2 st; verbose := verbose st;
     turn_state := turn_state st;
     objects := objects st; active_effects := l; calls := calls st |}.

(** What the closures of the application may do to the engine and to the
    characters: write a character's hit points or mana, and call the two
    ledger callbacks of the snapshot. *)
Inductive Cmd :=
  | SetHp (who : nat) (hp : Z)
  | SetMana (who : nat) (mana : Z)
  | ApplyEffect (effect : IEffect) (target_id : string)
  | RemoveEffect (effect_type : EEffectType) (target_id : string).

(** The result of [execute]: [number | boolean | undefined]. *)
Inductive ActionResult :=
  | ResultNumber (x : Q)
  | ResultBoolean (b : bool)
  | ResultUndefined.

(** A decision [{ action, target }]. *)
Record ActArguments := {
  action : option IAction;
  target : option nat;
}.

(** The closures behind the references. *)
Record Externals := {
  run_execute : fn -> option nat -> Combat -> ActionResult * list Cmd;
  run_turn_action : fn -> option nat -> Combat -> list Cmd;
  run_action_after_end : fn -> option nat -> Combat -> list Cmd;
  run_strategy : fn -> Combat -> ActArguments;
}.

(** ** The effect ledger *)

(** [this.combat_queue.find((char) => char.id === char_id)] *)
Definition get_char_by_id (st : Combat) (cid : string) : option nat :=
  fst <$> list_find (fun c => character_id c = cid) (combat_queue st).

(** [eff.type === effect_type && eff.char_id === char_id], at an address *)
Definition same_effect (st : Combat) (k : EEffectType) (cid : string)
    (a : nat) : Prop :=
  match objects st !! a with
  | Some ae => type (fields ae) = k /\ char_id ae = cid
  | None => False
  end.

#[global] Instance same_effect_dec st k cid a : Decision (same_effect st k cid a).
Proof. unfold same_effect. destruct (objects st !! a); apply _. Defined.

Definition remove_effect (effect_type : EEffectType) (cid : string)
    (st : Combat) : Combat :=
  match list_find (same_effect st effect_type cid) (active_effects st) with
  | Some (active_effect_index, _) =>
      set_active_effects
        (take active_effect_index (active_effects st)
           ++ drop (S active_effect_index) (active_effects st)) st
  | None => st
  end.

(** The merge branch of [apply_effect], on the record found. *)
Definition merge_effect (effect : IEffect) (n : nat) (active_effect : ActiveEffect)
    : ActiveEffect :=
  let old := fields active_effect in
  let merged :=
    match damage old, damage effect with
    | Some active_damage, Some effect_damage =>
        let active_effect_dmg := damage_rate active_damage (duration old) in
        let effect_dmg := damage_rate effect_damage (duration effect) in
        if rate_gt effect_dmg active_effect_dmg then
          let overwritten :=
            set_duration (duration effect) (set_damage (Some effect_damage) old) in
          match turn_action old, turn_action effect with
          | Some _, Some f => set_turn_action (Some f) overwritten
          | _, _ => overwritten
          end
        else old
    | _, _ => old
    end in
  {| char_id := char_id active_effect;
     remaining_turns :=
       num_add (remaining_turns active_effect)
         (num_times_length (duration effect) n);
     fields := merged |}.

(** The condition of the interruption scan on one record [ae]. *)
Definition blocks_component_of (effect : IEffect) (ae : ActiveEffect) : bool :=
  match components (fields ae) with
  | Some cs =>
      (bool_decide (SOMATIC ∈ cs) && blocks_somatic effect)
      || (bool_decide (VERBAL ∈ cs) && blocks_verbal effect)
  | None => false
  end.

(** The first half of [apply_effect]: merge or push. *)
Definition merge_or_push (effect : IEffect) (target_id : string)
    (st : Combat) : Combat :=
  let n := length (combat_queue st) in
  match list_find (same_effect st (type effect) target_id) (active_effects st) with
  | Some (_, a) =>
      set_objects (alter (merge_effect effect n) a (objects st)) st
  | None =>
      set_active_effects (active_effects st ++ [length (objects st)])
        (set_objects
           (objects st
              ++ [{| char_id := target_id;
                     remaining_turns := num_times_length (duration effect) n;
                     fields := effect |}]) st)
  end.

(** One step of the [forEach] that closes [apply_effect]. *)
Definition interruption_step (effect : IEffect) (target_id : string)
    (st : Combat) (a : nat) : Combat :=
  match objects st !! a with
  | Some ae =>
      if blocks_component_of effect ae
      then remove_effect (type effect) target_id st
      else st
  | None => st
  end.

Definition apply_effect (effect : IEffect) (target_id : string)
    (st : Combat) : Combat :=
  let st1 := merge_or_push effect target_id st in
  foldl (interruption_step effect target_id) st1 (active_effects st1).

(** Running the commands of a closure. *)
Definition exec_cmd (st : Combat) (c : Cmd) : Combat :=
  match c with
  | SetHp who hp =>
      set_combat_queue (alter (set_current_hp hp) who (combat_queue st)) st
  | SetMana who mana =>
      set_combat_queue (alter (set_current_mana mana) who (combat_queue st)) st
  | ApplyEffect effect target_id => apply_effect effect target_id st
  | RemoveEffect effect_type target_id => remove_effect effect_type target_id st
  end.

Definition exec_cmds (cs : list Cmd) (st : Combat) : Combat :=
  foldl exec_cmd st cs.

(** ** Outcomes of the engine's methods

    A method returns, throws, or (for the loops, on a bounded number of
    iterations) has not returned yet.  [TypeError] is the one of a read
    through an agent or a snapshot that is [undefined]; [ReportTypeError]
    is the one that the report of [act] throws at [target.name]. *)
Inductive Outcome :=
  | Normal (st : Combat)
  | ActionNotAvailable (st : Combat)
  | TypeError
  | OutOfFuel
  | ReportTypeError.

Section Engine.

Context (E : Externals).

(** The body of the [forEach] of [update_active_effects], on the record at
    address [a]. *)
Definition tick_effect (st : Combat) (a : nat) : Combat :=
  match objects st !! a with
  | None => st
  | Some effect =>
      let effect_target := get_char_by_id st (char_id effect) in
      let round_start :=
        round_boundary (remaining_turns effect) (length (combat_queue st)) in
      let st1 :=
        match turn_action (fields effect) with
        | Some f =>
            if round_start || num_is_infinity (remaining_turns effect)
            then
              exec_cmds (run_turn_action E f effect_target st)
                (log_call (TurnActionCall a f (remaining_turns effect)) st)
            else st
        | None => st
        end in
      let st2 := set_objects (alter decrement_turns a (objects st1)) st1 in
      match objects st2 !! a with
      | Some effect' =>
          match action_after_end (fields effect') with
          | Some g =>
              if num_is_zero (remaining_turns effect')
              then
                exec_cmds (run_action_after_end E g effect_target st2)
                  (log_call (ActionAfterEndCall a g) st2)
              else st2
          | None => st2
          end
      | None => st2
      end
  end.

(** [eff.remaining_turns > 0], at an address *)
Definition still_active (st : Combat) (a : nat) : Prop :=
  match objects st !! a with
  | Some eff => num_positive (remaining_turns eff) = true
  | None => False
  end.

#[global] Instance still_active_dec st a : Decision (still_active st a).
Proof. unfold still_active. destruct (objects st !! a); apply _. Defined.

Definition update_active_effects (st : Combat) : Combat :=
  let st1 := foldl tick_effect st (active_effects st) in
  set_active_effects (filter (still_active st1) (active_effects st1)) st1.

(** ** The turn scheduler *)

(** One iteration of the loop of [move_combat_queue], up to its test. *)
Definition advance_once (st : Combat) : Combat :=
  let st1 := update_active_effects st in
  set_current_index
    ((1 + current_index st1) mod length (combat_queue st1)) st1.

(** [this.combat_queue[this.current_index].current_hp > 0] *)
Definition can_attack (st : Combat) : option bool :=
  (fun c => (0 <? current_hp c)%Z) <$> combat_queue st !! current_index st.

Fixpoint move_combat_queue (fuel : nat) (st : Combat) : Outcome :=
  match fuel with
  | O => OutOfFuel
  | S fuel' =>
      let st1 := advance_once st in
      match can_attack st1 with
      | Some true => Normal st1
      | Some false => move_combat_queue fuel' st1
      | None => TypeError
      end
  end.

(** ** The win check *)

Definition hp_at (st : Combat) (i : nat) : Z :=
  match combat_queue st !! i with
  | Some c => current_hp c
  | None => 0
  end.

(** [group.reduce((acc, curr) => acc + curr.current_hp, 0)] *)
Definition sum_hp (st : Combat) (group : list nat) : Z :=
  foldl (fun acc curr => (acc + hp_at st curr)%Z) 0%Z group.

Definition check_finish (st : Combat) : Combat :=
  let sum_group1 := sum_hp st (group_1 st) in
  let sum_group2 := sum_hp st (group_2 st) in
  if (sum_group1 <=? 0)%Z then set_result (Some {| winner := 1 |}) st
  else if (sum_group2 <=? 0)%Z then set_result (Some {| winner := 0 |}) st
  else st.

(** ** The action validator and executor *)

(** The synthetic action of an incapacitated agent. *)
Definition null_action : IAction :=
  {| action_id := "NULL"; parent_action_id := None; action_type := NULL;
     related_skill := false; execute := ExecuteNoop |}.

(** [eff.char_id === agent.id && eff.blocks_action === true], at an address *)
Definition blocks_agent (st : Combat) (agent_id : string) (a : nat) : bool :=
  match objects st !! a with
  | Some eff => bool_decide (char_id eff = agent_id) && blocks_action (fields eff)
  | None => false
  end.

(** The reducer over [equipped_equipment]. *)
Definition add_equipment_actions (available_actions : list IAction)
    (equip : Equipment) : list IAction :=
  match equipment_actions equip with
  | Some actions => available_actions ++ actions
  | None => available_actions
  end.

(** [None] stands for the [TypeError] of an agent that is [undefined]. *)
Definition get_available_actions (st : Combat) : option (list IAction) :=
  match combat_queue st !! current_index st with
  | None => None
  | Some agent =>
      if existsb (blocks_agent st (character_id agent)) (active_effects st)
      then Some [null_action]
      else
        Some (foldl add_equipment_actions (default_available_actions agent)
                (equipped_equipment agent)
                ++ spells agent)
  end.

(** [this.group_1.find((c) => c.id === agent.id)] decides the sides. *)
Definition get_allies_and_enemies (st : Combat) (agent_id : string)
    : list nat * list nat :=
  let is_from_group_1 :=
    existsb
      (fun i => match combat_queue st !! i with
                | Some c => bool_decide (character_id c = agent_id)
                | None => false
                end) (group_1 st) in
  if is_from_group_1 then (group_1 st, group_2 st)
  else (group_2 st, group_1 st).

(** The test of [find] in [act]. *)
Definition offers (action av_action : IAction) : bool :=
  bool_decide (action_id av_action = action_id action)
  || bool_decide (Some (action_id av_action) = parent_action_id action).

(** [action.execute({ target, turn_state })] *)
Definition run_action (action : IAction) (target : option nat) (st : Combat)
    : ActionResult * Combat :=
  match execute action with
  | ExecuteNoop => (ResultBoolean true, st)
  | ExecuteExtern f =>
      let '(action_result, cmds) := run_execute E f target st in
      (action_result, exec_cmds cmds st)
  end.

(** [typeof action_result !== "boolean" || action_result === true] *)
Definition consumes_turn (action_result : ActionResult) : bool :=
  match action_result with
  | ResultBoolean false => false
  | _ => true
  end.

(** [typeof action_result === "number"] *)
Definition is_number (action_result : ActionResult) : bool :=
  match action_result with
  | ResultNumber _ => true
  | _ => false
  end.

(** The report that [act] prints for a numeric result under [verbose].
    What it prints is not part of the state; it reads [target.name], and
    so throws when no target was given.  Its other reads are defined: the
    agent of a snapshot is a character, since a snapshot is only assigned
    after [get_available_actions] has read through its agent. *)
Definition report_throws (st : Combat) (action_result : ActionResult)
    (target : option nat) : bool :=
  verbose st && is_number action_result && bool_decide (target = None).

Definition act (fuel : nat) (action : IAction) (target : option nat)
    (st : Combat) : Outcome :=
  match turn_state st with
  | None => TypeError
  | Some ts =>
      if negb (existsb (offers action) (available_actions ts))
      then ActionNotAvailable st
      else
        let '(action_result, st1) := run_action action target st in
        if report_throws st1 action_result target then ReportTypeError
        else
          let moved :=
            if consumes_turn action_result then move_combat_queue fuel st1
            else Normal st1 in
          match moved with
          | Normal st2 => Normal (check_finish st2)
          | other => other
          end
  end.

(** ** The combat controller *)

(** The constructor, for the initiative order [queue] that the shuffle
    picked; the groups name their members by position in it, and
    [verbose] has its default. *)
Definition new_combat (queue : list Character) (g1 g2 : list nat) : Combat :=
  {| _result := None; current_index := 0; combat_queue := queue;
     group_1 := g1; group_2 := g2; verbose := true; turn_state := None;
     objects := []; active_effects := []; calls := [] |}.

(** The third argument of the constructor, when it is given. *)
Definition set_verbose (v : bool) (st : Combat) : Combat :=
  {| _result := _result st; current_index := current_index st;
     combat_queue := combat_queue st; group_1 := group_1 st;
     group_2 := group_2 st; verbose := v; turn_state := turn_state st;
     objects := objects st; active_effects := active_effects st;
     calls := calls st |}.

(** The head of the loop body of [_init]: the snapshot of the turn. *)
Definition begin_turn (st : Combat) : option Combat :=
  match combat_queue st !! current_index st with
  | None => None
  | Some who =>
      let '(allies, enemies) := get_allies_and_enemies st (character_id who) in
      match get_available_actions st with
      | None => None
      | Some actions =>
          Some (set_turn_state
                  (Some {| agent := current_index st;
                           available_actions := actions;
                           allies := allies; enemies := enemies |}) st)
      end
  end.

(** [if (action && (action.type === EActionType.NULL || target)) this.act(...)] *)
Definition resolve (fuel : nat) (decision : ActArguments) (st : Combat)
    : Outcome :=
  match action decision with
  | Some a =>
      if bool_decide (action_type a = NULL) || bool_decide (is_Some (target decision))
      then act fuel a (target decision) st
      else Normal st
  | None => Normal st
  end.

(** What a call of [next] on the generator gives: a snapshot, the result,
    nothing (the generator had completed), or an exception. *)
Inductive Resumption :=
  | Yields (st : Combat)
  | Returns (r : CombatResult) (st : Combat)
  | ReturnsUndefined (st : Combat)
  | ThrowsActionNotAvailable (st : Combat)
  | ThrowsTypeError
  | Unfinished
  | ThrowsReportTypeError.

(** The loop test and what follows it. *)
Definition loop_test (continue : Combat -> Resumption) (o : Outcome)
    : Resumption :=
  match o with
  | Normal st =>
      match _result st with
      | Some r => Returns r st
      | None => continue st
      end
  | ActionNotAvailable st => ThrowsActionNotAvailable st
  | TypeError => ThrowsTypeError
  | OutOfFuel => Unfinished
  | ReportTypeError => ThrowsReportTypeError
  end.

(** The loop of [_init] from the top of its body, until it yields, returns
    or throws. *)
Fixpoint turns (fuel : nat) (st : Combat) : Resumption :=
  match fuel with
  | O => Unfinished
  | S fuel' =>
      match begin_turn st with
      | None => ThrowsTypeError
      | Some st1 =>
          match kind <$> combat_queue st1 !! current_index st1 with
          | Some (NPC strategy) =>
              loop_test (turns fuel')
                (resolve fuel' (run_strategy E strategy st1) st1)
          | Some Player => Yields st1
          | None => ThrowsTypeError
          end
      end
  end.

(** The generator object: not yet started or suspended at its [yield] with
    the engine in a state, or completed. *)
Inductive Generator :=
  | Fresh (st : Combat)
  | Suspended (st : Combat)
  | Completed (st : Combat).

(** [combat.next(decision)].  A decision passed to the first call is
    dropped; a decision without an action makes [action.related_skill]
    throw; skill practice is outside the engine's state. *)
Definition next (fuel : nat) (decision : ActArguments) (g : Generator)
    : Resumption :=
  match g with
  | Fresh st => turns fuel st
  | Suspended st =>
      match action decision with
      | None => ThrowsTypeError
      | Some _ => loop_test (turns fuel) (resolve fuel decision st)
      end
  | Completed st => ReturnsUndefined st
  end.

(** The generator after a call of [next]; the engine's state is not
    followed past a [TypeError]. *)
Definition after_next (r : Resumption) : option Generator :=
  match r with
  | Yields st => Some (Suspended st)
  | Returns _ st | ReturnsUndefined st | ThrowsActionNotAvailable st =>
      Some (Completed st)
  | ThrowsTypeError | Unfinished | ThrowsReportTypeError => None
  end.

End Engine.

Arguments merge_effect : simpl never.
Arguments update_active_effects : simpl never.
Arguments advance_once : simpl never.
Arguments check_finish : simpl never.

(** ** The initiative order *)

(** A result of [Math.random]: a number of the interval from 0, included,
    to 1, excluded. *)
Record Draw := {
  draw_value : Q;
  draw_range : (0 <= draw_value)%Q /\ (draw_value < 1)%Q;
}.

(** [Math.floor(Math.random() * (i + 1))] *)
Definition pick (d : Draw) (i : nat) : nat :=
  Z.to_nat (Qfloor (draw_value d * inject_Z (Z.of_nat (i + 1)))%Q).

(** [[array[i], array[j]] = [array[j], array[i]]] for two indices of the
    array, which is what the loop of [shuffleArray] has (see [pick_le]). *)
Definition swap {A} (i j : nat) (array : list A) : list A :=
  match array !! i, array !! j with
  | Some x, Some y => <[j := x]> (<[i := y]> array)
  | _, _ => array
  end.

(** The loop of [shuffleArray] from the index [i] down to 1; [random k] is
    the result of the [k]-th call of [Math.random], and [drawn] calls were
    made before. *)
Fixpoint shuffle_from {A} (random : nat -> Draw) (drawn i : nat)
    (array : list A) : list A :=
  match i with
  | O => array
  | S i' =>
      let j := pick (random drawn) i in
      shuffle_from random (S drawn) i' (swap i j array)
  end.

Definition shuffleArray {A} (random : nat -> Draw) (array : list A)
    : list A :=
  shuffle_from random 0 (length array - 1) array.

(** The position in the queue of the character that was at the index
    [i] of [[...group_1, ...group_2]], where [order] is what the shuffle
    makes of the indices. *)
Definition position_of (order : list nat) (i : nat) : nat :=
  from_option fst 0 (list_find (fun x => x = i) order).

(** [new Combat(group_1, group_2)]: the queue is the shuffled
    concatenation of the groups, and the groups hold the same characters
    as the queue, here by position. *)
Definition construct (random : nat -> Draw) (group_1 group_2 : list Character)
    : Combat :=
  let order :=
    shuffleArray random (seq 0 (length group_1 + length group_2)) in
  new_combat (shuffleArray random (group_1 ++ group_2))
    (position_of order <$> seq 0 (length group_1))
    (position_of order <$> seq (length group_1) (length group_2)).

(** ** Well-formed ledgers and reachable states *)

(** The kind and the target of the record at an address. *)
Definition ledger_key (st : Combat) (a : nat)
    : option (EEffectType * string) :=
  (fun ae => (type (fields ae), char_id ae)) <$> objects st !! a.

(** Every address of the ledger is allocated, and no two of its records
    have the same kind and target. *)
Record ledger_ok (st : Combat) : Prop := {
  addresses_valid :
    Forall (fun a => a < length (objects st)) (active_effects st);
  keys_distinct : NoDup (ledger_key st <$> active_effects st);
}.

(** The steps the engine is made of.  Every method of the class is a
    sequence of them (see [act_reachable] and [next_reachable]). *)
Inductive engine_step (E : Externals) : Combat -> Combat -> Prop :=
  | step_cmd st c : engine_step E st (exec_cmd st c)
  | step_tick st : engine_step E st (update_active_effects E st)
  | step_advance st : engine_step E st (advance_once E st)
  | step_check_finish st : engine_step E st (check_finish st)
  | step_begin_turn st st' :
      begin_turn st = Some st' -> engine_step E st st'.

(** The states of an encounter: those the engine passes through from a
    newly constructed combat. *)
Inductive reachable (E : Externals) : Combat -> Prop :=
  | reachable_new queue g1 g2 v :
      reachable E (set_verbose v (new_combat queue g1 g2))
  | reachable_step st st' :
      reachable E st -> engine_step E st st' -> reachable E st'.

(** Commands that only write a character's statistics. *)
Definition stat_cmd (c : Cmd) : Prop :=
  match c with
  | SetHp _ _ | SetMana _ _ => True
  | ApplyEffect _ _ | RemoveEffect _ _ => False
  end.

(** The closures that a record declares leave the ledger alone: they
    only write hit points and mana (a burn, a regeneration). *)
Definition quiet_record (E : Externals) (ae : ActiveEffect) : Prop :=
  (forall f, turn_action (fields ae) = Some f ->
     forall tgt st, Forall stat_cmd (run_turn_action E f tgt st))
  /\ (forall g, action_after_end (fields ae) = Some g ->
        forall tgt st, Forall stat_cmd (run_action_after_end E g tgt st)).

(** Every record of the ledger is quiet. *)
Definition quiet_ledger (E : Externals) (st : Combat) : Prop :=
  forall a ae,
    a ∈ active_effects st -> objects st !! a = Some ae -> quiet_record E ae.

Definition call_address (c : Call) : nat :=
  match c with
  | TurnActionCall a _ _ | ActionAfterEndCall a _ => a
  end.

(** The calls that a tick makes for the record [ae] at address [a], in an
    encounter of [n] participants. *)
Definition calls_of_tick (n a : nat) (ae : ActiveEffect) : list Call :=
  match turn_action (fields ae) with
  | Some f =>
      if round_boundary (remaining_turns ae) n
         || num_is_infinity (remaining_turns ae)
      then [TurnActionCall a f (remaining_turns ae)]
      else []
  | None => []
  end
  ++ match action_after_end (fields ae) with
     | Some g =>
         if num_is_zero (num_pred (remaining_turns ae))
         then [ActionAfterEndCall a g]
         else []
     | None => []
     end.

(** The engine's state after a call of [next], when it is followed. *)
Definition resumption_state (r : Resumption) : option Combat :=
  match r with
  | Yields st | Returns _ st | ReturnsUndefined st
  | ThrowsActionNotAvailable st => Some st
  | ThrowsTypeError | Unfinished | ThrowsReportTypeError => None
  end.

Definition generator_state (g : Generator) : Combat :=
  match g with
  | Fresh st | Suspended st | Completed st => st
  end.

Definition outcome_state (o : Outcome) : option Combat :=
  match o with
  | Normal st | ActionNotAvailable st => Some st
  | TypeError | OutOfFuel | ReportTypeError => None
  end.

(** ** A small catalogue, for concrete encounters *)

Module Demo.

Definition burning (dmg rounds : Z) (f : option fn) : IEffect :=
  {| type := BURNING; blocks_action := false; duration := Fin rounds;
     blocks_somatic := false; blocks_verbal := false; damage := Some dmg;
     components := None; turn_action := f; action_after_end := None |}.

Definition casting : IEffect :=
  {| type := CASTING; blocks_action := true; duration := Fin 1;
     blocks_somatic := false; blocks_verbal := false; damage := None;
     components := Some [SOMATIC; VERBAL]; turn_action := None;
     action_after_end := Some 0 |}.

Definition staggered : IEffect :=
  {| type := STAGGERED; blocks_action := true; duration := Fin 1;
     blocks_somatic := true; blocks_verbal := false; damage := None;
     components := None; turn_action := None; action_after_end := None |}.

Definition id_at (st : Combat) (i : nat) : string :=
  match combat_queue st !! i with
  | Some c => character_id c
  | None => ""
  end.

(** The closures: action 0 strikes the target for 10, action 1 sets it on
    fire (3 per round, 2 rounds), action 2 only opens a menu, action 3
    staggers the target, action 4 brings everybody down without ending the
    turn; [turn_action f] burns the target for [f]; the strategy picks the
    first offered action and the first enemy. *)
Definition world : Externals :=
  {| run_execute := fun f tgt st =>
       match f, tgt with
       | 0, Some t => (ResultNumber 10%Q, [SetHp t (hp_at st t - 10)%Z])
       | 1, Some t =>
           (ResultBoolean true, [ApplyEffect (burning 3 2 (Some 3)) (id_at st t)])
       | 2, _ => (ResultBoolean false, [])
       | 3, Some t => (ResultBoolean true, [ApplyEffect staggered (id_at st t)])
       | 4, _ =>
           (ResultBoolean false,
            imap (fun i _ => SetHp i 0%Z) (combat_queue st))
       | _, _ => (ResultUndefined, [])
       end;
     run_turn_action := fun f tgt st =>
       match tgt with
       | Some t => [SetHp t (hp_at st t - Z.of_nat f)%Z]
       | None => []
       end;
     run_action_after_end := fun _ _ _ => [];
     run_strategy := fun _ st =>
       match turn_state st with
       | Some ts =>
           {| action := head (available_actions ts);
              target := head (enemies ts) |}
       | None => {| action := None; target := None |}
       end |}.

Definition move (name : string) (f : fn) : IAction :=
  {| action_id := name; parent_action_id := None;
     action_type := PHYSICAL_ATTACK; related_skill := false;
     execute := ExecuteExtern f |}.

Definition strike := move "STRIKE" 0.
Definition ignite := move "IGNITE" 1.
Definition menu := move "MENU" 2.
Definition stagger := move "STAGGER" 3.
Definition ruin := move "RUIN" 4.

Definition hero (name : string) (hp : Z) : Character :=
  {| character_id := name; current_hp := hp; current_mana := 0;
     default_available_actions := [strike; ignite; menu];
     equipped_equipment :=
       [{| equipment_actions := Some [stagger] |};
        {| equipment_actions := None |}];
     spells := [ruin]; kind := Player |}.

(** An autonomous participant that can only pass. *)
Definition scarecrow (name : string) (hp : Z) : Character :=
  {| character_id := name; current_hp := hp; current_mana := 0;
     default_available_actions := [null_action];
     equipped_equipment := []; spells := []; kind := NPC 0 |}.

Definition on (a : IAction) (t : nat) : ActArguments :=
  {| action := Some a; target := Some t |}.

(** Two heroes, one per side, at the first hero's turn. *)
Definition duel : Combat :=
  default (new_combat [] [] [])
    (begin_turn (new_combat [hero "1" 10; hero "2" 10] [0] [1])).

(** The first hero, nearly down and on fire, faces a fallen one: the
    next round boundary burns the last participant down. *)
Definition pyre : Combat :=
  apply_effect (burning 10 1 (Some 10)) "1"
    (new_combat [hero "1" 5; hero "2" 0] [0] [1]).

(** The second hero smoulders: a burn that declares no [turn_action]. *)
Definition smoulder : Combat :=
  apply_effect (burning 1 1 None) "2"
    (new_combat [hero "1" 10; hero "2" 10] [0] [1]).

(** The first hero is casting. *)
Definition chant : Combat :=
  apply_effect casting "1" (new_combat [hero "1" 10; hero "2" 10] [0] [1]).

(** The second hero was set on fire twice. *)
Definition blaze : Combat :=
  apply_effect (burning 3 2 (Some 3)) "2"
    (apply_effect (burning 3 2 (Some 3)) "2"
       (new_combat [hero "1" 10; hero "2" 10] [0] [1])).

(** The second hero was just set on fire for two rounds. *)
Definition kindled : Combat :=
  apply_effect (burning 3 2 (Some 3)) "2"
    (new_combat [hero "1" 10; hero "2" 10] [0] [1]).

(** Two heroes against one; the second member of the first side is
    nearly down and burns fiercely. *)
Definition rout : Combat :=
  default (new_combat [] [] [])
    (begin_turn
       (apply_effect (burning 30 1 (Some 30)) "3"
          (new_combat [hero "1" 20; hero "2" 10; hero "3" 1] [0; 2] [1]))).

(** Three participants, the second one down, the third one on fire. *)
Definition skirmish : Combat :=
  apply_effect (burning 3 2 (Some 3)) "3"
    (new_combat [hero "1" 5; hero "2" 0; hero "3" 7] [0] [1; 2]).

(** An action that no hero is offered. *)
Definition flee := move "FLEE" 9.

(** Both sides are down. *)
Definition wipeout : Combat := new_combat [hero "1" 0; hero "2" 0] [0] [1].

(** The scenario of the specification: a hero whose strike deals 10
    against a participant with 10 hit points that can only pass, in both
    initiative orders. *)
Definition hero_first : Combat :=
  new_combat [hero "A" 10; scarecrow "B" 10] [0] [1].

Definition scarecrow_first : Combat :=
  new_combat [scarecrow "B" 10; hero "A" 10] [1] [0].

(** A lone hero against nobody. *)
Definition lonely : Combat := new_combat [hero "1" 10] [0] [].

End Demo.

(** ** The first revision of the class

    The sources hold an earlier revision of [Combat] as well.  Its
    constructor, generator loop, win check and the two lookups are those
    of the revised class, and it offers an agent the same actions but for
    the spells; its ledger and its [act] differ, and are modelled here
    over the same state.  An effect of this revision has a
    [number_of_rounds], which is the field [duration] of the record; it
    has no components and no closing action, and there is no
    [remove_effect]. *)

Module Legacy.

(** What a closure may do in this revision: write a character's hit
    points or mana, and call [applyEffect] of the snapshot on a character,
    given by its id. *)
Inductive Cmd :=
  | SetHp (who : nat) (hp : Z)
  | SetMana (who : nat) (mana : Z)
  | ApplyEffect (effect : IEffect) (target_id : string).

(** The closures behind the references; a turn action is only called on
    a target that was found. *)
Record Externals := {
  run_execute : fn -> option nat -> Combat -> ActionResult * list Cmd;
  run_turn_action : fn -> nat -> Combat -> list Cmd;
}.

(** [eff.type === effect.type], at an address *)
Definition same_kind (st : Combat) (k : EEffectType) (a : nat) : Prop :=
  match objects st !! a with
  | Some ae => type (fields ae) = k
  | None => False
  end.

#[global] Instance same_kind_dec st k a : Decision (same_kind st k a).
Proof. unfold same_kind. destruct (objects st !! a); apply _. Defined.

(** [active_effect.remaining_turns += effect.number_of_rounds * n] *)
Definition extend_effect (effect : IEffect) (n : nat) (ae : ActiveEffect)
    : ActiveEffect :=
  set_remaining_turns
    (num_add (remaining_turns ae) (num_times_length (duration effect) n)) ae.

Definition applyEffect (effect : IEffect) (target_id : string) (st : Combat)
    : Combat :=
  let n := length (combat_queue st) in
  match list_find (same_kind st (type effect)) (active_effects st) with
  | Some (_, a) =>
      set_objects (alter (extend_effect effect n) a (objects st)) st
  | None =>
      set_active_effects (active_effects st ++ [length (objects st)])
        (set_objects
           (objects st
              ++ [{| char_id := target_id;
                     remaining_turns := num_times_length (duration effect) n;
                     fields := effect |}]) st)
  end.

Definition exec_cmd (st : Combat) (c : Cmd) : Combat :=
  match c with
  | SetHp who hp =>
      set_combat_queue (alter (set_current_hp hp) who (combat_queue st)) st
  | SetMana who mana =>
      set_combat_queue (alter (set_current_mana mana) who (combat_queue st)) st
  | ApplyEffect effect target_id => applyEffect effect target_id st
  end.

Definition exec_cmds (cs : list Cmd) (st : Combat) : Combat :=
  foldl exec_cmd st cs.

Section Engine.

Context (E : Externals).

(** The callback of the [filter] of [update_active_effects], on the record
    at the address [a].  The array that is filtered is the one that
    [applyEffect] pushes to, [active_effects] of the state; [kept] are the
    addresses for which the callback answered true so far. *)
Definition tick_effect (acc : Combat * list nat) (a : nat)
    : Combat * list nat :=
  let '(st, kept) := acc in
  match objects st !! a with
  | None => acc
  | Some effect =>
      let round_start :=
        round_boundary (remaining_turns effect) (length (combat_queue st)) in
      let st1 :=
        match turn_action (fields effect) with
        | Some f =>
            if round_start then
              match get_char_by_id st (char_id effect) with
              | Some target =>
                  exec_cmds (run_turn_action E f target st)
                    (log_call (TurnActionCall a f (remaining_turns effect)) st)
              | None => st
              end
            else st
        | None => st
        end in
      let st2 := set_objects (alter decrement_turns a (objects st1)) st1 in
      match objects st2 !! a with
      | Some effect' =>
          (st2,
           if num_positive (remaining_turns effect') then kept ++ [a]
           else kept)
      | None => (st2, kept)
      end
  end.

(** [filter] visits the elements that the array had when it was called,
    and its result replaces the array. *)
Definition update_active_effects (st : Combat) : Combat :=
  let '(st1, kept) := foldl tick_effect (st, []) (active_effects st) in
  set_active_effects kept st1.

(** The closure of the synthetic action answers [false] in this
    revision. *)
Definition run_action (action : IAction) (target : option nat) (st : Combat)
    : ActionResult * Combat :=
  match execute action with
  | ExecuteNoop => (ResultBoolean false, st)
  | ExecuteExtern f =>
      let '(action_result, cmds) := run_execute E f target st in
      (action_result, exec_cmds cmds st)
  end.

(** The report of a numeric result comes after the tick and the step
    of the pointer in this revision, and before the win check. *)
Definition act (action : IAction) (target : option nat) (st : Combat)
    : Outcome :=
  match turn_state st with
  | None => TypeError
  | Some ts =>
      if negb (existsb (offers action) (available_actions ts))
      then ActionNotAvailable st
      else
        let '(action_result, st1) := run_action action target st in
        let st2 := update_active_effects st1 in
        let st3 :=
          set_current_index
            ((1 + current_index st2) mod length (combat_queue st2)) st2 in
        if report_throws st3 action_result target then ReportTypeError
        else Normal (check_finish st3)
  end.

End Engine.

(** Closures for concrete encounters: [execute f] sets the target on fire
    with a burn whose turn action is [f]; the turn action [0] burns for
    one point, any other sets the second participant on fire as well. *)
Definition blaze (f : fn) : IEffect :=
  {| type := BURNING; blocks_action := false; duration := Fin 1;
     blocks_somatic := false; blocks_verbal := false; damage := None;
     components := None; turn_action := Some f; action_after_end := None |}.

Definition world : Externals :=
  {| run_execute := fun f tgt st =>
       match tgt with
       | Some t =>
           (ResultNumber 1%Q,
            [ApplyEffect (blaze f)
               (from_option character_id "" (combat_queue st !! t))])
       | None => (ResultBoolean false, [])
       end;
     run_turn_action := fun f t st =>
       match f with
       | O => [SetHp t (from_option current_hp 0%Z (combat_queue st !! t) - 1)%Z]
       | S _ => [ApplyEffect Demo.staggered "2"]
       end |}.

End Legacy.

(** ** Further notions used to state properties *)

(** The test of the interruption scan on the record at an address. *)
Definition interrupting (effect : IEffect) (st : Combat) (a : nat) : bool :=
  match objects st !! a with
  | Some ae => blocks_component_of effect ae
  | None => false
  end.

(** A character but for its hit points and mana, the two statistics that
    the commands of a closure write. *)
Definition sheet (c : Character) : Character :=
  set_current_mana 0 (set_current_hp 0 c).

(** The queue holds the same characters in the same order, up to their
    hit points and mana, and the groups are the same. *)
Record same_roster (st st' : Combat) : Prop := {
  roster_sheets : sheet <$> combat_queue st' = sheet <$> combat_queue st;
  roster_group_1 : group_1 st' = group_1 st;
  roster_group_2 : group_2 st' = group_2 st;
}.

(** A sequence of steps of the engine. *)
Inductive engine_run (E : Externals) : Combat -> Combat -> Prop :=
  | run_done st : engine_run E st st
  | run_step st st' st'' :
      engine_run E st st' -> engine_step E st' st'' -> engine_run E st st''.

(** The pointer names a participant. *)
Definition pointer_ok (st : Combat) : Prop :=
  current_index st < length (combat_queue st).

(** The calls of the whole life of a record [ae] at the address [a] that
    lasts [d] rounds in an encounter of [n] participants: its turn action
    at the first tick of every round, with the turns left at that tick,
    then its closing action. *)
Definition calls_of_life (n a : nat) (ae : ActiveEffect) (d : nat)
    : list Call :=
  match turn_action (fields ae) with
  | Some f =>
      (fun i => TurnActionCall a f (Fin (Z.of_nat (d - i) * Z.of_nat n)))
        <$> seq 0 d
  | None => []
  end
  ++ match action_after_end (fields ae) with
     | Some g => [ActionAfterEndCall a g]
     | None => []
     end.

(** The result [r] is what the win check says of the state: the second
    group wins when the first is down, the first when only the second
    is. *)
Definition verdict (st : Combat) (r : CombatResult) : Prop :=
  (winner r = 1 /\ (sum_hp st (group_1 st) <= 0)%Z)
  \/ (winner r = 0
      /\ (0 < sum_hp st (group_1 st))%Z
      /\ (sum_hp st (group_2 st) <= 0)%Z).

(** An effect that blocks the agent is in the ledger. *)
Definition agent_blocked (st : Combat) (who : Character) : Prop :=
  exists a eff,
    a ∈ active_effects st /\ objects st !! a = Some eff
    /\ char_id eff = character_id who
    /\ blocks_action (fields eff) = true.

(** More concrete encounters. *)
Module Cases.

(** A hero whose only opponent is down. *)
Definition last_stand : Combat :=
  new_combat [Demo.hero "1" 10; Demo.hero "2" 0] [0] [1].

(** The first hero is staggered at the start of the turn. *)
Definition dazed : Combat :=
  default (new_combat [] [] [])
    (begin_turn
       (apply_effect Demo.staggered "1"
          (new_combat [Demo.hero "1" 10; Demo.hero "2" 10] [0] [1]))).

(** A participant whose strategy offers nothing, against a hero. *)
Definition idle (name : string) (hp : Z) : Character :=
  {| character_id := name; current_hp := hp; current_mana := 0;
     default_available_actions := [];
     equipped_equipment := []; spells := []; kind := NPC 0 |}.

Definition standoff : Combat :=
  new_combat [idle "1" 10; Demo.hero "2" 10] [0] [1].

(** The draw one half. *)
Definition half : Draw :=
  {| draw_value := 1 # 2;
     draw_range :=
       conj (fun H : (0 * 2 ?= 1 * 1)%Z = Gt => eq_ind Lt (fun c => match c with Gt => False | _ => True end) I Gt H)
            (eq_refl : (1 * 1 ?= 1 * 2)%Z = Lt) |}.

(** A burn that would also keep its target from acting. *)
Definition searing : IEffect :=
  {| type := BURNING; blocks_action := true; duration := Fin 2;
     blocks_somatic := false; blocks_verbal := false; damage := Some 3%Z;
     components := None; turn_action := Some 3; action_after_end := None |}.

(** An encounter of the first revision: one against two, the second
    participant down, at the turn of the first. *)
Definition old_duel : Combat :=
  set_turn_state
    (Some {| agent := 0; available_actions := [Demo.strike];
             allies := [0]; enemies := [1; 2] |})
    (new_combat [Demo.hero "1" 10; Demo.hero "2" 0; Demo.hero "3" 10]
       [0] [1; 2]).







(** A decision that names an attack and no target. *)
Definition aimless : ActArguments :=
  {| action := Some Demo.strike; target := None |}.

End Cases.

(** ** The frame of a state *)

(** Everything but the characters' statistics, the ledger and the log. *)
Record same_frame (st st' : Combat) : Prop := {
  frame_result : _result st' = _result st;
  frame_index : current_index st' = current_index st;
  frame_group_1 : group_1 st' = group_1 st;
  frame_group_2 : group_2 st' = group_2 st;
  frame_turn_state : turn_state st' = turn_state st;
  frame_length : length (combat_queue st') = length (combat_queue st);
  frame_ids :
    character_id <$> combat_queue st' = character_id <$> combat_queue st;
  frame_verbose : verbose st' = verbose st;
}.

(** * Properties *)

(** ** Whole numbers that are doubles *)

Lemma round_whole_safe (z : Z) :
  (Z.abs z <= max_safe)%Z -> round_whole z = Fin z.
Proof. intros H. unfold round_whole. by rewrite (proj2 (Z.leb_le _ _) H). Qed.

Lemma num_pred_safe (r : Z) :
  (- max_safe < r <= max_safe)%Z -> num_pred (Fin r) = Fin (r - 1).
Proof. intros H. apply round_whole_safe. unfold max_safe in *. lia. Qed.


(** ** What the ledger operations and the closures' commands leave alone *)

Lemma same_frame_refl st : same_frame st st.
Proof. by split. Qed.

Lemma same_frame_trans st1 st2 st3 :
  same_frame st1 st2 -> same_frame st2 st3 -> same_frame st1 st3.
Proof. intros [] []. split; congruence. Qed.

Lemma remove_effect_frame k cid st : same_frame st (remove_effect k cid st).
Proof.
  unfold remove_effect.
  destruct (list_find _ _) as [[i a]|]; by split.
Qed.

Lemma remove_effect_queue k cid st :
  combat_queue (remove_effect k cid st) = combat_queue st.
Proof. unfold remove_effect. by destruct (list_find _ _) as [[i a]|]. Qed.

Lemma remove_effect_objects k cid st :
  objects (remove_effect k cid st) = objects st.
Proof. unfold remove_effect. by destruct (list_find _ _) as [[i a]|]. Qed.

Lemma remove_effect_calls k cid st :
  calls (remove_effect k cid st) = calls st.
Proof. unfold remove_effect. by destruct (list_find _ _) as [[i a]|]. Qed.

Lemma remove_effect_sublist k cid st :
  sublist (active_effects (remove_effect k cid st)) (active_effects st).
Proof.
  unfold remove_effect.
  destruct (list_find _ _) as [[i a]|]; simpl; [|done].
  rewrite <- delete_take_drop. apply sublist_delete.
Qed.

Lemma merge_or_push_frame e t st : same_frame st (merge_or_push e t st).
Proof.
  unfold merge_or_push.
  destruct (list_find _ _) as [[i a]|]; by split.
Qed.

Lemma merge_or_push_queue e t st :
  combat_queue (merge_or_push e t st) = combat_queue st.
Proof. unfold merge_or_push. by destruct (list_find _ _) as [[i a]|]. Qed.

Lemma interruption_scan_frame e t l st :
  same_frame st (foldl (interruption_step e t) st l).
Proof.
  revert st. induction l as [|a l IH]; intros st; simpl.
  - apply same_frame_refl.
  - eapply same_frame_trans; [|apply IH].
    unfold interruption_step.
    destruct (objects st !! a) as [ae|]; [|apply same_frame_refl].
    destruct (blocks_component_of e ae);
      [apply remove_effect_frame | apply same_frame_refl].
Qed.

Lemma interruption_scan_queue e t l st :
  combat_queue (foldl (interruption_step e t) st l) = combat_queue st.
Proof.
  revert st. induction l as [|a l IH]; intros st; simpl; [done|].
  rewrite IH. unfold interruption_step.
  destruct (objects st !! a) as [ae|]; [|done].
  destruct (blocks_component_of e ae); [apply remove_effect_queue | done].
Qed.

Lemma interruption_scan_objects e t l st :
  objects (foldl (interruption_step e t) st l) = objects st.
Proof.
  revert st. induction l as [|a l IH]; intros st; simpl; [done|].
  rewrite IH. unfold interruption_step.
  destruct (objects st !! a) as [ae|]; [|done].
  destruct (blocks_component_of e ae); [apply remove_effect_objects | done].
Qed.

Lemma interruption_scan_sublist e t l st :
  sublist (active_effects (foldl (interruption_step e t) st l))
    (active_effects st).
Proof.
  revert st. induction l as [|a l IH]; intros st; simpl; [done|].
  etrans; [apply IH|]. unfold interruption_step.
  destruct (objects st !! a) as [ae|]; [|done].
  destruct (blocks_component_of e ae); [apply remove_effect_sublist | done].
Qed.

Lemma apply_effect_frame e t st : same_frame st (apply_effect e t st).
Proof.
  unfold apply_effect. eapply same_frame_trans;
    [apply merge_or_push_frame | apply interruption_scan_frame].
Qed.

Lemma apply_effect_queue e t st :
  combat_queue (apply_effect e t st) = combat_queue st.
Proof.
  unfold apply_effect.
  by rewrite interruption_scan_queue, merge_or_push_queue.
Qed.

Lemma alter_stat_ids (f : Character -> Character) i (q : list Character) :
  (forall c, character_id (f c) = character_id c) ->
  character_id <$> alter f i q = character_id <$> q.
Proof.
  intros Hf. revert i. induction q as [|c q IH]; intros [|i]; simpl; try done.
  - by rewrite Hf.
  - f_equal. apply IH.
Qed.

Lemma exec_cmd_frame st c : same_frame st (exec_cmd st c).
Proof.
  destruct c; simpl.
  - split; simpl; try done; [by rewrite length_alter | by apply alter_stat_ids].
  - split; simpl; try done; [by rewrite length_alter | by apply alter_stat_ids].
  - apply apply_effect_frame.
  - apply remove_effect_frame.
Qed.

Lemma exec_cmds_frame cs st : same_frame st (exec_cmds cs st).
Proof.
  unfold exec_cmds. revert st.
  induction cs as [|c cs IH]; intros st; simpl.
  - apply same_frame_refl.
  - eapply same_frame_trans; [apply exec_cmd_frame | apply IH].
Qed.

(** Commands that only write statistics leave the ledger and the log. *)
Lemma exec_stat_cmds cs st :
  Forall stat_cmd cs ->
  objects (exec_cmds cs st) = objects st
  /\ active_effects (exec_cmds cs st) = active_effects st
  /\ calls (exec_cmds cs st) = calls st.
Proof.
  unfold exec_cmds. intros H. revert st.
  induction H as [|c cs Hc _ IH]; intros st; simpl; [done|].
  destruct (IH (exec_cmd st c)) as (-> & -> & ->).
  by destruct c.
Qed.

(** ** The scheduler *)

Section Scheduler.

Context (E : Externals).

Lemma tick_effect_frame st a : same_frame st (tick_effect E st a).
Proof.
  unfold tick_effect.
  destruct (objects st !! a) as [effect|]; [|apply same_frame_refl].
  set (st1 := match turn_action (fields effect) with
              | Some f => _ | None => st end).
  assert (H1 : same_frame st st1).
  { subst st1. destruct (turn_action (fields effect)) as [f|];
      [|apply same_frame_refl].
    destruct (_ || _); [|apply same_frame_refl].
    eapply same_frame_trans; [|apply exec_cmds_frame]. by split. }
  set (st2 := set_objects _ st1).
  assert (H2 : same_frame st st2).
  { eapply same_frame_trans; [apply H1|]. by split. }
  destruct (objects st2 !! a) as [effect'|]; [|done].
  destruct (action_after_end (fields effect')) as [g|]; [|done].
  destruct (num_is_zero _); [|done].
  eapply same_frame_trans; [apply H2|].
  eapply same_frame_trans; [|apply exec_cmds_frame]. by split.
Qed.

Lemma tick_all_frame l st : same_frame st (foldl (tick_effect E) st l).
Proof.
  revert st. induction l as [|a l IH]; intros st; simpl.
  - apply same_frame_refl.
  - eapply same_frame_trans; [apply tick_effect_frame | apply IH].
Qed.

Lemma update_active_effects_frame st :
  same_frame st (update_active_effects E st).
Proof.
  unfold update_active_effects.
  eapply same_frame_trans; [apply tick_all_frame|]. by split.
Qed.

Lemma advance_once_length st :
  length (combat_queue (advance_once E st)) = length (combat_queue st).
Proof. unfold advance_once. simpl. apply update_active_effects_frame. Qed.

Lemma advance_once_index st :
  current_index (advance_once E st)
  = (1 + current_index st) mod length (combat_queue st).
Proof.
  destruct (update_active_effects_frame st) as [_ Hi _ _ _ Hl _ _].
  change (current_index (advance_once E st))
    with ((1 + current_index (update_active_effects E st))
          mod length (combat_queue (update_active_effects E st))).
  by rewrite Hi, Hl.
Qed.

Lemma advance_iter_length k st :
  length (combat_queue (Nat.iter k (advance_once E) st))
  = length (combat_queue st).
Proof.
  induction k as [|k IH]; [done|].
  by rewrite Nat.iter_succ, advance_once_length.
Qed.

Lemma advance_iter_index k st :
  1 <= k ->
  current_index (Nat.iter k (advance_once E) st)
  = (current_index st + k) mod length (combat_queue st).
Proof.
  induction k as [|k IH]; [lia|]. intros _.
  rewrite Nat.iter_succ, advance_once_index, advance_iter_length.
  destruct k as [|k].
  - simpl. f_equal. lia.
  - rewrite IH by lia.
    rewrite Nat.Div0.add_mod_idemp_r. f_equal. lia.
Qed.

Lemma can_attack_hp st :
  current_index st < length (combat_queue st) ->
  can_attack st = Some (bool_decide (0 < hp_at st (current_index st))%Z).
Proof.
  intros H. unfold can_attack, hp_at.
  destruct (lookup_lt_is_Some_2 _ _ H) as [c ->]. simpl. f_equal.
  destruct (Z.ltb_spec 0 (current_hp c));
    [by rewrite bool_decide_eq_true_2 | rewrite bool_decide_eq_false_2; [done|lia]].
Qed.

Lemma move_combat_queue_unfold fuel st :
  move_combat_queue E (S fuel) st
  = match can_attack (advance_once E st) with
    | Some true => Normal (advance_once E st)
    | Some false => move_combat_queue E fuel (advance_once E st)
    | None => TypeError
    end.
Proof. reflexivity. Qed.

(** The loop stops at the first iteration whose test succeeds. *)
Lemma move_combat_queue_stops k : forall st fuel,
  1 <= k -> k <= fuel ->
  (forall i, 1 <= i < k ->
     can_attack (Nat.iter i (advance_once E) st) = Some false) ->
  can_attack (Nat.iter k (advance_once E) st) = Some true ->
  move_combat_queue E fuel st = Normal (Nat.iter k (advance_once E) st).
Proof.
  induction k as [|k IH]; intros st fuel Hk Hfuel Hskip Hstop; [lia|].
  destruct fuel as [|fuel]; [lia|]. rewrite move_combat_queue_unfold.
  destruct k as [|k].
  - change (Nat.iter 1 (advance_once E) st) with (advance_once E st) in *.
    by rewrite Hstop.
  - pose proof (Hskip 1 ltac:(lia)) as H1.
    change (Nat.iter 1 (advance_once E) st) with (advance_once E st) in H1.
    rewrite H1. rewrite Nat.iter_succ_r in Hstop |- *.
    apply IH; [lia | lia | | done].
    intros i Hi. rewrite <- Nat.iter_succ_r. apply Hskip. lia.
Qed.

(** While the test fails, the loop goes on. *)
Lemma move_combat_queue_skips k : forall st fuel,
  (forall i, 1 <= i <= k ->
     can_attack (Nat.iter i (advance_once E) st) = Some false) ->
  move_combat_queue E (k + fuel) st
  = move_combat_queue E fuel (Nat.iter k (advance_once E) st).
Proof.
  induction k as [|k IH]; intros st fuel Hskip; [done|].
  change (S k + fuel) with (S (k + fuel)). rewrite move_combat_queue_unfold.
  pose proof (Hskip 1 ltac:(lia)) as H1.
  change (Nat.iter 1 (advance_once E) st) with (advance_once E st) in H1.
  rewrite H1, Nat.iter_succ_r. apply IH.
  intros i Hi. rewrite <- Nat.iter_succ_r. apply Hskip. lia.
Qed.



Lemma move_combat_queue_not_unavailable fuel : forall st st',
  move_combat_queue E fuel st <> ActionNotAvailable st'.
Proof.
  induction fuel as [|fuel IH]; intros st st'; [done|].
  rewrite move_combat_queue_unfold.
  destruct (can_attack _) as [[]|]; [done | apply IH | done].
Qed.

Lemma first_success_or_none (p : nat -> bool) k0 :
  (exists k, 1 <= k <= k0 /\ p k = true
             /\ forall i, 1 <= i < k -> p i = false)
  \/ (forall i, 1 <= i <= k0 -> p i = false).
Proof.
  induction k0 as [|k0 [(k & Hk & Hpk & Hmin)|Hnone]].
  - right. intros i Hi. lia.
  - left. exists k. split; [lia | done].
  - destruct (p (S k0)) eqn:Hp.
    + left. exists (S k0). split; [lia|]. split; [done|].
      intros i Hi. apply Hnone. lia.
    + right. intros i Hi. destruct (decide (i = S k0)) as [->|]; [done|].
      apply Hnone. lia.
Qed.

Lemma first_success (p : nat -> bool) k0 :
  1 <= k0 -> p k0 = true ->
  exists k, 1 <= k <= k0 /\ p k = true
            /\ forall i, 1 <= i < k -> p i = false.
Proof.
  intros Hk0 Hp.
  destruct (first_success_or_none p k0) as [H|Hnone]; [done|].
  rewrite Hnone in Hp by lia. done.
Qed.

(** The advance, when some participant is up and stays up while the ledger
    ticks: it stops after [k] iterations, each of which ticked the ledger
    once, at the first participant found up. *)
Lemma move_combat_queue_spec st j :
  j < length (combat_queue st) ->
  (forall k, k <= length (combat_queue st) ->
     (0 < hp_at (Nat.iter k (advance_once E) st) j)%Z) ->
  exists k,
    1 <= k <= length (combat_queue st)
    /\ (forall fuel, k <= fuel ->
          move_combat_queue E fuel st
          = Normal (Nat.iter k (advance_once E) st))
    /\ current_index (Nat.iter k (advance_once E) st)
       = (current_index st + k) mod length (combat_queue st)
    /\ (0 < hp_at (Nat.iter k (advance_once E) st)
               ((current_index st + k) mod length (combat_queue st)))%Z
    /\ (forall i, 1 <= i < k ->
          (hp_at (Nat.iter i (advance_once E) st)
             ((current_index st + i) mod length (combat_queue st)) <= 0)%Z).
Proof.
  set (n := length (combat_queue st)). intros Hj Hup.
  set (S_ := fun k => Nat.iter k (advance_once E) st).
  assert (Hidx : forall k, 1 <= k ->
            current_index (S_ k) = (current_index st + k) mod n).
  { intros k Hk. by apply advance_iter_index. }
  assert (Hca : forall k, 1 <= k ->
            can_attack (S_ k)
            = Some (bool_decide
                      (0 < hp_at (S_ k) ((current_index st + k) mod n))%Z)).
  { intros k Hk. rewrite <- Hidx by done. apply can_attack_hp.
    unfold S_. rewrite advance_iter_length, advance_iter_index by done.
    apply Nat.mod_upper_bound. fold n. lia. }
  set (p := fun k => bool_decide
                       (0 < hp_at (S_ k) ((current_index st + k) mod n))%Z).
  set (k0 := match (j + n - current_index st mod n) mod n with
             | O => n | S m => S m end).
  assert (Hk0 : 1 <= k0 <= n /\ (current_index st + k0) mod n = j).
  { assert (Hlt : (j + n - current_index st mod n) mod n < n)
      by (apply Nat.mod_upper_bound; lia).
    assert (Hc : current_index st mod n < n)
      by (apply Nat.mod_upper_bound; lia).
    assert (Hmod : (current_index st
                    + (j + n - current_index st mod n) mod n) mod n = j).
    { rewrite <- Nat.Div0.add_mod_idemp_l, Nat.Div0.add_mod_idemp_r.
      replace (current_index st mod n + (j + n - current_index st mod n))
        with (j + 1 * n) by lia.
      rewrite Nat.Div0.mod_add. by apply Nat.mod_small. }
    subst k0. destruct ((j + n - current_index st mod n) mod n) as [|m] eqn:Hm.
    - split; [lia|]. rewrite Nat.add_0_r in Hmod.
      replace (current_index st + n) with (current_index st + 1 * n) by lia.
      by rewrite Nat.Div0.mod_add.
    - split; [lia | done]. }
  destruct Hk0 as [Hk0 Hk0j].
  destruct (first_success p k0) as (k & Hk & Hpk & Hmin); [lia | |].
  { subst p. simpl. rewrite Hk0j. apply bool_decide_eq_true_2, Hup. lia. }
  exists k. split; [lia|].
  split; [|split; [by apply Hidx; lia|split]].
  - intros fuel Hfuel. apply move_combat_queue_stops; [lia | done | |].
    + intros i Hi. fold (S_ i). rewrite Hca by lia. f_equal. apply Hmin. lia.
    + fold (S_ k). rewrite Hca by lia. by f_equal.
  - by apply bool_decide_eq_true_1 in Hpk.
  - intros i Hi. specialize (Hmin i Hi). subst p. simpl in Hmin.
    apply bool_decide_eq_false_1 in Hmin. fold (S_ i). lia.
Qed.

Lemma can_attack_true st :
  can_attack st = Some true -> (0 < hp_at st (current_index st))%Z.
Proof.
  unfold can_attack, hp_at.
  destruct (combat_queue st !! current_index st) as [c|]; [|done].
  simpl. intros [= H]. by apply Z.ltb_lt.
Qed.

Lemma can_attack_false st :
  can_attack st = Some false -> (hp_at st (current_index st) <= 0)%Z.
Proof.
  unfold can_attack, hp_at.
  destruct (combat_queue st !! current_index st) as [c|]; [|done].
  simpl. intros [= H]. apply Z.ltb_ge in H. lia.
Qed.

(** Whenever the advance returns, it has stopped at the first participant
    found up, after one tick per step of the pointer. *)
Lemma move_combat_queue_returns fuel : forall st st',
  move_combat_queue E fuel st = Normal st' ->
  exists k,
    1 <= k <= fuel
    /\ st' = Nat.iter k (advance_once E) st
    /\ current_index st'
       = (current_index st + k) mod length (combat_queue st)
    /\ (0 < hp_at st' (current_index st'))%Z
    /\ (forall i, 1 <= i < k ->
          (hp_at (Nat.iter i (advance_once E) st)
             ((current_index st + i) mod length (combat_queue st)) <= 0)%Z).
Proof.
  induction fuel as [|fuel IH]; intros st st'; [done|].
  rewrite move_combat_queue_unfold.
  destruct (can_attack (advance_once E st)) as [[]|] eqn:Hca; [| |done].
  - intros [= <-]. exists 1. split; [lia|]. split; [done|].
    split; [by apply (advance_iter_index 1)|].
    split; [by apply can_attack_true|]. intros i Hi. lia.
  - intros Hm. destruct (IH _ _ Hm) as (k & Hk & -> & Hidx & Hhp & Hskip).
    exists (S k). split; [lia|]. rewrite Nat.iter_succ_r.
    split; [done|].
    rewrite <- Nat.iter_succ_r, advance_iter_index by lia.
    rewrite <- Nat.iter_succ_r in Hhp.
    rewrite advance_iter_index in Hhp by lia.
    split; [done|]. split; [done|].
    intros i Hi. destruct (decide (i = 1)) as [->|Hne].
    + apply can_attack_false in Hca.
      pose proof (advance_iter_index 1 st ltac:(lia)) as H1.
      change (Nat.iter 1 (advance_once E) st) with (advance_once E st) in H1.
      rewrite H1 in Hca. exact Hca.
    + destruct i as [|i]; [lia|].
      specialize (Hskip i ltac:(lia)).
      rewrite <- Nat.iter_succ_r in Hskip.
      rewrite advance_once_length, advance_once_index in Hskip.
      rewrite Nat.Div0.add_mod_idemp_l in Hskip.
      by replace (current_index st + S i) with (1 + current_index st + i)
        by lia.
Qed.

End Scheduler.

(** ** Turn repetition and the advance *)

Section Turns.

Context (E : Externals).

Lemma run_action_frame action target st :
  same_frame st (snd (run_action E action target st)).
Proof.
  unfold run_action. destruct (execute action) as [|f]; simpl.
  - apply same_frame_refl.
  - destruct (run_execute E f target st) as [r cs]. apply exec_cmds_frame.
Qed.

Lemma check_finish_frame st :
  current_index (check_finish st) = current_index st
  /\ combat_queue (check_finish st) = combat_queue st
  /\ objects (check_finish st) = objects st
  /\ active_effects (check_finish st) = active_effects st
  /\ turn_state (check_finish st) = turn_state st.
Proof.
  unfold check_finish.
  destruct (_ <=? _)%Z; [done|]. by destruct (_ <=? _)%Z.
Qed.

Lemma act_unfold fuel action target st ts :
  turn_state st = Some ts ->
  existsb (offers action) (available_actions ts) = true ->
  act E fuel action target st
  = if report_throws (snd (run_action E action target st))
         (fst (run_action E action target st)) target
    then ReportTypeError
    else
      match (if consumes_turn (fst (run_action E action target st))
             then move_combat_queue E fuel (snd (run_action E action target st))
             else Normal (snd (run_action E action target st))) with
      | Normal st2 => Normal (check_finish st2)
      | other => other
      end.
Proof.
  intros Hts Hoff. unfold act. rewrite Hts, Hoff.
  destruct (run_action E action target st) as [r st1]. simpl.
  destruct (report_throws st1 r target); [done|].
  destruct (consumes_turn r); [|done].
  by destruct (move_combat_queue E fuel st1).
Qed.

(** The report only throws for a number. *)
Lemma report_throws_not_number st r target :
  is_number r = false -> report_throws st r target = false.
Proof. unfold report_throws. intros ->. by rewrite andb_false_r. Qed.


(** C5 (as amended).  Whenever [move_combat_queue] returns, it has run [k]
    iterations for some [k >= 1], each of which ticked the ledger once and
    moved the pointer by one, cyclically; the participant it stops at is
    up, and each of the [k - 1] participants it passed over was down when
    the pointer reached it.  It does return, within [n] iterations, from a
    state in which some participant is up and stays up through the ledger
    ticks of the advance. *)
Theorem move_combat_queue_next_alive st :
  let n := length (combat_queue st) in
  (forall fuel st',
     move_combat_queue E fuel st = Normal st' ->
     exists k,
       1 <= k
       /\ st' = Nat.iter k (advance_once E) st
       /\ current_index st' = (current_index st + k) mod n
       /\ (0 < hp_at st' (current_index st'))%Z
       /\ (forall i, 1 <= i < k ->
             (hp_at (Nat.iter i (advance_once E) st)
                ((current_index st + i) mod n) <= 0)%Z))
  /\ (forall j,
        j < n ->
        (forall k, k <= n ->
           (0 < hp_at (Nat.iter k (advance_once E) st) j)%Z) ->
        exists k st',
          1 <= k <= n
          /\ st' = Nat.iter k (advance_once E) st
          /\ (forall fuel, k <= fuel ->
                move_combat_queue E fuel st = Normal st')
          /\ current_index st' = (current_index st + k) mod n
          /\ (0 < hp_at st' (current_index st'))%Z
          /\ (forall i, 1 <= i < k ->
                (hp_at (Nat.iter i (advance_once E) st)
                   ((current_index st + i) mod n) <= 0)%Z)).
Proof.
  intros n. split.
  - intros fuel st' Hm.
    destruct (move_combat_queue_returns E fuel st st' Hm)
      as (k & Hk & Hst' & Hidx & Hhp & Hskip).
    exists k. repeat split; try done; lia.
  - intros j Hj Hup.
    destruct (move_combat_queue_spec E st j Hj Hup)
      as (k & Hk & Hret & Hidx & Hhp & Hskip).
    exists k, (Nat.iter k (advance_once E) st).
    repeat split; try done; try lia. by rewrite Hidx.
Qed.


(** C7: [act] throws [ActionNotAvailable] exactly when no offered action
    has the chosen action's id or the id of its parent, and the state in
    which it throws is the state it was called in. *)
Theorem act_not_available_iff fuel action target st ts :
  turn_state st = Some ts ->
  ((exists st', act E fuel action target st = ActionNotAvailable st')
   <-> forall av, av ∈ available_actions ts ->
         action_id av <> action_id action
         /\ Some (action_id av) <> parent_action_id action)
  /\ (forall st',
        act E fuel action target st = ActionNotAvailable st' -> st' = st).
Proof.
  intros Hts.
  assert (Hoff : existsb (offers action) (available_actions ts) = false
                 <-> forall av, av ∈ available_actions ts ->
                       action_id av <> action_id action
                       /\ Some (action_id av) <> parent_action_id action).
  { rewrite <- not_true_iff_false, existsb_exists. split.
    - intros Hno av Hav. split; intros Heq; apply Hno; exists av;
        (split; [by apply list_elem_of_In|]); unfold offers;
        apply orb_true_iff; [left | right]; by apply bool_decide_eq_true_2.
    - intros Hall (av & Hav & Hoffers). apply list_elem_of_In in Hav.
      destruct (Hall av Hav) as [H1 H2]. unfold offers in Hoffers.
      apply orb_true_iff in Hoffers as [H|H];
        apply bool_decide_eq_true_1 in H; done. }
  assert (Hthrow : forall st',
            act E fuel action target st = ActionNotAvailable st' ->
            existsb (offers action) (available_actions ts) = false
            /\ st' = st).
  { intros st'. unfold act. rewrite Hts.
    destruct (existsb _ _) eqn:Hex; simpl.
    - destruct (run_action E action target st) as [r st1].
      destruct (report_throws st1 r target); [done|].
      destruct (consumes_turn r).
      + destruct (move_combat_queue E fuel st1) eqn:Hm; try done.
        by apply move_combat_queue_not_unavailable in Hm.
      + done.
    - intros [= <-]. done. }
  split; [split|].
  - intros [st' H]. apply Hoff. by apply Hthrow in H as [? _].
  - intros H. apply Hoff in H. exists st. unfold act. by rewrite Hts, H.
  - intros st' H. by apply Hthrow in H as [_ ?].
Qed.

End Turns.

Lemma move_combat_queue_next_alive_witness :
  exists st',
    move_combat_queue Demo.world 3 Demo.skirmish = Normal st'
    /\ current_index st' = 2
    /\ (0 < hp_at st' 2)%Z.
Proof.
  destruct (move_combat_queue_next_alive Demo.world Demo.skirmish)
    as [_ Htotal].
  destruct (Htotal 2) as (k & st' & Hk & _ & Hret & Hidx & Hhp & Hskip).
  - vm_compute. lia.
  - intros k Hk.
    do 4 (destruct k as [|k]; [vm_compute; reflexivity|]).
    exfalso. vm_compute in Hk. lia.
  - vm_compute in Hk. assert (H3 := Hret 3 ltac:(lia)).
    exists st'. split; [exact H3|].
    vm_compute in H3. injection H3 as <-. split; reflexivity.
Defined.

(** Counterexample to C5 as stated: in [Demo.pyre] a participant is up,
    yet the advance never returns, because the first tick burns the last
    participant down. *)
Lemma move_combat_queue_all_down_diverges :
  (0 < hp_at Demo.pyre 0)%Z
  /\ forall fuel, move_combat_queue Demo.world fuel Demo.pyre = OutOfFuel.
Proof.
  split; [reflexivity|].
  set (s2 := Nat.iter 2 (advance_once Demo.world) Demo.pyre).
  set (s3 := advance_once Demo.world s2).
  assert (Hcycle : advance_once Demo.world s3 = s2) by (vm_compute; reflexivity).
  assert (H2 : can_attack s2 = Some false) by (vm_compute; reflexivity).
  assert (H3 : can_attack s3 = Some false) by (vm_compute; reflexivity).
  assert (Hloop : forall fuel,
            move_combat_queue Demo.world fuel s2 = OutOfFuel
            /\ move_combat_queue Demo.world fuel s3 = OutOfFuel).
  { induction fuel as [|fuel [IH2 IH3]]; [split; reflexivity|]. split.
    - rewrite move_combat_queue_unfold. fold s3. rewrite H3. exact IH3.
    - rewrite move_combat_queue_unfold, Hcycle, H2. exact IH2. }
  intros [|[|fuel]]; [done | |].
  - rewrite move_combat_queue_unfold.
    replace (can_attack (advance_once Demo.world Demo.pyre)) with (Some false)
      by (vm_compute; reflexivity).
    done.
  - change (S (S fuel)) with (2 + fuel).
    rewrite (move_combat_queue_skips Demo.world 2 Demo.pyre fuel).
    + apply Hloop.
    + intros i Hi. destruct i as [|[|[|i]]]; [lia | | | lia];
        vm_compute; reflexivity.
Qed.



Lemma act_not_available_iff_witness :
  act Demo.world 0 Demo.flee None Demo.duel = ActionNotAvailable Demo.duel.
Proof.
  edestruct (act_not_available_iff Demo.world 0 Demo.flee None Demo.duel)
    as [[_ Hthrows] Hsame]; [vm_compute; reflexivity|].
  destruct Hthrows as [st' Hst'].
  - apply Forall_forall.
    repeat (constructor; [split; discriminate|]). constructor.
  - rewrite Hst'. f_equal. by apply Hsame.
Defined.

(** ** Offered actions and the win check *)

Lemma add_equipment_actions_foldl (equips : list Equipment) :
  forall acc : list IAction,
    foldl add_equipment_actions acc equips
    = acc ++ mjoin (omap equipment_actions equips).
Proof.
  induction equips as [|equip equips IH]; intros acc; simpl.
  - by rewrite app_nil_r.
  - rewrite IH. unfold add_equipment_actions.
    destruct (equipment_actions equip) as [actions|]; simpl; [|done].
    by rewrite <- app_assoc.
Qed.

(** C9: for the active participant, [get_available_actions] returns the
    one synthetic no-op action when the ledger holds a record on that
    participant with [blocks_action] true; otherwise it returns the
    participant's default actions, followed by the actions of every
    equipped item that has actions, followed by the known spells, and
    nothing else. *)
Theorem get_available_actions_spec (st : Combat) (who : Character) :
  combat_queue st !! current_index st = Some who ->
  let blocked :=
    exists a eff,
      a ∈ active_effects st /\ objects st !! a = Some eff
      /\ char_id eff = character_id who
      /\ blocks_action (fields eff) = true in
  (blocked ->
     get_available_actions st = Some [null_action]
     /\ action_type null_action = NULL
     /\ forall E target s,
          run_action E null_action target s = (ResultBoolean true, s))
  /\ (~ blocked ->
      get_available_actions st
      = Some (default_available_actions who
                ++ mjoin (omap equipment_actions (equipped_equipment who))
                ++ spells who)
      /\ forall offered,
           get_available_actions st = Some offered ->
           forall x, x ∈ offered <->
             x ∈ default_available_actions who
             \/ (exists equip actions,
                   equip ∈ equipped_equipment who
                   /\ equipment_actions equip = Some actions
                   /\ x ∈ actions)
             \/ x ∈ spells who).
Proof.
  intros Hwho blocked.
  assert (Hex : existsb (blocks_agent st (character_id who)) (active_effects st)
                = true <-> blocked).
  { rewrite existsb_exists. unfold blocked, blocks_agent. split.
    - intros (a & Ha & Hb). apply list_elem_of_In in Ha.
      destruct (objects st !! a) as [eff|] eqn:Hobj; [|done].
      apply andb_true_iff in Hb as [Hid Hb].
      apply bool_decide_eq_true_1 in Hid. by exists a, eff.
    - intros (a & eff & Ha & Hobj & Hid & Hb). exists a.
      split; [by apply list_elem_of_In|]. rewrite Hobj.
      apply andb_true_iff. split; [by apply bool_decide_eq_true_2 | done]. }
  unfold get_available_actions. rewrite Hwho. split.
  - intros Hb. apply Hex in Hb. rewrite Hb. done.
  - intros Hb. destruct (existsb _ _) eqn:Hex'; [by destruct Hb; apply Hex|].
    rewrite add_equipment_actions_foldl, <- app_assoc. split; [done|].
    intros offered [= <-] x.
    rewrite !elem_of_app, list_elem_of_join.
    split; (intros [H|[H|H]]; [by left | right; left | by right; right]).
    + destruct H as (actions & Hx & Hacts).
      apply list_elem_of_omap in Hacts as (equip & Hequip & Hacts).
      by exists equip, actions.
    + destruct H as (equip & actions & Hequip & Hacts & Hx).
      exists actions. split; [done|].
      apply list_elem_of_omap. by exists equip.
Qed.

Lemma get_available_actions_spec_witness :
  get_available_actions Demo.duel
  = Some [Demo.strike; Demo.ignite; Demo.menu; Demo.stagger; Demo.ruin].
Proof.
  edestruct (get_available_actions_spec Demo.duel) as [_ [Hfree _]];
    [vm_compute; reflexivity | | exact Hfree].
  intros (a & eff & Ha & _). vm_compute in Ha. by apply elem_of_nil in Ha.
Defined.

(** C10: when [check_finish] runs (no result yet), it sets [winner] to 1
    whenever the first group's summed hit points are at most 0, also when
    the second group's are at most 0 too; it sets [winner] to 0 only when
    the second group's sum is at most 0 and the first group's is positive. *)
Theorem check_finish_tie_break (st : Combat) :
  _result st = None ->
  let sum_group1 := sum_hp st (group_1 st) in
  let sum_group2 := sum_hp st (group_2 st) in
  ((sum_group1 <= 0)%Z -> (sum_group2 <= 0)%Z ->
     _result (check_finish st) = Some {| winner := 1 |})
  /\ (_result (check_finish st) = Some {| winner := 1 |}
      <-> (sum_group1 <= 0)%Z)
  /\ (_result (check_finish st) = Some {| winner := 0 |}
      <-> (0 < sum_group1)%Z /\ (sum_group2 <= 0)%Z).
Proof.
  intros Hnone sum_group1 sum_group2. unfold check_finish.
  fold sum_group1 sum_group2.
  destruct (Z.leb_spec sum_group1 0) as [H1|H1];
    [|destruct (Z.leb_spec sum_group2 0) as [H2|H2]]; simpl;
    rewrite ?Hnone; (split; [|split; split]); try done; try lia;
    try (intros [= ?]); try (intros [? ?]); try lia; try done.
Qed.

Lemma check_finish_tie_break_witness :
  _result (check_finish Demo.wipeout) = Some {| winner := 1 |}.
Proof.
  destruct (check_finish_tie_break Demo.wipeout) as [Htie _];
    [reflexivity|].
  apply Htie; vm_compute; discriminate.
Defined.

(** ** The ledger invariant *)

Lemma ledger_key_objects st st' a :
  objects st' = objects st -> ledger_key st' a = ledger_key st a.
Proof. unfold ledger_key. by intros ->. Qed.

Lemma same_effect_key st k cid a :
  same_effect st k cid a <-> ledger_key st a = Some (k, cid).
Proof.
  unfold same_effect, ledger_key.
  destruct (objects st !! a) as [ae|]; simpl; [|done].
  split; [by intros [-> ->] | by intros [= -> ->]].
Qed.

(** A ledger that lost records, over the same objects, is still fine. *)
Lemma ledger_ok_sublist st st' :
  ledger_ok st ->
  objects st' = objects st ->
  sublist (active_effects st') (active_effects st) ->
  ledger_ok st'.
Proof.
  intros [Hvalid Hkeys] Hobj Hsub. split.
  - rewrite Hobj. apply Forall_forall. intros a Ha.
    rewrite Forall_forall in Hvalid. apply Hvalid.
    by eapply elem_of_sublist.
  - rewrite (list_fmap_ext (ledger_key st') (ledger_key st))
      by (intros; by apply ledger_key_objects).
    eapply sublist_NoDup; [apply Hkeys|]. by apply fmap_sublist.
Qed.

(** Rewriting objects without touching kinds and targets keeps it fine. *)
Lemma ledger_ok_alter st (f : ActiveEffect -> ActiveEffect) a :
  (forall ae, type (fields (f ae)) = type (fields ae)
              /\ char_id (f ae) = char_id ae) ->
  ledger_ok st ->
  ledger_ok (set_objects (alter f a (objects st)) st).
Proof.
  intros Hf [Hvalid Hkeys]. split; simpl.
  - by rewrite length_alter.
  - rewrite (list_fmap_ext _ (ledger_key st)); [done|].
    intros _ b _. unfold ledger_key. simpl.
    destruct (decide (a = b)) as [->|Hne].
    + rewrite list_lookup_alter_eq.
      destruct (objects st !! b) as [ae|]; simpl; [|done].
      by destruct (Hf ae) as [-> ->].
    + by rewrite list_lookup_alter_ne.
Qed.

Lemma merge_effect_key e n ae :
  type (fields (merge_effect e n ae)) = type (fields ae)
  /\ char_id (merge_effect e n ae) = char_id ae.
Proof.
  unfold merge_effect. simpl. split; [|done].
  destruct (damage (fields ae)), (damage e); try done.
  destruct (rate_gt _ _); [|done].
  by destruct (turn_action (fields ae)), (turn_action e).
Qed.

Lemma remove_effect_ok k cid st :
  ledger_ok st -> ledger_ok (remove_effect k cid st).
Proof.
  intros H. eapply ledger_ok_sublist;
    [done | apply remove_effect_objects | apply remove_effect_sublist].
Qed.

Lemma merge_or_push_ok e t st :
  ledger_ok st -> ledger_ok (merge_or_push e t st).
Proof.
  intros Hok. unfold merge_or_push.
  destruct (list_find _ _) as [[i a]|] eqn:Hfind.
  - apply ledger_ok_alter; [apply merge_effect_key | done].
  - destruct Hok as [Hvalid Hkeys].
    apply list_find_None in Hfind. rewrite Forall_forall in Hfind, Hvalid.
    assert (Hold : forall b, b ∈ active_effects st ->
              ledger_key
                (set_active_effects (active_effects st ++ [length (objects st)])
                   (set_objects
                      (objects st
                         ++ [{| char_id := t;
                                remaining_turns :=
                                  num_times_length (duration e)
                                    (length (combat_queue st));
                                fields := e |}]) st)) b
              = ledger_key st b).
    { intros b Hb. unfold ledger_key. simpl.
      by rewrite lookup_app_l by by apply Hvalid. }
    split; simpl.
    + apply Forall_app. split.
      * apply Forall_forall. intros b Hb. rewrite length_app. simpl.
        specialize (Hvalid b Hb). lia.
      * constructor; [|constructor]. rewrite length_app. simpl. lia.
    + rewrite fmap_app. apply NoDup_app. split; [|split].
      * rewrite (list_fmap_ext _ (ledger_key st)); [done|].
        intros j b Hb. apply Hold. by eapply list_elem_of_lookup_2.
      * intros key Hkey Hnew. simpl in Hnew.
        apply list_elem_of_singleton in Hnew. subst key.
        apply list_elem_of_fmap in Hkey as (b & Hkeyb & Hb).
        rewrite (Hold b Hb) in Hkeyb.
        apply (Hfind b Hb). apply same_effect_key. rewrite <- Hkeyb.
        unfold ledger_key. simpl.
        by rewrite list_lookup_middle.
      * simpl. apply NoDup_singleton.
Qed.

Lemma apply_effect_ok e t st :
  ledger_ok st -> ledger_ok (apply_effect e t st).
Proof.
  intros Hok. unfold apply_effect.
  eapply ledger_ok_sublist;
    [apply (merge_or_push_ok e t st Hok)
    | apply interruption_scan_objects
    | apply interruption_scan_sublist].
Qed.

Lemma exec_cmd_ok st c : ledger_ok st -> ledger_ok (exec_cmd st c).
Proof.
  intros Hok. destruct c; simpl.
  - by eapply ledger_ok_sublist.
  - by eapply ledger_ok_sublist.
  - by apply apply_effect_ok.
  - by apply remove_effect_ok.
Qed.

Lemma exec_cmds_ok cs st : ledger_ok st -> ledger_ok (exec_cmds cs st).
Proof.
  unfold exec_cmds. revert st.
  induction cs as [|c cs IH]; intros st Hok; simpl; [done|].
  by apply IH, exec_cmd_ok.
Qed.

Section LedgerInvariant.

Context (E : Externals).

Lemma tick_effect_ok st a : ledger_ok st -> ledger_ok (tick_effect E st a).
Proof.
  intros Hok. unfold tick_effect.
  destruct (objects st !! a) as [effect|]; [|done].
  set (st1 := match turn_action (fields effect) with
              | Some f => _ | None => st end).
  assert (H1 : ledger_ok st1).
  { subst st1. destruct (turn_action (fields effect)) as [f|]; [|done].
    destruct (_ || _); [|done].
    apply exec_cmds_ok. by eapply ledger_ok_sublist. }
  set (st2 := set_objects _ st1).
  assert (H2 : ledger_ok st2).
  { subst st2. by apply ledger_ok_alter. }
  destruct (objects st2 !! a) as [effect'|]; [|done].
  destruct (action_after_end (fields effect')) as [g|]; [|done].
  destruct (num_is_zero _); [|done].
  apply exec_cmds_ok. by eapply ledger_ok_sublist.
Qed.

Lemma tick_all_ok l st :
  ledger_ok st -> ledger_ok (foldl (tick_effect E) st l).
Proof.
  revert st. induction l as [|a l IH]; intros st Hok; simpl; [done|].
  by apply IH, tick_effect_ok.
Qed.

Lemma update_active_effects_ok st :
  ledger_ok st -> ledger_ok (update_active_effects E st).
Proof.
  intros Hok. unfold update_active_effects.
  eapply ledger_ok_sublist; [by apply tick_all_ok | done |].
  simpl. apply sublist_filter.
Qed.

Lemma advance_once_ok st : ledger_ok st -> ledger_ok (advance_once E st).
Proof.
  intros Hok. unfold advance_once.
  eapply ledger_ok_sublist; [by apply update_active_effects_ok | done | done].
Qed.

Lemma check_finish_ok st : ledger_ok st -> ledger_ok (check_finish st).
Proof.
  intros Hok. destruct (check_finish_frame st) as (_ & _ & Ho & Ha & _).
  eapply ledger_ok_sublist; [done | done | by rewrite Ha].
Qed.

Lemma begin_turn_ledger st st' :
  begin_turn st = Some st' ->
  objects st' = objects st /\ active_effects st' = active_effects st.
Proof.
  unfold begin_turn.
  destruct (combat_queue st !! current_index st) as [who|]; [|done].
  destruct (get_allies_and_enemies st (character_id who)) as [al en].
  destruct (get_available_actions st) as [actions|]; [|done].
  by intros [= <-].
Qed.

Lemma engine_step_ok st st' :
  engine_step E st st' -> ledger_ok st -> ledger_ok st'.
Proof.
  intros [s c|s|s|s|s s' Hs] Hok.
  - by apply exec_cmd_ok.
  - by apply update_active_effects_ok.
  - by apply advance_once_ok.
  - by apply check_finish_ok.
  - destruct (begin_turn_ledger _ _ Hs) as [Ho Ha].
    eapply ledger_ok_sublist; [done | done | by rewrite Ha].
Qed.

Lemma reachable_ledger_ok st : reachable E st -> ledger_ok st.
Proof.
  induction 1 as [queue g1 g2|st st' _ IH Hstep].
  - split; simpl; constructor.
  - by eapply engine_step_ok.
Qed.

End LedgerInvariant.

(** ** Every method of the engine is made of engine steps *)

Section Adequacy.

Context (E : Externals).

Lemma exec_cmds_reachable cs st :
  reachable E st -> reachable E (exec_cmds cs st).
Proof.
  unfold exec_cmds. revert st.
  induction cs as [|c cs IH]; intros st Hst; simpl; [done|].
  apply IH. eapply reachable_step; [done | constructor].
Qed.

Lemma move_combat_queue_reachable fuel : forall st st',
  reachable E st ->
  move_combat_queue E fuel st = Normal st' -> reachable E st'.
Proof.
  induction fuel as [|fuel IH]; intros st st' Hst; [done|].
  rewrite move_combat_queue_unfold.
  assert (Hnext : reachable E (advance_once E st))
    by (eapply reachable_step; [done | constructor]).
  destruct (can_attack _) as [[]|]; [by intros [= <-] | by apply IH | done].
Qed.

Lemma act_reachable fuel action target st st' :
  reachable E st ->
  outcome_state (act E fuel action target st) = Some st' ->
  reachable E st'.
Proof.
  intros Hst. unfold act.
  destruct (turn_state st) as [ts|]; [|done].
  destruct (negb _); [by intros [= <-]|].
  assert (Hexec : reachable E (snd (run_action E action target st))).
  { unfold run_action. destruct (execute action) as [|f]; [done|].
    destruct (run_execute E f target st) as [r cs].
    by apply exec_cmds_reachable. }
  destruct (run_action E action target st) as [r st1]. simpl in Hexec.
  destruct (report_throws st1 r target); [done|].
  destruct (consumes_turn r).
  - destruct (move_combat_queue E fuel st1) as [st2| | | |] eqn:Hm; simpl;
      try done.
    + intros [= <-]. eapply reachable_step; [|constructor].
      by eapply move_combat_queue_reachable.
    + by apply move_combat_queue_not_unavailable in Hm.
  - simpl. intros [= <-]. eapply reachable_step; [done | constructor].
Qed.

Lemma resolve_reachable fuel decision st st' :
  reachable E st ->
  outcome_state (resolve E fuel decision st) = Some st' ->
  reachable E st'.
Proof.
  intros Hst. unfold resolve.
  destruct (action decision) as [a|]; [|by intros [= <-]].
  destruct (_ || _); [by apply act_reachable | by intros [= <-]].
Qed.

Lemma loop_test_reachable (continue : Combat -> Resumption) o st' :
  (forall st, outcome_state o = Some st -> reachable E st) ->
  (forall st s, reachable E st ->
     resumption_state (continue st) = Some s -> reachable E s) ->
  resumption_state (loop_test continue o) = Some st' ->
  reachable E st'.
Proof.
  intros Ho Hk. destruct o as [st| st | | |]; simpl; try done.
  - destruct (_result st) as [r|].
    + intros [= <-]. by apply Ho.
    + apply Hk. by apply Ho.
  - intros [= <-]. by apply Ho.
Qed.

Lemma turns_reachable fuel : forall st st',
  reachable E st ->
  resumption_state (turns E fuel st) = Some st' -> reachable E st'.
Proof.
  induction fuel as [|fuel IH]; intros st st' Hst; [done|]. simpl.
  destruct (begin_turn st) as [st1|] eqn:Hbegin; [|done].
  assert (H1 : reachable E st1)
    by (eapply reachable_step; [done | by constructor]).
  destruct (kind <$> _) as [[strategy|]|]; [|by intros [= <-] | done].
  apply loop_test_reachable; [|apply IH].
  intros s. by apply resolve_reachable.
Qed.

(** The states that the generator hands out are reachable. *)
Lemma next_reachable fuel decision g st' :
  reachable E (generator_state g) ->
  resumption_state (next E fuel decision g) = Some st' ->
  reachable E st'.
Proof.
  intros Hg. destruct g as [st|st|st]; simpl in *.
  - by apply turns_reachable.
  - destruct (action decision) as [a|]; [|done].
    apply loop_test_reachable; [|intros s1 s2; apply turns_reachable].
    intros s. by apply resolve_reachable.
  - by intros [= <-].
Qed.

End Adequacy.

(** ** Merging, not duplicating *)

Lemma filter_same_effect_length st k t (l : list nat) :
  NoDup (ledger_key st <$> l) ->
  length (filter (same_effect st k t) l) <= 1.
Proof.
  induction l as [|a l IH]; [by intros _; simpl; lia|].
  rewrite fmap_cons, NoDup_cons. intros [Hfresh Hrest].
  rewrite filter_cons. destruct (decide (same_effect st k t a)) as [Ha|Ha].
  - simpl. destruct (filter (same_effect st k t) l) as [|b rest] eqn:Hf;
      [simpl; lia|].
    exfalso. apply Hfresh.
    assert (Hb : b ∈ filter (same_effect st k t) l) by (rewrite Hf; left).
    apply list_elem_of_filter in Hb as [Hb Hbl].
    apply same_effect_key in Ha, Hb. rewrite Ha, <- Hb.
    by apply list_elem_of_fmap_2.
  - by apply IH.
Qed.

Lemma merge_or_push_found e t st i a :
  list_find (same_effect st (type e) t) (active_effects st) = Some (i, a) ->
  merge_or_push e t st
  = set_objects
      (alter (merge_effect e (length (combat_queue st))) a (objects st)) st.
Proof. unfold merge_or_push. by intros ->. Qed.

Lemma apply_effect_objects e t st :
  objects (apply_effect e t st) = objects (merge_or_push e t st).
Proof. unfold apply_effect. apply interruption_scan_objects. Qed.

(** C3: in every state of an encounter the ledger holds at most one record
    of a given kind on a given target; applying an effect whose kind is
    already active on the target creates no record and pushes none, it
    rewrites the record found. *)
Theorem ledger_one_record_per_kind_and_target (E : Externals) (st : Combat) :
  reachable E st ->
  (forall k t,
     length (filter (same_effect st k t) (active_effects st)) <= 1)
  /\ (forall e t i a,
        list_find (same_effect st (type e) t) (active_effects st)
        = Some (i, a) ->
        let st' := apply_effect e t st in
        length (objects st') = length (objects st)
        /\ active_effects (merge_or_push e t st) = active_effects st
        /\ sublist (active_effects st') (active_effects st)
        /\ objects st' !! a
           = merge_effect e (length (combat_queue st)) <$> objects st !! a
        /\ forall k' t',
             length (filter (same_effect st' k' t') (active_effects st')) <= 1).
Proof.
  intros Hreach. split.
  - intros k t. apply filter_same_effect_length.
    by apply (reachable_ledger_ok E).
  - intros e t i a Hfind st'. subst st'.
    rewrite apply_effect_objects, (merge_or_push_found _ _ _ _ _ Hfind).
    simpl. split; [by rewrite length_alter|]. split; [done|].
    split; [|split].
    + unfold apply_effect. etrans; [apply interruption_scan_sublist|].
      by rewrite (merge_or_push_found _ _ _ _ _ Hfind).
    + apply list_lookup_alter_eq.
    + intros k' t'. apply filter_same_effect_length.
      apply (reachable_ledger_ok E).
      eapply reachable_step; [done|]. apply (step_cmd E st (ApplyEffect e t)).
Qed.

Lemma ledger_one_record_per_kind_and_target_witness :
  length (filter (same_effect Demo.blaze BURNING "2")
            (active_effects Demo.blaze)) <= 1
  /\ length (objects Demo.blaze) = 1.
Proof.
  assert (Hfirst : reachable Demo.world
            (apply_effect (Demo.burning 3 2 (Some 3)) "2"
               (new_combat [Demo.hero "1" 10; Demo.hero "2" 10] [0] [1]))).
  { eapply reachable_step; [apply reachable_new|].
    apply (step_cmd Demo.world _ (ApplyEffect _ _)). }
  split.
  - assert (Hsecond : reachable Demo.world Demo.blaze).
    { eapply reachable_step; [exact Hfirst|].
      apply (step_cmd Demo.world _ (ApplyEffect _ _)). }
    destruct (ledger_one_record_per_kind_and_target Demo.world _ Hsecond)
      as [Hone _].
    exact (Hone BURNING "2").
  - destruct (ledger_one_record_per_kind_and_target Demo.world _ Hfirst)
      as [_ Hmerge].
    destruct (Hmerge (Demo.burning 3 2 (Some 3)) "2" 0 0) as [Hlen _];
      [vm_compute; reflexivity|].
    exact Hlen.
Defined.

(** ** The stronger effect wins *)

(** The comparison of two quotients is strict. *)
Lemma rate_gt_irrefl (x : rate) : rate_gt x x = false.
Proof.
  unfold rate_gt, SFltb, SFcompare.
  destruct x as [s|s| |s m e]; try done; [by destruct s|].
  rewrite Z.compare_refl, Pos.compare_cont_refl. by destruct s.
Qed.

(** C4 (as amended): when [apply_effect] finds a record of the kind on the
    target, the record's [remaining_turns] grows by the incoming duration
    times the number of participants; when both the record and the
    incoming effect carry damage and the incoming quotient of damage by
    duration, as the division of doubles gives it, is strictly greater
    than the record's, the record takes the incoming damage and duration,
    and it takes the incoming per-tick callback when both declare one;
    otherwise damage, duration and callback are kept.  The comparison is
    strict: an incoming effect with the damage and the duration of the
    record changes none of the three. *)
Theorem apply_effect_merges (st : Combat) (e : IEffect) (t : string)
    (i a : nat) (old : ActiveEffect) :
  list_find (same_effect st (type e) t) (active_effects st) = Some (i, a) ->
  objects st !! a = Some old ->
  exists new,
    objects (apply_effect e t st) !! a = Some new
    /\ remaining_turns new
       = num_add (remaining_turns old)
           (num_times_length (duration e) (length (combat_queue st)))
    /\ (forall d0 d1,
          damage (fields old) = Some d0 -> damage e = Some d1 ->
          rate_gt (damage_rate d1 (duration e))
            (damage_rate d0 (duration (fields old))) = true ->
          damage (fields new) = Some d1
          /\ duration (fields new) = duration e
          /\ (forall f0 f1,
                turn_action (fields old) = Some f0 ->
                turn_action e = Some f1 ->
                turn_action (fields new) = Some f1)
          /\ (turn_action (fields old) = None \/ turn_action e = None ->
              turn_action (fields new) = turn_action (fields old)))
    /\ (forall d0 d1,
          damage (fields old) = Some d0 -> damage e = Some d1 ->
          rate_gt (damage_rate d1 (duration e))
            (damage_rate d0 (duration (fields old))) = false ->
          fields new = fields old)
    /\ (damage (fields old) = None \/ damage e = None ->
        fields new = fields old)
    /\ (damage e = damage (fields old) ->
        duration e = duration (fields old) ->
        fields new = fields old).
Proof.
  intros Hfind Hold.
  exists (merge_effect e (length (combat_queue st)) old).
  split.
  { rewrite apply_effect_objects, (merge_or_push_found _ _ _ _ _ Hfind).
    simpl. by rewrite list_lookup_alter_eq, Hold. }
  split; [done|]. unfold merge_effect. simpl.
  split; [|split; [|split]].
  - intros d0 d1 -> -> ->. split; [|split; [|split]].
    + by destruct (turn_action (fields old)), (turn_action e).
    + by destruct (turn_action (fields old)), (turn_action e).
    + by intros f0 f1 -> ->.
    + intros Hnone.
      destruct (turn_action (fields old)) as [f0|] eqn:H0,
        (turn_action e) as [f1|]; simpl; try done.
      by destruct Hnone.
  - by intros d0 d1 -> -> ->.
  - intros [->| ->]; [done|]. by destruct (damage (fields old)).
  - intros -> ->. destruct (damage (fields old)) as [d0|]; [|done].
    by rewrite rate_gt_irrefl.
Qed.

(** The quotients are doubles: of two quotients that differ, the greater
    is not found greater when both round to the same double. *)
Example rate_gt_rounds :
  (94906267 * 94906265 < 94906266 * 94906266)%Z
  /\ rate_gt (damage_rate 94906266 (Fin 94906265))
       (damage_rate 94906267 (Fin 94906266)) = false
  /\ rate_gt (damage_rate 3 (Fin 2)) (damage_rate 1 (Fin 1)) = true.
Proof. vm_compute. repeat split. Qed.

Lemma apply_effect_merges_witness :
  exists new,
    objects (apply_effect (Demo.burning 3 2 (Some 3)) "2" Demo.blaze) !! 0
    = Some new
    /\ remaining_turns new = Fin 12.
Proof.
  edestruct (apply_effect_merges Demo.blaze (Demo.burning 3 2 (Some 3)) "2" 0 0)
    as (new & Hnew & Hturns & _);
    [vm_compute; reflexivity | vm_compute; reflexivity |].
  exists new. split; [exact Hnew|]. rewrite Hturns. reflexivity.
Defined.

(** Counterexample to C4 as stated: the record and the incoming effect both
    carry damage and the incoming rate is strictly greater, yet the
    record's per-tick callback is not the incoming effect's afterwards,
    because the record declared none. *)
Lemma apply_effect_keeps_missing_callback :
  let incoming := Demo.burning 5 1 (Some 5) in
  exists old new,
    objects Demo.smoulder !! 0 = Some old
    /\ list_find (same_effect Demo.smoulder (type incoming) "2")
         (active_effects Demo.smoulder) = Some (0, 0)
    /\ objects (apply_effect incoming "2" Demo.smoulder) !! 0 = Some new
    /\ damage (fields old) = Some 1%Z /\ damage incoming = Some 5%Z
    /\ rate_gt (damage_rate 5 (duration incoming))
         (damage_rate 1 (duration (fields old))) = true
    /\ damage (fields new) = damage incoming
    /\ duration (fields new) = duration incoming
    /\ turn_action (fields new) <> turn_action incoming.
Proof.
  eexists _, _. split; [vm_compute; reflexivity|].
  split; [vm_compute; reflexivity|].
  split; [vm_compute; reflexivity|].
  repeat split; discriminate.
Qed.

(** ** The interruption scan *)

Lemma remove_effect_keeps k cid st b :
  b ∈ active_effects st ->
  ~ same_effect st k cid b ->
  b ∈ active_effects (remove_effect k cid st).
Proof.
  intros Hb Hnot. unfold remove_effect.
  destruct (list_find _ _) as [[i x]|] eqn:Hfind; [|done]. simpl.
  apply list_find_Some in Hfind as (Hix & Hx & _).
  rewrite <- (take_drop_middle _ _ _ Hix) in Hb.
  rewrite !elem_of_app, elem_of_cons in Hb. rewrite elem_of_app.
  destruct Hb as [Hb|[->|Hb]]; [by left | done | by right].
Qed.

Lemma same_effect_objects st st' k cid b :
  objects st' = objects st ->
  same_effect st' k cid b <-> same_effect st k cid b.
Proof. unfold same_effect. by intros ->. Qed.

Lemma interruption_scan_keeps e t l : forall st b,
  b ∈ active_effects st ->
  ~ same_effect st (type e) t b ->
  b ∈ active_effects (foldl (interruption_step e t) st l).
Proof.
  induction l as [|a l IH]; intros st b Hb Hnot; simpl; [done|].
  assert (Hobj : objects (interruption_step e t st a) = objects st).
  { unfold interruption_step. destruct (objects st !! a) as [ae|]; [|done].
    destruct (blocks_component_of e ae); [apply remove_effect_objects | done]. }
  apply IH.
  - unfold interruption_step. destruct (objects st !! a) as [ae|]; [|done].
    destruct (blocks_component_of e ae); [by apply remove_effect_keeps | done].
  - by rewrite (same_effect_objects _ _ _ _ _ Hobj).
Qed.

(** What the scan does: whatever the existing records require and the
    incoming effect blocks, a record of another kind or on another target
    stays in the ledger. *)
Lemma apply_effect_keeps_other_records e t st b :
  ledger_ok st ->
  b ∈ active_effects st ->
  ~ same_effect st (type e) t b ->
  b ∈ active_effects (apply_effect e t st).
Proof.
  intros [Hvalid _] Hb Hnot. unfold apply_effect.
  rewrite Forall_forall in Hvalid. specialize (Hvalid b Hb).
  apply interruption_scan_keeps.
  - unfold merge_or_push. destruct (list_find _ _) as [[i a]|]; simpl; [done|].
    apply elem_of_app. by left.
  - intros Hsame. apply Hnot. revert Hsame.
    rewrite !same_effect_key. unfold merge_or_push, ledger_key.
    destruct (list_find _ _) as [[i a]|]; simpl.
    + destruct (decide (a = b)) as [->|Hne].
      * rewrite list_lookup_alter_eq.
        destruct (objects st !! b) as [ae|]; [|done].
        destruct (merge_effect_key e (length (combat_queue st)) ae)
          as [Hkind _].
        simpl in Hkind |- *. by rewrite Hkind.
      * by rewrite list_lookup_alter_ne.
    + by rewrite lookup_app_l.
Qed.

(** C2, on the code: the first hero is casting, which requires the somatic
    component; a staggering effect that blocks the somatic component is
    applied to the same hero.  The casting record is still in the ledger
    afterwards, and the record removed is the staggering one that was just
    pushed. *)
Theorem apply_effect_interruption_removes_incoming :
  let st' := apply_effect Demo.staggered "1" Demo.chant in
  active_effects Demo.chant = [0]
  /\ (type <$> (fields <$> objects Demo.chant !! 0)) = Some CASTING
  /\ (components <$> (fields <$> objects Demo.chant !! 0))
     = Some (Some [SOMATIC; VERBAL])
  /\ blocks_somatic Demo.staggered = true
  /\ active_effects (merge_or_push Demo.staggered "1" Demo.chant) = [0; 1]
  /\ active_effects st' = [0]
  /\ (type <$> (fields <$> objects st' !! 0)) = Some CASTING
  /\ (type <$> (fields <$> objects st' !! 1)) = Some STAGGERED.
Proof. vm_compute. repeat split. Qed.

(** ** The countdown of an effect *)

Lemma calls_of_tick_address n b ae c :
  c ∈ calls_of_tick n b ae -> call_address c = b.
Proof.
  unfold calls_of_tick. rewrite elem_of_app. intros [H|H].
  - destruct (turn_action (fields ae)); [|by apply elem_of_nil in H].
    destruct (_ || _); [|by apply elem_of_nil in H].
    by apply list_elem_of_singleton in H as ->.
  - destruct (action_after_end (fields ae)); [|by apply elem_of_nil in H].
    destruct (num_is_zero _); [|by apply elem_of_nil in H].
    by apply list_elem_of_singleton in H as ->.
Qed.

Lemma filter_address_same a (cs : list Call) :
  (forall c, c ∈ cs -> call_address c = a) ->
  filter (fun c => call_address c = a) cs = cs.
Proof.
  induction cs as [|c cs IH]; intros H; [done|].
  rewrite filter_cons_True by (apply H; left).
  f_equal. apply IH. intros c' Hc'. apply H. by right.
Qed.

Lemma filter_address_other a b (cs : list Call) :
  a <> b ->
  (forall c, c ∈ cs -> call_address c = b) ->
  filter (fun c => call_address c = a) cs = [].
Proof.
  intros Hne. induction cs as [|c cs IH]; intros H; [done|].
  rewrite filter_cons_False by (rewrite (H c) by left; congruence).
  apply IH. intros c' Hc'. apply H. by right.
Qed.

(** The calls for one address, among those of a tick over distinct
    addresses. *)
Lemma filter_address_join (F : nat -> list Call) a (l : list nat) :
  (forall b c, c ∈ F b -> call_address c = b) ->
  NoDup l ->
  filter (fun c => call_address c = a) (mjoin (F <$> l))
  = if decide (a ∈ l) then F a else [].
Proof.
  intros HF. induction l as [|b l IH]; intros Hdup.
  - by rewrite decide_False by apply not_elem_of_nil.
  - apply NoDup_cons in Hdup as [Hb Hdup]. specialize (IH Hdup).
    rewrite fmap_cons. simpl. rewrite filter_app, IH.
    destruct (decide (a = b)) as [->|Hne].
    + rewrite (decide_True (P := b ∈ b :: l)) by left.
      rewrite decide_False by done.
      rewrite filter_address_same by apply HF. by rewrite app_nil_r.
    + rewrite (filter_address_other a b) by (done || apply HF). simpl.
      destruct (decide (a ∈ l)) as [Hal|Hal].
      * by rewrite decide_True by by right.
      * rewrite decide_False; [done|].
        rewrite elem_of_cons. by intros [?|?].
Qed.

Section Countdown.

Context (E : Externals).

(** One step of a tick on a quiet record: the record is decremented, and
    the log says which closures ran. *)
Lemma tick_effect_quiet st a :
  (forall ae, objects st !! a = Some ae -> quiet_record E ae) ->
  (forall b,
     objects (tick_effect E st a) !! b
     = if decide (b = a) then decrement_turns <$> objects st !! b
       else objects st !! b)
  /\ active_effects (tick_effect E st a) = active_effects st
  /\ calls (tick_effect E st a)
     = calls st
       ++ from_option (calls_of_tick (length (combat_queue st)) a) []
            (objects st !! a).
Proof.
  intros Hquiet. unfold tick_effect.
  destruct (objects st !! a) as [effect|] eqn:Hobj.
  2:{ split; [|split; [done | by rewrite app_nil_r]].
      intros b. destruct (decide (b = a)) as [->|]; [by rewrite Hobj | done]. }
  destruct (Hquiet effect eq_refl) as [Hturn Hend].
  set (n := length (combat_queue st)).
  set (cs1 := match turn_action (fields effect) with
              | Some f =>
                  if round_boundary (remaining_turns effect) n
                     || num_is_infinity (remaining_turns effect)
                  then [TurnActionCall a f (remaining_turns effect)] else []
              | None => []
              end).
  set (st1 := match turn_action (fields effect) with
              | Some f => _ | None => st end).
  assert (H1 : objects st1 = objects st
               /\ active_effects st1 = active_effects st
               /\ calls st1 = calls st ++ cs1).
  { subst st1 cs1. destruct (turn_action (fields effect)) as [f|];
      [|by rewrite app_nil_r].
    destruct (_ || _); [|by rewrite app_nil_r].
    by destruct (exec_stat_cmds _
                   (log_call (TurnActionCall a f (remaining_turns effect)) st)
                   (Hturn f eq_refl (get_char_by_id st (char_id effect)) st))
      as (-> & -> & ->). }
  destruct H1 as (Ho1 & Ha1 & Hc1).
  set (st2 := set_objects _ st1).
  assert (Hlook : objects st2 !! a = Some (decrement_turns effect)).
  { subst st2. simpl. by rewrite Ho1, list_lookup_alter_eq, Hobj. }
  assert (Ho2 : forall b,
            objects st2 !! b
            = if decide (b = a) then decrement_turns <$> objects st !! b
              else objects st !! b).
  { intros b. subst st2. simpl. rewrite Ho1.
    destruct (decide (b = a)) as [->|Hne];
      [apply list_lookup_alter_eq | by apply list_lookup_alter_ne]. }
  rewrite Hlook. simpl. unfold calls_of_tick. fold n cs1.
  destruct (action_after_end (fields effect)) as [g|];
    [|by rewrite app_nil_r, <- Hc1].
  destruct (num_is_zero _); [|by rewrite app_nil_r, <- Hc1].
  destruct (exec_stat_cmds _ (log_call (ActionAfterEndCall a g) st2)
              (Hend g eq_refl (get_char_by_id st (char_id effect)) st2))
    as (-> & -> & ->).
  simpl. by rewrite Hc1, app_assoc.
Qed.

Lemma tick_all_quiet (l : list nat) : forall st,
  NoDup l ->
  (forall a ae, a ∈ l -> objects st !! a = Some ae -> quiet_record E ae) ->
  (forall b,
     objects (foldl (tick_effect E) st l) !! b
     = if decide (b ∈ l) then decrement_turns <$> objects st !! b
       else objects st !! b)
  /\ active_effects (foldl (tick_effect E) st l) = active_effects st
  /\ calls (foldl (tick_effect E) st l)
     = calls st
       ++ mjoin ((fun a =>
                    from_option (calls_of_tick (length (combat_queue st)) a) []
                      (objects st !! a)) <$> l).
Proof.
  induction l as [|a l IH]; intros st Hdup Hquiet.
  - simpl. split; [done|]. by rewrite app_nil_r.
  - apply NoDup_cons in Hdup as [Ha Hdup]. simpl.
    destruct (tick_effect_quiet st a) as (Ho & Hact & Hcalls).
    { intros ae. apply Hquiet. by left. }
    destruct (IH (tick_effect E st a) Hdup) as (Ho' & Hact' & Hcalls').
    { intros b ae Hb. rewrite Ho, decide_False by by intros ->.
      apply Hquiet. by right. }
    destruct (tick_effect_frame E st a) as [_ _ _ _ _ Hlen _ _].
    split; [|split].
    + intros b. rewrite Ho', Ho.
      destruct (decide (b = a)) as [->|Hne].
      * rewrite decide_False by done. by rewrite decide_True by left.
      * destruct (decide (b ∈ l)) as [Hbl|Hbl].
        -- by rewrite decide_True by by right.
        -- rewrite decide_False; [done|].
           rewrite elem_of_cons. by intros [?|?].
    + by rewrite Hact'.
    + rewrite Hcalls', Hcalls, Hlen, <- app_assoc. f_equal. f_equal.
      f_equal. apply list_fmap_ext. intros i b Hb.
      rewrite Ho. rewrite decide_False; [done|].
      intros ->. apply Ha. by eapply list_elem_of_lookup_2.
Qed.

End Countdown.



Lemma quiet_world st : quiet_ledger Demo.world st.
Proof.
  intros a ae _ _. split; intros f _ tgt s; simpl; [|constructor].
  destruct tgt; repeat constructor.
Qed.


(** ** The end of the encounter *)

Section Finish.

Context (E : Externals).

Lemma advance_once_result st :
  _result (advance_once E st) = _result st
  /\ group_1 (advance_once E st) = group_1 st
  /\ group_2 (advance_once E st) = group_2 st.
Proof.
  destruct (update_active_effects_frame E st) as [Hr _ H1 H2 _ _ _ _].
  done.
Qed.

Lemma move_combat_queue_result fuel : forall st st',
  move_combat_queue E fuel st = Normal st' ->
  _result st' = _result st
  /\ group_1 st' = group_1 st /\ group_2 st' = group_2 st.
Proof.
  induction fuel as [|fuel IH]; intros st st'; [done|].
  rewrite move_combat_queue_unfold.
  destruct (advance_once_result st) as (Hr & H1 & H2).
  destruct (can_attack _) as [[]|]; [| |done].
  - by intros [= <-].
  - intros Hm. destruct (IH _ _ Hm) as (-> & -> & ->). done.
Qed.

(** A call of [act] that returns ends with the win check, on a state in
    which no result had been set if none was set before. *)
Lemma act_returns_checked fuel action target st st2 :
  act E fuel action target st = Normal st2 ->
  exists st1,
    st2 = check_finish st1 /\ _result st1 = _result st
    /\ group_1 st1 = group_1 st /\ group_2 st1 = group_2 st.
Proof.
  unfold act. destruct (turn_state st) as [ts|]; [|done].
  destruct (negb _); [done|].
  pose proof (run_action_frame E action target st) as [Hr _ H1 H2 _ _ _ _].
  destruct (run_action E action target st) as [r st1]. simpl in *.
  destruct (report_throws st1 r target); [done|].
  destruct (consumes_turn r).
  - destruct (move_combat_queue E fuel st1) as [st1'| | | |] eqn:Hm; try done.
    intros [= <-]. exists st1'. split; [done|].
    destruct (move_combat_queue_result _ _ _ Hm) as (-> & -> & ->). done.
  - intros [= <-]. by exists st1.
Qed.

Lemma check_finish_sums st g :
  sum_hp (check_finish st) g = sum_hp st g
  /\ group_1 (check_finish st) = group_1 st
  /\ group_2 (check_finish st) = group_2 st.
Proof.
  unfold check_finish.
  destruct (_ <=? _)%Z; [done|]. by destruct (_ <=? _)%Z.
Qed.

(** C8 (as amended): once a call of [act] has returned with the summed hit
    points of a group at most 0, the result is set, the loop of the
    generator returns it instead of producing another snapshot, and a
    completed generator runs nothing, so the result stays as it is.  The
    winner is 1 when the first group's sum is at most 0 and 0 otherwise,
    which is the group whose sum is positive unless both are at most 0.
    While both sums are positive no result is set and the loop goes on. *)
Theorem combat_finishes_once fuel a t st st2 :
  _result st = None ->
  act E fuel a t st = Normal st2 ->
  let sum_group1 := sum_hp st2 (group_1 st2) in
  let sum_group2 := sum_hp st2 (group_2 st2) in
  ((sum_group1 <= 0)%Z \/ (sum_group2 <= 0)%Z ->
     exists r,
       _result st2 = Some r
       /\ winner r = (if (sum_group1 <=? 0)%Z then 1 else 0)
       /\ (forall continue, loop_test continue (Normal st2) = Returns r st2)
       /\ (forall decision,
             action decision = Some a -> target decision = t ->
             action_type a = NULL \/ is_Some t ->
             next E fuel decision (Suspended st) = Returns r st2)
       /\ after_next (Returns r st2) = Some (Completed st2)
       /\ (forall fuel' decision',
             next E fuel' decision' (Completed st2) = ReturnsUndefined st2
             /\ after_next (ReturnsUndefined st2) = Some (Completed st2))
       /\ ((0 < sum_group1)%Z \/ (0 < sum_group2)%Z ->
           (0 < sum_hp st2 (match winner r with
                            | O => group_1 st2
                            | S _ => group_2 st2
                            end))%Z))
  /\ ((0 < sum_group1)%Z -> (0 < sum_group2)%Z ->
      _result st2 = None
      /\ forall continue, loop_test continue (Normal st2) = continue st2).
Proof.
  intros Hnone Hact sum_group1 sum_group2.
  destruct (act_returns_checked _ _ _ _ _ Hact) as (st1 & -> & Hr1 & _ & _).
  rewrite Hnone in Hr1.
  destruct (check_finish_sums st1 (group_1 (check_finish st1))) as (Hs1 & Hg1 & Hg2).
  destruct (check_finish_sums st1 (group_2 (check_finish st1))) as (Hs2 & _ & _).
  subst sum_group1 sum_group2. rewrite Hs1, Hs2, Hg1, Hg2.
  assert (Hres : _result (check_finish st1)
                 = if (sum_hp st1 (group_1 st1) <=? 0)%Z
                   then Some {| winner := 1 |}
                   else if (sum_hp st1 (group_2 st1) <=? 0)%Z
                        then Some {| winner := 0 |} else None).
  { unfold check_finish.
    destruct (_ <=? _)%Z; [done|]. by destruct (_ <=? _)%Z. }
  split.
  - intros Hdown.
    assert (exists r,
              _result (check_finish st1) = Some r
              /\ winner r
                 = (if (sum_hp st1 (group_1 st1) <=? 0)%Z then 1 else 0))
      as (r & Hr & Hw).
    { rewrite Hres. destruct (Z.leb_spec (sum_hp st1 (group_1 st1)) 0);
        [by eexists|].
      destruct (Z.leb_spec (sum_hp st1 (group_2 st1)) 0); [by eexists | lia]. }
    exists r. split; [done|]. split; [done|].
    split; [by intros continue; simpl; rewrite Hr|].
    split; [|split; [done|split; [done|]]].
    + intros decision Ha Ht Hgo. simpl. rewrite Ha.
      unfold resolve. rewrite Ha, Ht.
      replace (bool_decide (action_type a = NULL) || bool_decide (is_Some t))
        with true.
      * rewrite Hact. simpl. by rewrite Hr.
      * symmetry. apply orb_true_iff.
        destruct Hgo; [left | right]; by apply bool_decide_eq_true_2.
    + intros Hup. rewrite Hw.
      destruct (Z.leb_spec (sum_hp st1 (group_1 st1)) 0);
        rewrite (proj1 (check_finish_sums st1 _)); lia.
  - intros H1 H2. rewrite Hres.
    assert (Hno : (if (sum_hp st1 (group_1 st1) <=? 0)%Z
                   then Some {| winner := 1 |}
                   else if (sum_hp st1 (group_2 st1) <=? 0)%Z
                        then Some {| winner := 0 |} else None) = None).
    { destruct (Z.leb_spec (sum_hp st1 (group_1 st1)) 0); [lia|].
      destruct (Z.leb_spec (sum_hp st1 (group_2 st1)) 0); [lia | done]. }
    split; [done|]. intros continue. simpl. by rewrite Hres, Hno.
Qed.

End Finish.

Lemma combat_finishes_once_witness :
  exists st2,
    next Demo.world 3 (Demo.on Demo.strike 1) (Suspended Demo.duel)
    = Returns {| winner := 0 |} st2.
Proof.
  destruct (act Demo.world 3 Demo.strike (Some 1) Demo.duel) as [st2| | | |] eqn:Hact;
    try (vm_compute in Hact; discriminate).
  exists st2.
  destruct (combat_finishes_once Demo.world 3 Demo.strike (Some 1)
              Demo.duel st2 eq_refl Hact) as [Hdown _].
  vm_compute in Hact. injection Hact as <-.
  destruct Hdown as (r & Hr & Hw & _ & Hnext & _);
    [right; vm_compute; discriminate|].
  rewrite (Hnext (Demo.on Demo.strike 1) eq_refl eq_refl);
    [|right; by eexists].
  f_equal. destruct r as [w]. simpl in Hw. by rewrite Hw.
Defined.

(** Counterexample to C8 as stated.  In [Demo.rout] both groups' sums are
    positive; the first hero strikes the only member of the second group
    down, and the tick of the advance burns the third hero far below zero.
    The first group's sum is then negative too, and the result names the
    second group the winner although its sum is not positive and the first
    hero still stands.  In [Demo.lonely] the second group's sum is 0 from
    the start, and the first call of [next] still produces a snapshot. *)
Lemma result_without_positive_winner :
  ((0 < sum_hp Demo.rout (group_1 Demo.rout))%Z
   /\ (0 < sum_hp Demo.rout (group_2 Demo.rout))%Z
   /\ exists st',
        next Demo.world 3 (Demo.on Demo.strike 1) (Suspended Demo.rout)
        = Returns {| winner := 1 |} st'
        /\ (sum_hp st' (group_2 st') <= 0)%Z
        /\ (0 < hp_at st' 0)%Z)
  /\ (sum_hp Demo.lonely (group_2 Demo.lonely) <= 0)%Z
  /\ exists st1,
       next Demo.world 1 {| action := None; target := None |}
         (Fresh Demo.lonely) = Yields st1.
Proof.
  split; [split; [|split]|split].
  - reflexivity.
  - reflexivity.
  - eexists. split; [vm_compute; reflexivity|]. split; vm_compute; done.
  - vm_compute. discriminate.
  - eexists. vm_compute. reflexivity.
Qed.

(** ** The scenario of the specification, run on the embedding *)

(** The hero acts first: one snapshot, then the strike ends the combat. *)
Example hero_first_wins :
  exists st1 st2,
    next Demo.world 2 {| action := None; target := None |}
      (Fresh Demo.hero_first) = Yields st1
    /\ next Demo.world 2 (Demo.on Demo.strike 1) (Suspended st1)
       = Returns {| winner := 0 |} st2.
Proof.
  eexists _, _. split; [vm_compute; reflexivity|].
  vm_compute. reflexivity.
Qed.

(** The other participant acts first and passes; the hero's strike then
    ends the combat, two turns in all. *)
Example scarecrow_first_loses :
  exists st1 st2,
    next Demo.world 2 {| action := None; target := None |}
      (Fresh Demo.scarecrow_first) = Yields st1
    /\ current_index st1 = 1
    /\ next Demo.world 2 (Demo.on Demo.strike 0) (Suspended st1)
       = Returns {| winner := 0 |} st2.
Proof.
  eexists _, _. split; [vm_compute; reflexivity|].
  split; [reflexivity|]. vm_compute. reflexivity.
Qed.

(** * Further properties of the code *)

(** ** Removing from the ledger *)

Lemma filter_Forall_id {A} (P : A -> Prop) `{!forall x, Decision (P x)}
    (l : list A) :
  Forall P l -> filter P l = l.
Proof.
  induction 1 as [|x l Hx _ IH]; [done|].
  by rewrite filter_cons_True, IH.
Qed.

Lemma filter_Forall_not {A} (P : A -> Prop) `{!forall x, Decision (P x)}
    (l : list A) :
  Forall (fun x => ~ P x) l -> filter P l = [].
Proof.
  induction 1 as [|x l Hx _ IH]; [done|].
  by rewrite filter_cons_False.
Qed.

(** In a well-formed ledger the record of a kind on a target is alone. *)
Lemma same_effect_unique st k t (l : list nat) i j a b :
  NoDup (ledger_key st <$> l) ->
  l !! i = Some a -> l !! j = Some b ->
  same_effect st k t a -> same_effect st k t b -> i = j.
Proof.
  intros Hdup Hi Hj Ha Hb. apply same_effect_key in Ha, Hb.
  eapply NoDup_lookup; [exact Hdup | |];
    rewrite list_lookup_fmap; [rewrite Hi | rewrite Hj]; simpl;
    [by rewrite Ha | by rewrite Hb].
Qed.

(** What [remove_effect] leaves in a well-formed ledger: every record but
    the one of the kind on the target, in the order they had. *)
Lemma remove_effect_filter k t st :
  NoDup (ledger_key st <$> active_effects st) ->
  active_effects (remove_effect k t st)
  = filter (fun a => ~ same_effect st k t a) (active_effects st).
Proof.
  intros Hdup. unfold remove_effect.
  destruct (list_find _ _) as [[i a]|] eqn:Hfind.
  - simpl. apply list_find_Some in Hfind as (Hia & Ha & Hbefore).
    rewrite <- (take_drop_middle _ _ _ Hia) at 3.
    rewrite filter_app, filter_cons_False by (by intros H; apply H).
    f_equal; symmetry; apply filter_Forall_id, Forall_forall; intros b Hb Hsame.
    + apply list_elem_of_lookup in Hb as [j Hj].
      apply lookup_take_Some in Hj as [Hj Hlt].
      by apply (Hbefore j b).
    + apply list_elem_of_lookup in Hb as [j Hj].
      rewrite lookup_drop in Hj.
      pose proof (same_effect_unique _ _ _ _ _ _ _ _ Hdup Hia Hj Ha Hsame).
      lia.
  - apply list_find_None in Hfind. symmetry.
    apply filter_Forall_id. exact Hfind.
Qed.

(** X1: [remove_effect] leaves the state as it is exactly when no record
    of the kind on the target is in the ledger; otherwise it takes exactly
    one address out of [active_effects].  It never touches the records
    themselves, the characters or the log. *)
Theorem remove_effect_missing_is_noop k t st :
  (remove_effect k t st = st
   <-> Forall (fun a => ~ same_effect st k t a) (active_effects st))
  /\ (Exists (same_effect st k t) (active_effects st) ->
      S (length (active_effects (remove_effect k t st)))
      = length (active_effects st))
  /\ objects (remove_effect k t st) = objects st
  /\ combat_queue (remove_effect k t st) = combat_queue st
  /\ calls (remove_effect k t st) = calls st.
Proof.
  split; [|split; [|split; [|split]]].
  - unfold remove_effect.
    destruct (list_find _ _) as [[i a]|] eqn:Hfind.
    + apply list_find_Some in Hfind as (Hia & Ha & _). split.
      * intros Heq. apply (f_equal active_effects) in Heq. simpl in Heq.
        apply (f_equal length) in Heq.
        rewrite <- delete_take_drop, length_delete in Heq
          by (by eexists).
        apply lookup_lt_Some in Hia. lia.
      * intros Hnone. rewrite Forall_forall in Hnone.
        destruct (Hnone a); [by eapply list_elem_of_lookup_2 | done].
    + by apply list_find_None in Hfind.
  - intros Hex. unfold remove_effect.
    destruct (list_find _ _) as [[i a]|] eqn:Hfind.
    + apply list_find_Some in Hfind as (Hia & _). simpl.
      rewrite <- delete_take_drop, length_delete by (by eexists).
      apply lookup_lt_Some in Hia. lia.
    + apply list_find_None in Hfind. apply Exists_exists in Hex as (a & Ha & Hs).
      rewrite Forall_forall in Hfind. by destruct (Hfind a Ha).
  - apply remove_effect_objects.
  - apply remove_effect_queue.
  - apply remove_effect_calls.
Qed.

(** X2: in a ledger with at most one record per kind and target,
    [remove_effect] leaves no record of the kind on the target, keeps every
    other record in place, and removing a second time changes nothing. *)
Theorem remove_effect_removes_the_record k t st :
  ledger_ok st ->
  let st' := remove_effect k t st in
  active_effects st'
  = filter (fun a => ~ same_effect st k t a) (active_effects st)
  /\ Forall (fun a => ~ same_effect st' k t a) (active_effects st')
  /\ remove_effect k t st' = st'.
Proof.
  intros [_ Hdup] st'.
  assert (Hf : active_effects st'
               = filter (fun a => ~ same_effect st k t a) (active_effects st))
    by by apply remove_effect_filter.
  assert (Hnone : Forall (fun a => ~ same_effect st' k t a) (active_effects st')).
  { rewrite Hf. apply Forall_forall. intros a Ha.
    apply list_elem_of_filter in Ha as [Ha _].
    by rewrite (same_effect_objects st st') by apply remove_effect_objects. }
  split; [done|]. split; [done|].
  assert (Hfind : list_find (same_effect st' k t) (active_effects st') = None)
    by by apply list_find_None.
  unfold remove_effect at 1. by rewrite Hfind.
Qed.

Lemma remove_effect_removes_the_record_witness :
  active_effects (remove_effect BURNING "2" Demo.kindled) = []
  /\ remove_effect BURNING "2" (remove_effect BURNING "2" Demo.kindled)
     = remove_effect BURNING "2" Demo.kindled.
Proof.
  destruct (remove_effect_removes_the_record BURNING "2" Demo.kindled)
    as (Hf & _ & Hidem).
  - apply (reachable_ledger_ok Demo.world).
    eapply reachable_step; [apply reachable_new|].
    apply (step_cmd Demo.world _ (ApplyEffect _ _)).
  - split; [|exact Hidem]. rewrite Hf. reflexivity.
Defined.

(** ** Applying, then looking up or removing *)

Lemma interrupting_objects e st st' a :
  objects st' = objects st -> interrupting e st' a = interrupting e st a.
Proof. unfold interrupting. by intros ->. Qed.

Lemma filter_not_same_objects st st' k t (l : list nat) :
  objects st' = objects st ->
  filter (fun a => ~ same_effect st' k t a) l
  = filter (fun a => ~ same_effect st k t a) l.
Proof.
  intros Hobj. apply list_filter_iff. intros a.
  by rewrite (same_effect_objects st st') by done.
Qed.

(** The outcome of the scan that closes [apply_effect]: as soon as one
    record of the snapshot passes the test, the record of the incoming
    kind on the target is removed; otherwise nothing is. *)
Lemma interruption_scan_result e t (l : list nat) : forall s,
  NoDup (ledger_key s <$> active_effects s) ->
  active_effects (foldl (interruption_step e t) s l)
  = if existsb (interrupting e s) l
    then filter (fun a => ~ same_effect s (type e) t a) (active_effects s)
    else active_effects s.
Proof.
  induction l as [|a l IH]; intros s Hdup; [done|]. simpl.
  assert (Hobj : objects (interruption_step e t s a) = objects s).
  { unfold interruption_step. destruct (objects s !! a) as [ae|]; [|done].
    destruct (blocks_component_of e ae); [apply remove_effect_objects | done]. }
  assert (Hex : existsb (interrupting e (interruption_step e t s a)) l
                = existsb (interrupting e s) l).
  { clear IH. induction l as [|b l IHl]; [done|]. simpl.
    by rewrite (interrupting_objects e s _ b Hobj), IHl. }
  revert Hobj Hex. unfold interrupting at 3, interruption_step.
  destruct (objects s !! a) as [ae|]; simpl; [|by intros; apply IH].
  destruct (blocks_component_of e ae); simpl; [|by intros; apply IH].
  intros Hobj Hex. rewrite IH.
  - rewrite Hex, (filter_not_same_objects s) by apply remove_effect_objects.
    rewrite !(remove_effect_filter (type e) t s Hdup).
    destruct (existsb (interrupting e s) l); [|done].
    apply filter_Forall_id, Forall_forall. intros b Hb.
    by apply list_elem_of_filter in Hb as [Hb _].
  - rewrite (list_fmap_ext _ (ledger_key s))
      by (intros; apply ledger_key_objects, remove_effect_objects).
    eapply sublist_NoDup; [exact Hdup|].
    apply fmap_sublist, remove_effect_sublist.
Qed.

(** After a push, the records that were in the ledger are not of the
    incoming kind on the target, and the new one is. *)
Lemma merge_or_push_fresh e t st :
  ledger_ok st ->
  list_find (same_effect st (type e) t) (active_effects st) = None ->
  let st1 := merge_or_push e t st in
  active_effects st1 = active_effects st ++ [length (objects st)]
  /\ filter (fun a => ~ same_effect st1 (type e) t a) (active_effects st1)
     = active_effects st
  /\ same_effect st1 (type e) t (length (objects st)).
Proof.
  intros [Hvalid _] Hfind st1. subst st1. unfold merge_or_push. rewrite Hfind.
  simpl. split; [done|].
  assert (Hnew : same_effect
            (set_active_effects (active_effects st ++ [length (objects st)])
               (set_objects
                  (objects st
                     ++ [{| char_id := t;
                            remaining_turns :=
                              num_times_length (duration e)
                                (length (combat_queue st));
                            fields := e |}]) st))
            (type e) t (length (objects st))).
  { unfold same_effect. simpl. by rewrite list_lookup_middle. }
  split; [|done].
  rewrite filter_app, filter_cons_False by (by intros H; apply H).
  rewrite app_nil_r. apply filter_Forall_id, Forall_forall. intros b Hb.
  apply list_find_None in Hfind. rewrite Forall_forall in Hfind, Hvalid.
  intros Hsame. apply (Hfind b Hb). revert Hsame. unfold same_effect. simpl.
  by rewrite lookup_app_l by by apply Hvalid.
Qed.

(** X3: applying an effect of a kind that is not active on the target and
    then removing that kind from the target gives back the ledger as it
    was, whether or not the scan of [apply_effect] had already removed the
    new record; one record object has been allocated. *)
Theorem apply_then_remove_restores_ledger e t st :
  ledger_ok st ->
  list_find (same_effect st (type e) t) (active_effects st) = None ->
  active_effects (remove_effect (type e) t (apply_effect e t st))
  = active_effects st
  /\ length (objects (remove_effect (type e) t (apply_effect e t st)))
     = S (length (objects st)).
Proof.
  intros Hok Hfind.
  destruct (merge_or_push_fresh e t st Hok Hfind) as (Hpush & Hold & _).
  pose proof (merge_or_push_ok e t st Hok) as [_ Hdup1].
  pose proof (apply_effect_ok e t st Hok) as [_ Hdup'].
  split.
  - rewrite remove_effect_filter by done.
    rewrite (filter_not_same_objects (merge_or_push e t st))
      by apply apply_effect_objects.
    unfold apply_effect. rewrite interruption_scan_result by done.
    destruct (existsb _ _); [|done].
    rewrite Hold. apply filter_Forall_id, Forall_forall. intros b Hb.
    rewrite <- Hold in Hb. by apply list_elem_of_filter in Hb as [Hb _].
  - rewrite remove_effect_objects, apply_effect_objects.
    unfold merge_or_push. rewrite Hfind. simpl.
    rewrite length_app. simpl. lia.
Qed.

Lemma apply_then_remove_restores_ledger_witness :
  active_effects
    (remove_effect STAGGERED "1" (apply_effect Demo.staggered "1" Demo.chant))
  = active_effects Demo.chant.
Proof.
  apply (apply_then_remove_restores_ledger Demo.staggered "1" Demo.chant).
  - apply (reachable_ledger_ok Demo.world).
    eapply reachable_step; [apply reachable_new|].
    apply (step_cmd Demo.world _ (ApplyEffect _ _)).
  - reflexivity.
Defined.

(** X4: what is in the ledger after [apply_effect].  When some record of
    the ledger after the merge or push (the new record included) declares
    a component that the incoming effect blocks, no record of the incoming
    kind on the target is left, and every other record is; otherwise the
    ledger is the one after the merge or push, and a look-up of the
    incoming kind on the target finds a record. *)
Theorem apply_effect_then_lookup e t st :
  ledger_ok st ->
  let st1 := merge_or_push e t st in
  let st' := apply_effect e t st in
  (existsb (interrupting e st1) (active_effects st1) = true ->
     active_effects st'
     = filter (fun a => ~ same_effect st1 (type e) t a) (active_effects st1)
     /\ list_find (same_effect st' (type e) t) (active_effects st') = None)
  /\ (existsb (interrupting e st1) (active_effects st1) = false ->
      active_effects st' = active_effects st1
      /\ is_Some (list_find (same_effect st' (type e) t) (active_effects st'))).
Proof.
  intros Hok st1 st'.
  pose proof (merge_or_push_ok e t st Hok) as [_ Hdup1].
  assert (Hscan : active_effects st'
                  = if existsb (interrupting e st1) (active_effects st1)
                    then filter (fun a => ~ same_effect st1 (type e) t a)
                           (active_effects st1)
                    else active_effects st1)
    by apply (interruption_scan_result e t (active_effects st1) st1 Hdup1).
  assert (Hobj : objects st' = objects st1) by apply apply_effect_objects.
  split; intros Hex; rewrite Hex in Hscan; (split; [done|]).
  - apply list_find_None, Forall_forall. intros b Hb.
    rewrite Hscan in Hb. apply list_elem_of_filter in Hb as [Hb _].
    by rewrite (same_effect_objects st1 st').
  - rewrite Hscan.
    assert (exists a, a ∈ active_effects st1 /\ same_effect st' (type e) t a)
      as (a & Ha & Hsame).
    { subst st1 st'. unfold merge_or_push in *.
      destruct (list_find (same_effect st (type e) t) (active_effects st))
        as [[i a]|] eqn:Hfind.
      - apply list_find_Some in Hfind as (Hia & Hsame & _). exists a.
        split; [by eapply list_elem_of_lookup_2|].
        apply (same_effect_objects _ _ _ _ _ Hobj).
        revert Hsame. unfold same_effect. simpl.
        rewrite list_lookup_alter_eq.
        destruct (objects st !! a) as [ae|]; [|done].
        destruct (merge_effect_key e (length (combat_queue st)) ae)
          as [Hkind Hid].
        simpl in Hkind, Hid |- *. by rewrite Hkind.
      - exists (length (objects st)). split.
        + simpl. apply elem_of_app. right. by left.
        + apply (same_effect_objects _ _ _ _ _ Hobj).
          unfold same_effect. simpl. by rewrite list_lookup_middle. }
    eapply list_find_elem_of; [exact Ha | exact Hsame].
Qed.

Lemma apply_effect_then_lookup_witness :
  list_find
    (same_effect (apply_effect Demo.staggered "1" Demo.chant) STAGGERED "1")
    (active_effects (apply_effect Demo.staggered "1" Demo.chant)) = None
  /\ is_Some
       (list_find
          (same_effect (apply_effect Demo.staggered "2" Demo.smoulder)
             STAGGERED "2")
          (active_effects (apply_effect Demo.staggered "2" Demo.smoulder))).
Proof.
  split.
  - apply (apply_effect_then_lookup Demo.staggered "1" Demo.chant);
      [|reflexivity].
    apply (reachable_ledger_ok Demo.world).
    eapply reachable_step; [apply reachable_new|].
    apply (step_cmd Demo.world _ (ApplyEffect _ _)).
  - apply (apply_effect_then_lookup Demo.staggered "2" Demo.smoulder);
      [|reflexivity].
    apply (reachable_ledger_ok Demo.world).
    eapply reachable_step; [apply reachable_new|].
    apply (step_cmd Demo.world _ (ApplyEffect _ _)).
Defined.

(** ** Looking characters up *)

(** X5: [get_char_by_id] returns the first position of the queue whose
    character has the id, nothing exactly when no character has it, and,
    when ids are unique, the position of a character from its own id. *)
Theorem get_char_by_id_finds_first st cid :
  (forall i,
     get_char_by_id st cid = Some i
     <-> (exists c, combat_queue st !! i = Some c /\ character_id c = cid)
         /\ forall j c', combat_queue st !! j = Some c' -> j < i ->
              character_id c' <> cid)
  /\ (get_char_by_id st cid = None
      <-> forall c, c ∈ combat_queue st -> character_id c <> cid)
  /\ (NoDup (character_id <$> combat_queue st) ->
      forall i c, combat_queue st !! i = Some c ->
        get_char_by_id st (character_id c) = Some i).
Proof.
  unfold get_char_by_id. split; [|split].
  - intros i. split.
    + intros H. apply fmap_Some in H as ([i' c] & Hfind & ->).
      apply list_find_Some in Hfind as (Hic & Hid & Hfirst).
      split; [by exists c | done].
    + intros [(c & Hic & Hid) Hfirst].
      assert (Hfind : list_find (fun c => character_id c = cid) (combat_queue st)
                      = Some (i, c)) by by apply list_find_Some.
      by rewrite Hfind.
  - rewrite fmap_None, list_find_None, Forall_forall. done.
  - intros Hdup i c Hic.
    assert (Hfind : list_find (fun c' => character_id c' = character_id c)
                      (combat_queue st) = Some (i, c)).
    { apply list_find_Some. split; [done|]. split; [done|].
      intros j c' Hjc Hlt Heq.
      assert (j = i); [|lia].
      eapply NoDup_lookup; [exact Hdup | |];
        rewrite list_lookup_fmap; [rewrite Hjc | rewrite Hic]; simpl;
        [by rewrite Heq | done]. }
    by rewrite Hfind.
Qed.

Lemma existsb_group_member st (agent_id : string) (g : list nat) :
  existsb
    (fun i => match combat_queue st !! i with
              | Some c => bool_decide (character_id c = agent_id)
              | None => false
              end) g = true
  <-> exists j c, j ∈ g /\ combat_queue st !! j = Some c
                  /\ character_id c = agent_id.
Proof.
  rewrite existsb_exists. split.
  - intros (j & Hj & Hc). apply list_elem_of_In in Hj.
    destruct (combat_queue st !! j) as [c|] eqn:Hjc; [|done].
    apply bool_decide_eq_true_1 in Hc. by exists j, c.
  - intros (j & c & Hj & Hjc & Hc). exists j.
    split; [by apply list_elem_of_In|]. rewrite Hjc.
    by apply bool_decide_eq_true_2.
Qed.

(** X6: [get_allies_and_enemies] always answers with the two groups, in
    one order or the other.  When ids are unique and the groups share no
    member, a member of either group finds itself among its allies and not
    among its enemies. *)
Theorem get_allies_and_enemies_takes_sides st i c :
  NoDup (character_id <$> combat_queue st) ->
  combat_queue st !! i = Some c ->
  (forall j, j ∈ group_1 st -> j ∉ group_2 st) ->
  i ∈ group_1 st \/ i ∈ group_2 st ->
  let sides := get_allies_and_enemies st (character_id c) in
  (i ∈ fst sides) /\ (i ∉ snd sides)
  /\ (sides = (group_1 st, group_2 st) \/ sides = (group_2 st, group_1 st)).
Proof.
  intros Hdup Hic Hdisjoint Hmember sides. subst sides.
  unfold get_allies_and_enemies.
  destruct (existsb _ (group_1 st)) eqn:Hex; simpl.
  - apply existsb_group_member in Hex as (j & c' & Hj & Hjc & Hid).
    assert (j = i) as ->.
    { eapply NoDup_lookup; [exact Hdup | |];
        rewrite list_lookup_fmap; [rewrite Hjc | rewrite Hic]; simpl;
        [by rewrite Hid | done]. }
    split; [done|]. split; [by apply Hdisjoint | by left].
  - assert (Hnot : i ∉ group_1 st).
    { intros Hi. apply not_true_iff_false in Hex. apply Hex.
      apply existsb_group_member. by exists i, c. }
    destruct Hmember as [|Hi]; [done|].
    split; [done|]. split; [done | by right].
Qed.

Lemma get_allies_and_enemies_takes_sides_witness :
  1 ∈ fst (get_allies_and_enemies Demo.duel "2").
Proof.
  destruct (get_allies_and_enemies_takes_sides Demo.duel 1 (Demo.hero "2" 10))
    as (Hsides & _ & _).
  - apply (bool_decide_unpack _). vm_compute. exact I.
  - reflexivity.
  - intros j Hj. apply list_elem_of_singleton in Hj as ->.
    apply (bool_decide_unpack _). vm_compute. exact I.
  - right. apply (bool_decide_unpack _). vm_compute. exact I.
  - exact Hsides.
Defined.

(** ** Snapshots *)

Lemma begin_turn_inv st st' :
  begin_turn st = Some st' ->
  exists who actions,
    combat_queue st !! current_index st = Some who
    /\ get_available_actions st = Some actions
    /\ st' = set_turn_state
               (Some {| agent := current_index st;
                        available_actions := actions;
                        allies := fst (get_allies_and_enemies st (character_id who));
                        enemies := snd (get_allies_and_enemies st (character_id who)) |})
               st.
Proof.
  unfold begin_turn.
  destruct (combat_queue st !! current_index st) as [who|]; [|done].
  destruct (get_allies_and_enemies st (character_id who)) as [al en] eqn:Hs.
  destruct (get_available_actions st) as [actions|]; [|done].
  intros [= <-]. exists who, actions. rewrite Hs. repeat split; reflexivity.
Qed.

Lemma get_available_actions_turn_state ts st :
  get_available_actions (set_turn_state ts st) = get_available_actions st.
Proof. reflexivity. Qed.

Lemma get_allies_and_enemies_turn_state ts st cid :
  get_allies_and_enemies (set_turn_state ts st) cid
  = get_allies_and_enemies st cid.
Proof. reflexivity. Qed.

(** Taking the snapshot again changes nothing. *)
Lemma begin_turn_idempotent st st' :
  begin_turn st = Some st' -> begin_turn st' = Some st'.
Proof.
  intros H. destruct (begin_turn_inv _ _ H) as (who & actions & Hwho & Hact & ->).
  clear H. unfold begin_turn.
  change (combat_queue (set_turn_state ?ts st)) with (combat_queue st).
  change (current_index (set_turn_state ?ts st)) with (current_index st).
  rewrite Hwho.
  rewrite get_available_actions_turn_state, get_allies_and_enemies_turn_state.
  rewrite Hact.
  destruct (get_allies_and_enemies st (character_id who)). reflexivity.
Qed.

Lemma begin_turn_fails_iff st :
  begin_turn st = None <-> length (combat_queue st) <= current_index st.
Proof.
  rewrite <- lookup_ge_None. unfold begin_turn, get_available_actions.
  destruct (combat_queue st !! current_index st) as [who|]; [|done].
  destruct (get_allies_and_enemies st (character_id who)).
  by destruct (existsb _ _).
Qed.

(** Where the loop of the generator yields. *)
Lemma turns_yields (E : Externals) fuel : forall st st',
  turns E fuel st = Yields st' ->
  exists s,
    begin_turn s = Some st'
    /\ kind <$> combat_queue st' !! current_index st' = Some Player
    /\ (s = st \/ _result s = None).
Proof.
  induction fuel as [|fuel IH]; intros st st'; [done|]. simpl.
  destruct (begin_turn st) as [st1|] eqn:Hbegin; [|done].
  destruct (kind <$> combat_queue st1 !! current_index st1)
    as [[strategy|]|] eqn:Hkind; [| |done].
  - destruct (resolve E fuel (run_strategy E strategy st1) st1)
      as [st2| | | |]; simpl; try done.
    destruct (_result st2) as [r|] eqn:Hr; [done|].
    intros Hy. destruct (IH _ _ Hy) as (s & Hs & Hk & Hres).
    exists s. split; [done|]. split; [done|]. right.
    by destruct Hres as [->|].
  - intros [= <-]. exists st. split; [done|]. split; [done | by left].
Qed.

(** X7: whenever a call of [next] yields, the participant at the pointer
    is externally driven, and the snapshot stored in the state is the one
    of that state: its agent is the pointer, its actions are the offered
    ones, its sides are those of the agent; taking it again changes
    nothing.  After a resumption no result is set at a yield. *)
Theorem yielded_snapshot_is_current (E : Externals) fuel decision g st' :
  next E fuel decision g = Yields st' ->
  kind <$> combat_queue st' !! current_index st' = Some Player
  /\ begin_turn st' = Some st'
  /\ (exists ts who,
        turn_state st' = Some ts
        /\ combat_queue st' !! current_index st' = Some who
        /\ agent ts = current_index st'
        /\ get_available_actions st' = Some (available_actions ts)
        /\ (allies ts, enemies ts)
           = get_allies_and_enemies st' (character_id who))
  /\ (forall s, g = Suspended s -> _result st' = None).
Proof.
  intros Hnext.
  assert (exists st s,
            turns E fuel st = Yields st' /\ begin_turn s = Some st'
            /\ kind <$> combat_queue st' !! current_index st' = Some Player
            /\ (s = st \/ _result s = None)
            /\ (forall s0, g = Suspended s0 -> _result st = None))
    as (st & s & Hturns & Hs & Hk & Hres & Hsusp).
  { destruct g as [st|st|st]; simpl in Hnext; [| |done].
    - destruct (turns_yields E fuel st st' Hnext) as (s & Hs & Hk & Hres).
      exists st, s. by repeat split.
    - destruct (action decision) as [a|]; [|done].
      destruct (resolve E fuel decision st) as [st2| | | |]; simpl in Hnext;
        try done.
      destruct (_result st2) as [r|] eqn:Hr; [done|].
      destruct (turns_yields E fuel st2 st' Hnext) as (s & Hs & Hk & Hres).
      exists st2, s. by repeat split. }
  split; [done|]. split; [by eapply begin_turn_idempotent|].
  split.
  - destruct (begin_turn_inv _ _ Hs) as (who & actions & Hwho & Hact & ->).
    eexists _, who. split; [reflexivity|]. split; [exact Hwho|].
    split; [reflexivity|]. split; [exact Hact|].
    rewrite get_allies_and_enemies_turn_state. cbn [allies enemies].
    by destruct (get_allies_and_enemies s (character_id who)).
  - intros s0 Hg.
    assert (Hsr : _result s = None).
    { destruct Hres as [->|]; [by eapply Hsusp | done]. }
    destruct (begin_turn_inv _ _ Hs) as (who & actions & _ & _ & ->). done.
Qed.

Lemma yielded_snapshot_is_current_witness :
  exists st',
    next Demo.world 2 {| action := None; target := None |}
      (Fresh Demo.scarecrow_first) = Yields st'
    /\ begin_turn st' = Some st'.
Proof.
  destruct (next Demo.world 2 {| action := None; target := None |}
              (Fresh Demo.scarecrow_first)) as [st'|r st'|st'|st'| | |] eqn:Hnext;
    try (vm_compute in Hnext; discriminate).
  exists st'. split; [done|].
  by apply (yielded_snapshot_is_current Demo.world _ _ _ _ Hnext).
Defined.

(** X8: a decision of an externally driven participant that names an
    action other than of type [NULL] and no target is not resolved: [act]
    is not called, nothing changes, and the same snapshot is yielded
    again. *)
Theorem malformed_decision_reprompts (E : Externals) fuel st0 st decision a :
  begin_turn st0 = Some st ->
  kind <$> combat_queue st !! current_index st = Some Player ->
  _result st = None ->
  action decision = Some a ->
  action_type a <> NULL ->
  target decision = None ->
  next E (S fuel) decision (Suspended st) = Yields st.
Proof.
  intros Hbegin Hkind Hnone Ha Htype Htarget. simpl.
  unfold resolve. rewrite Ha, Htarget.
  rewrite bool_decide_eq_false_2 by done.
  rewrite bool_decide_eq_false_2 by (by intros [? ?]).
  simpl. rewrite Hnone, (begin_turn_idempotent _ _ Hbegin). by rewrite Hkind.
Qed.

Lemma malformed_decision_reprompts_witness :
  next Demo.world 1 Cases.aimless (Suspended Demo.duel) = Yields Demo.duel.
Proof.
  apply (malformed_decision_reprompts Demo.world 0
           (new_combat [Demo.hero "1" 10; Demo.hero "2" 10] [0] [1])
           Demo.duel Cases.aimless Demo.strike);
    try reflexivity.
  discriminate.
Defined.

(** X9: an autonomous participant whose strategy gives no action, or an
    action other than of type [NULL] without a target, is asked again in
    the same state, so the loop of the generator never yields nor
    returns. *)
Theorem strategy_without_decision_stalls (E : Externals) st0 st strategy :
  begin_turn st0 = Some st ->
  kind <$> combat_queue st !! current_index st = Some (NPC strategy) ->
  _result st = None ->
  (action (run_strategy E strategy st) = None
   \/ exists a,
        action (run_strategy E strategy st) = Some a
        /\ action_type a <> NULL
        /\ target (run_strategy E strategy st) = None) ->
  forall fuel decision,
    turns E fuel st = Unfinished
    /\ next E fuel decision (Fresh st0) = Unfinished.
Proof.
  intros Hbegin Hkind Hnone Hbad.
  assert (Hres : forall fuel,
            resolve E fuel (run_strategy E strategy st) st = Normal st).
  { intros fuel. unfold resolve. destruct Hbad as [->|(a & -> & Htype & ->)];
      [done|].
    rewrite bool_decide_eq_false_2 by done.
    by rewrite bool_decide_eq_false_2 by (by intros [? ?]). }
  assert (Hloop : forall fuel, turns E fuel st = Unfinished).
  { induction fuel as [|fuel IH]; [done|]. simpl.
    rewrite (begin_turn_idempotent _ _ Hbegin), Hkind, Hres. simpl.
    by rewrite Hnone. }
  intros fuel decision. split; [done|].
  destruct fuel as [|fuel]; [done|]. simpl.
  rewrite Hbegin, Hkind, Hres. simpl. by rewrite Hnone.
Qed.

Lemma strategy_without_decision_stalls_witness :
  next Demo.world 7 {| action := None; target := None |}
    (Fresh Cases.standoff) = Unfinished.
Proof.
  by apply (strategy_without_decision_stalls Demo.world Cases.standoff
              (default Cases.standoff (begin_turn Cases.standoff)) 0);
    [reflexivity | reflexivity | reflexivity | left; reflexivity].
Defined.

(** ** Every method is a sequence of steps *)

Section Runs.

Context (E : Externals).

Lemma engine_run_trans st1 st2 st3 :
  engine_run E st1 st2 -> engine_run E st2 st3 -> engine_run E st1 st3.
Proof.
  intros H12 H23. induction H23 as [|st2 st3 st4 _ IH Hstep]; [done|].
  eapply run_step; [by apply IH | done].
Qed.

Lemma engine_run_one st st' : engine_step E st st' -> engine_run E st st'.
Proof. intros H. eapply run_step; [apply run_done | done]. Qed.

Lemma engine_run_invariant (P : Combat -> Prop) st st' :
  (forall s s', engine_step E s s' -> P s -> P s') ->
  engine_run E st st' -> P st -> P st'.
Proof. intros Hstep Hrun Hst. induction Hrun; eauto. Qed.

Lemma engine_run_reachable st st' :
  engine_run E st st' -> reachable E st -> reachable E st'.
Proof.
  apply engine_run_invariant. intros s s' Hstep Hs.
  by eapply reachable_step.
Qed.

Lemma exec_cmds_run cs st : engine_run E st (exec_cmds cs st).
Proof.
  unfold exec_cmds. revert st.
  induction cs as [|c cs IH]; intros st; simpl; [apply run_done|].
  eapply engine_run_trans; [|apply IH]. apply engine_run_one. constructor.
Qed.

Lemma move_combat_queue_run fuel : forall st st',
  move_combat_queue E fuel st = Normal st' -> engine_run E st st'.
Proof.
  induction fuel as [|fuel IH]; intros st st'; [done|].
  rewrite move_combat_queue_unfold.
  assert (Hnext : engine_run E st (advance_once E st))
    by (apply engine_run_one; constructor).
  destruct (can_attack _) as [[]|]; [by intros [= <-] | | done].
  intros H. eapply engine_run_trans; [done | by apply IH].
Qed.

Lemma run_action_run action target st :
  engine_run E st (snd (run_action E action target st)).
Proof.
  unfold run_action. destruct (execute action) as [|f]; [apply run_done|].
  destruct (run_execute E f target st) as [r cs]. apply exec_cmds_run.
Qed.

Lemma act_run fuel action target st st' :
  outcome_state (act E fuel action target st) = Some st' ->
  engine_run E st st'.
Proof.
  unfold act.
  destruct (turn_state st) as [ts|]; [|done].
  destruct (negb _); [intros [= <-]; apply run_done|].
  pose proof (run_action_run action target st) as Hexec.
  destruct (run_action E action target st) as [r st1].
  destruct (report_throws st1 r target); [done|].
  simpl in Hexec. destruct (consumes_turn r).
  - destruct (move_combat_queue E fuel st1) as [st2| | | |] eqn:Hm; simpl;
      [|by apply move_combat_queue_not_unavailable in Hm | done | done | done].
    intros [= <-]. eapply run_step; [|apply step_check_finish].
    eapply engine_run_trans; [done | by eapply move_combat_queue_run].
  - simpl. intros [= <-]. eapply run_step; [done | constructor].
Qed.

Lemma resolve_run fuel decision st st' :
  outcome_state (resolve E fuel decision st) = Some st' ->
  engine_run E st st'.
Proof.
  unfold resolve.
  destruct (action decision) as [a|]; [|intros [= <-]; apply run_done].
  destruct (_ || _); [by apply act_run | intros [= <-]; apply run_done].
Qed.

Lemma loop_test_run (continue : Combat -> Resumption) o st st' :
  (forall s, outcome_state o = Some s -> engine_run E st s) ->
  (forall s s', resumption_state (continue s) = Some s' -> engine_run E s s') ->
  resumption_state (loop_test continue o) = Some st' ->
  engine_run E st st'.
Proof.
  intros Ho Hk. destruct o as [s| s | | |]; simpl; try done.
  - destruct (_result s) as [r|].
    + intros [= <-]. by apply Ho.
    + intros H. eapply engine_run_trans; [by apply Ho | by apply Hk].
  - intros [= <-]. by apply Ho.
Qed.

Lemma turns_run fuel : forall st st',
  resumption_state (turns E fuel st) = Some st' -> engine_run E st st'.
Proof.
  induction fuel as [|fuel IH]; intros st st'; [done|]. simpl.
  destruct (begin_turn st) as [st1|] eqn:Hbegin; [|done].
  assert (H1 : engine_run E st st1)
    by (apply engine_run_one; by constructor).
  destruct (kind <$> _) as [[strategy|]|]; [|by intros [= <-] | done].
  apply loop_test_run; [|apply IH].
  intros s Hs. eapply engine_run_trans; [done | by eapply resolve_run].
Qed.

(** What a call of [next] does to the engine is a sequence of steps. *)
Lemma next_run fuel decision g st' :
  resumption_state (next E fuel decision g) = Some st' ->
  engine_run E (generator_state g) st'.
Proof.
  destruct g as [st|st|st]; simpl.
  - apply turns_run.
  - destruct (action decision) as [a|]; [|done].
    apply loop_test_run; [|apply turns_run].
    intros s. apply resolve_run.
  - intros [= <-]. apply run_done.
Qed.

(** *** The participants *)

Lemma alter_stat_sheets (f : Character -> Character) i (q : list Character) :
  (forall c, sheet (f c) = sheet c) ->
  sheet <$> alter f i q = sheet <$> q.
Proof.
  intros Hf. revert i. induction q as [|c q IH]; intros [|i]; simpl; try done.
  - by rewrite Hf.
  - f_equal. apply IH.
Qed.

Lemma same_roster_refl st : same_roster st st.
Proof. by split. Qed.

Lemma same_roster_trans st1 st2 st3 :
  same_roster st1 st2 -> same_roster st2 st3 -> same_roster st1 st3.
Proof. intros [] []. split; congruence. Qed.

Lemma same_queue_roster st st' :
  combat_queue st' = combat_queue st -> same_frame st st' ->
  same_roster st st'.
Proof. intros Hq []. split; [by rewrite Hq | done | done]. Qed.

Lemma exec_cmd_roster st c : same_roster st (exec_cmd st c).
Proof.
  destruct c; simpl.
  - split; simpl; try done. by apply alter_stat_sheets.
  - split; simpl; try done. by apply alter_stat_sheets.
  - apply same_queue_roster; [apply apply_effect_queue | apply apply_effect_frame].
  - apply same_queue_roster; [apply remove_effect_queue | apply remove_effect_frame].
Qed.

Lemma exec_cmds_roster cs st : same_roster st (exec_cmds cs st).
Proof.
  unfold exec_cmds. revert st.
  induction cs as [|c cs IH]; intros st; simpl.
  - apply same_roster_refl.
  - eapply same_roster_trans; [apply exec_cmd_roster | apply IH].
Qed.

Lemma tick_effect_roster st a : same_roster st (tick_effect E st a).
Proof.
  unfold tick_effect.
  destruct (objects st !! a) as [effect|]; [|apply same_roster_refl].
  set (st1 := match turn_action (fields effect) with
              | Some f => _ | None => st end).
  assert (H1 : same_roster st st1).
  { subst st1. destruct (turn_action (fields effect)) as [f|];
      [|apply same_roster_refl].
    destruct (_ || _); [|apply same_roster_refl].
    eapply same_roster_trans; [|apply exec_cmds_roster]. by split. }
  set (st2 := set_objects _ st1).
  assert (H2 : same_roster st st2).
  { eapply same_roster_trans; [apply H1|]. by split. }
  destruct (objects st2 !! a) as [effect'|]; [|done].
  destruct (action_after_end (fields effect')) as [g|]; [|done].
  destruct (num_is_zero _); [|done].
  eapply same_roster_trans; [apply H2|].
  eapply same_roster_trans; [|apply exec_cmds_roster]. by split.
Qed.

Lemma update_active_effects_roster st :
  same_roster st (update_active_effects E st).
Proof.
  unfold update_active_effects.
  assert (H : forall l s, same_roster s (foldl (tick_effect E) s l)).
  { induction l as [|a l IH]; intros s; simpl; [apply same_roster_refl|].
    eapply same_roster_trans; [apply tick_effect_roster | apply IH]. }
  eapply same_roster_trans; [apply H|]. by split.
Qed.

Lemma engine_step_roster st st' :
  engine_step E st st' -> same_roster st st'.
Proof.
  intros [s c|s|s|s|s s' Hbegin].
  - apply exec_cmd_roster.
  - apply update_active_effects_roster.
  - unfold advance_once.
    eapply same_roster_trans; [apply update_active_effects_roster|]. by split.
  - unfold check_finish. by repeat destruct (_ <=? _)%Z.
  - destruct (begin_turn_inv _ _ Hbegin) as (who & actions & _ & _ & ->).
    by split.
Qed.

End Runs.

(** X10: through a call of [next], whatever it runs, the queue holds the
    same characters at the same positions, up to their hit points and
    mana, and the two groups are unchanged: the engine never adds, removes
    or reorders a participant, one that is down included.  (The closures
    of the application are taken to write hit points and mana only.) *)
Theorem next_keeps_the_roster (E : Externals) fuel decision g st' :
  resumption_state (next E fuel decision g) = Some st' ->
  same_roster (generator_state g) st'
  /\ length (combat_queue st') = length (combat_queue (generator_state g))
  /\ character_id <$> combat_queue st'
     = character_id <$> combat_queue (generator_state g)
  /\ kind <$> combat_queue st' = kind <$> combat_queue (generator_state g).
Proof.
  intros Hnext. apply next_run in Hnext.
  assert (Hroster : same_roster (generator_state g) st').
  { apply (engine_run_invariant E (same_roster (generator_state g))
             (generator_state g) st'); [|done | apply same_roster_refl].
    intros s s' Hstep Hs.
    eapply same_roster_trans; [done | by eapply engine_step_roster]. }
  split; [done|]. destruct Hroster as [Hsheets _ _].
  split; [|split].
  - apply (f_equal length) in Hsheets. by rewrite !length_fmap in Hsheets.
  - apply (f_equal (fmap character_id)) in Hsheets.
    by rewrite <- !list_fmap_compose in Hsheets.
  - apply (f_equal (fmap kind)) in Hsheets.
    by rewrite <- !list_fmap_compose in Hsheets.
Qed.

Lemma next_keeps_the_roster_witness :
  exists st',
    next Demo.world 3 {| action := Some Demo.ignite; target := Some 1 |}
      (Suspended Demo.duel) = Yields st'
    /\ same_roster Demo.duel st'.
Proof.
  destruct (next Demo.world 3
              {| action := Some Demo.ignite; target := Some 1 |}
              (Suspended Demo.duel)) as [st'|r st'|st'|st'| | |] eqn:Hnext;
    try (vm_compute in Hnext; discriminate).
  exists st'. split; [done|].
  apply (next_keeps_the_roster Demo.world 3
           {| action := Some Demo.ignite; target := Some 1 |}
           (Suspended Demo.duel) st').
  by rewrite Hnext.
Defined.

(** ** The pointer and the agent *)

Section Pointer.

Context (E : Externals).

Lemma engine_step_pointer st st' :
  engine_step E st st' -> pointer_ok st -> pointer_ok st'.
Proof.
  unfold pointer_ok. intros [s c|s|s|s|s s' Hbegin] Hs.
  - destruct (exec_cmd_frame s c) as [_ -> _ _ _ -> _ _]. done.
  - destruct (update_active_effects_frame E s) as [_ -> _ _ _ -> _ _]. done.
  - rewrite advance_once_length, advance_once_index.
    apply Nat.mod_upper_bound. lia.
  - destruct (check_finish_frame s) as (-> & -> & _). done.
  - destruct (begin_turn_inv _ _ Hbegin) as (who & actions & _ & _ & ->).
    done.
Qed.

Lemma engine_run_pointer st st' :
  engine_run E st st' -> pointer_ok st -> pointer_ok st'.
Proof. apply engine_run_invariant, engine_step_pointer. Qed.

Lemma reachable_pointer st :
  reachable E st -> combat_queue st <> [] -> pointer_ok st.
Proof.
  induction 1 as [queue g1 g2|st st' Hst IH Hstep]; intros Hq.
  - unfold pointer_ok. simpl. destruct queue; [done | simpl; lia].
  - eapply engine_step_pointer; [done|]. apply IH. intros Hnil.
    apply Hq. apply engine_step_roster in Hstep as [Hsheets _ _].
    rewrite Hnil in Hsheets. by apply fmap_nil_inv in Hsheets.
Qed.

Lemma pointer_begin_turn st : pointer_ok st -> is_Some (begin_turn st).
Proof.
  intros Hp. destruct (begin_turn st) eqn:Hb; [done|].
  apply begin_turn_fails_iff in Hb. unfold pointer_ok in Hp. lia.
Qed.

Lemma pointer_move_combat_queue fuel : forall st,
  pointer_ok st -> move_combat_queue E fuel st <> TypeError.
Proof.
  induction fuel as [|fuel IH]; intros st Hp; [done|].
  rewrite move_combat_queue_unfold.
  assert (Hnext : pointer_ok (advance_once E st))
    by (eapply engine_step_pointer; [constructor | done]).
  rewrite can_attack_hp by done.
  destruct (bool_decide _); [done | by apply IH].
Qed.

Lemma pointer_act fuel action target st :
  pointer_ok st -> is_Some (turn_state st) ->
  act E fuel action target st <> TypeError.
Proof.
  intros Hp [ts Hts]. unfold act. rewrite Hts.
  destruct (negb _); [done|].
  pose proof (run_action_run E action target st) as Hexec.
  destruct (run_action E action target st) as [r st1]. simpl in Hexec.
  destruct (report_throws st1 r target); [done|].
  apply engine_run_pointer in Hexec; [|done].
  destruct (consumes_turn r); [|done].
  pose proof (pointer_move_combat_queue fuel st1 Hexec) as Hm.
  by destruct (move_combat_queue E fuel st1).
Qed.

Lemma pointer_resolve fuel decision st :
  pointer_ok st -> is_Some (turn_state st) ->
  resolve E fuel decision st <> TypeError.
Proof.
  intros Hp Hts. unfold resolve.
  destruct (action decision) as [a|]; [|done].
  destruct (_ || _); [by apply pointer_act | done].
Qed.

Lemma pointer_turns fuel : forall st,
  pointer_ok st -> turns E fuel st <> ThrowsTypeError.
Proof.
  induction fuel as [|fuel IH]; intros st Hp; [done|]. simpl.
  destruct (pointer_begin_turn st Hp) as [st1 Hbegin]. rewrite Hbegin.
  assert (Hp1 : pointer_ok st1)
    by (eapply engine_step_pointer; [by constructor | done]).
  assert (Hts : is_Some (turn_state st1)).
  { destruct (begin_turn_inv _ _ Hbegin) as (who & actions & _ & _ & ->).
    done. }
  destruct (lookup_lt_is_Some_2 _ _ Hp1) as [who Hwho]. rewrite Hwho. simpl.
  destruct (kind who) as [strategy|]; [|done].
  pose proof (pointer_resolve fuel (run_strategy E strategy st1) st1 Hp1 Hts)
    as Hres.
  destruct (resolve E fuel (run_strategy E strategy st1) st1)
    as [st2| | | |] eqn:Hr; simpl; try done.
  destruct (_result st2); [done|]. apply IH.
  eapply engine_run_pointer; [|exact Hp1].
  eapply resolve_run. by rewrite Hr.
Qed.

End Pointer.

(** X11: in every state that the engine passes through from a combat
    constructed with at least one participant, the pointer names a
    participant of the queue; so the snapshot of the turn can be taken,
    and neither the scheduler nor the loop of the generator ever reads an
    agent that is [undefined].  A combat without participants throws on
    the first call of [next]. *)
Theorem pointer_stays_in_the_queue (E : Externals) (st : Combat) :
  reachable E st ->
  (combat_queue st <> [] ->
     current_index st < length (combat_queue st)
     /\ is_Some (begin_turn st)
     /\ (forall fuel, move_combat_queue E fuel st <> TypeError)
     /\ (forall fuel, turns E fuel st <> ThrowsTypeError))
  /\ (combat_queue st = [] ->
      begin_turn st = None
      /\ forall fuel decision,
           next E (S fuel) decision (Fresh st) = ThrowsTypeError).
Proof.
  intros Hst. split.
  - intros Hq. pose proof (reachable_pointer E st Hst Hq) as Hp.
    split; [done|]. split; [by apply pointer_begin_turn|].
    split; intros fuel;
      [by apply pointer_move_combat_queue | by apply pointer_turns].
  - intros Hq.
    assert (Hb : begin_turn st = None).
    { apply begin_turn_fails_iff. rewrite Hq. simpl. lia. }
    split; [done|]. intros fuel decision. simpl. by rewrite Hb.
Qed.

Lemma pointer_stays_in_the_queue_witness :
  is_Some (begin_turn Demo.kindled)
  /\ next Demo.world 1 Cases.aimless (Fresh (new_combat [] [] []))
     = ThrowsTypeError.
Proof.
  split.
  - assert (Hr : reachable Demo.world Demo.kindled).
    { eapply (reachable_step Demo.world _ _ (reachable_new _ _ _ _ true)).
      apply (step_cmd Demo.world
               (new_combat [Demo.hero "1" 10; Demo.hero "2" 10] [0] [1])
               (ApplyEffect (Demo.burning 3 2 (Some 3)) "2")). }
    destruct (pointer_stays_in_the_queue Demo.world Demo.kindled Hr)
      as [Hin _].
    by destruct Hin as (_ & Hb & _).
  - destruct (pointer_stays_in_the_queue Demo.world (new_combat [] [] [])
                (reachable_new _ _ _ _ true)) as [_ Hout].
    destruct (Hout eq_refl) as [_ Hnext]. apply Hnext.
Defined.

(** ** What a tick leaves in the ledger *)

Lemma update_active_effects_live (E : Externals) st :
  Forall (still_active (update_active_effects E st))
    (active_effects (update_active_effects E st)).
Proof.
  unfold update_active_effects.
  set (st1 := foldl (tick_effect E) st (active_effects st)).
  apply Forall_forall. intros a Ha.
  change (a ∈ filter (still_active st1) (active_effects st1)) in Ha.
  apply list_elem_of_filter in Ha as [Ha _]. exact Ha.
Qed.

Lemma move_combat_queue_live (E : Externals) fuel : forall st st',
  move_combat_queue E fuel st = Normal st' ->
  Forall (still_active st') (active_effects st').
Proof.
  induction fuel as [|fuel IH]; intros st st'; [done|].
  rewrite move_combat_queue_unfold.
  destruct (can_attack _) as [[]|]; [|by apply IH | done].
  intros [= <-]. apply (update_active_effects_live E st).
Qed.

(** X12: after a tick every record of the ledger has a positive number of
    turns left (a record whose count is zero, negative or not a number is
    dropped), whatever the closures did; the same holds when the scheduler
    returns, and after an action that consumed the turn. *)
Theorem scheduler_leaves_only_live_effects (E : Externals) (st : Combat) :
  let live st' :=
    forall a, a ∈ active_effects st' ->
      exists ae, objects st' !! a = Some ae
                 /\ num_positive (remaining_turns ae) = true in
  live (update_active_effects E st)
  /\ (forall fuel st', move_combat_queue E fuel st = Normal st' -> live st')
  /\ (forall fuel action target st',
        act E fuel action target st = Normal st' ->
        consumes_turn (fst (run_action E action target st)) = true ->
        live st').
Proof.
  assert (Hlive : forall s,
            Forall (still_active s) (active_effects s) ->
            forall a, a ∈ active_effects s ->
              exists ae, objects s !! a = Some ae
                         /\ num_positive (remaining_turns ae) = true).
  { intros s Hs a Ha. rewrite Forall_forall in Hs. specialize (Hs a Ha).
    unfold still_active in Hs. destruct (objects s !! a) as [ae|]; [|done].
    by exists ae. }
  intros live. subst live. cbv beta. split; [|split].
  - apply Hlive, update_active_effects_live.
  - intros fuel st' Hm. by eapply Hlive, move_combat_queue_live.
  - intros fuel action target st'. unfold act.
    destruct (turn_state st) as [ts|]; [|done].
    destruct (negb _); [done|].
    destruct (run_action E action target st) as [r st1]. simpl.
    destruct (report_throws st1 r target); [done|].
    intros Hact Hr. rewrite Hr in Hact.
    destruct (move_combat_queue E fuel st1) as [st2| | | |] eqn:Hm; try done.
    injection Hact as <-. apply Hlive.
    destruct (check_finish_frame st2) as (_ & _ & Hobj & Hact & _).
    rewrite Hact. unfold still_active. rewrite Hobj.
    by eapply move_combat_queue_live.
Qed.

(** ** An agent that cannot act *)

Lemma blocked_get_available_actions st who :
  combat_queue st !! current_index st = Some who ->
  agent_blocked st who ->
  get_available_actions st = Some [null_action].
Proof.
  intros Hwho (a & eff & Ha & Heff & Hid & Hblocks).
  unfold get_available_actions. rewrite Hwho.
  assert (Hex : existsb (blocks_agent st (character_id who))
                  (active_effects st) = true).
  { apply existsb_exists. exists a. split; [by apply list_elem_of_In|].
    unfold blocks_agent. rewrite Heff, Hblocks.
    by rewrite bool_decide_eq_true_2. }
  by rewrite Hex.
Qed.

(** X13: at the turn of an agent that an effect of the ledger blocks, the
    snapshot offers the synthetic action alone; [act] throws
    [ActionNotAvailable] for exactly the actions that are neither named
    [NULL] nor children of it, and leaves the state as it is; passing
    with the synthetic action changes nothing by itself and hands the turn
    to the scheduler, then checks for the end. *)
Theorem blocked_agent_can_only_pass (E : Externals) st0 st who :
  begin_turn st0 = Some st ->
  combat_queue st !! current_index st = Some who ->
  agent_blocked st who ->
  (available_actions <$> turn_state st) = Some [null_action]
  /\ (forall fuel action target,
        act E fuel action target st = ActionNotAvailable st
        <-> action_id action <> "NULL"
            /\ parent_action_id action <> Some "NULL")
  /\ (forall fuel target,
        act E fuel null_action target st
        = match move_combat_queue E fuel st with
          | Normal st2 => Normal (check_finish st2)
          | other => other
          end).
Proof.
  intros Hbegin Hwho Hblocked.
  destruct (begin_turn_inv _ _ Hbegin) as (who0 & actions & Hwho0 & Hact & Hst).
  assert (Hactions : actions = [null_action]).
  { rewrite Hst in Hwho, Hblocked.
    pose proof (blocked_get_available_actions st0 who Hwho Hblocked) as Hb.
    congruence. }
  subst actions.
  assert (Hts : exists ts,
            turn_state st = Some ts /\ available_actions ts = [null_action]).
  { rewrite Hst. by eexists. }
  destruct Hts as (ts & Hts & Hav). clear Hst.
  split; [by rewrite Hts; simpl; rewrite Hav|].
  split.
  - intros fuel action target.
    destruct (existsb (offers action) (available_actions ts)) eqn:Hoff.
    + rewrite (act_unfold E fuel action target st ts Hts Hoff).
      rewrite Hav in Hoff. simpl in Hoff. rewrite orb_false_r in Hoff.
      split.
      * intros Hthrow. exfalso.
        destruct (report_throws _ _ _); [done|].
        destruct (consumes_turn _); [|done].
        destruct (move_combat_queue E fuel _) as [s| s | | |] eqn:Hm; try done.
        by apply move_combat_queue_not_unavailable in Hm.
      * intros [Hid Hparent]. exfalso. unfold offers in Hoff. simpl in Hoff.
        apply orb_true_iff in Hoff as [H|H]; apply bool_decide_eq_true in H;
          congruence.
    + unfold act. rewrite Hts, Hoff. simpl. split; [|done]. intros _.
      rewrite Hav in Hoff. simpl in Hoff. rewrite orb_false_r in Hoff.
      unfold offers in Hoff. simpl in Hoff.
      apply orb_false_iff in Hoff as [H1 H2].
      apply bool_decide_eq_false in H1, H2. split; congruence.
  - intros fuel target.
    rewrite (act_unfold E fuel null_action target st ts Hts);
      [|by rewrite Hav].
    by rewrite report_throws_not_number.
Qed.

Lemma blocked_agent_can_only_pass_witness :
  act Demo.world 0 Demo.strike (Some 1) Cases.dazed
  = ActionNotAvailable Cases.dazed.
Proof.
  destruct (blocked_agent_can_only_pass Demo.world
              (apply_effect Demo.staggered "1"
                 (new_combat [Demo.hero "1" 10; Demo.hero "2" 10] [0] [1]))
              Cases.dazed (Demo.hero "1" 10))
    as (_ & Hthrow & _).
  - reflexivity.
  - reflexivity.
  - exists 0, {| char_id := "1"; remaining_turns := Fin 2;
                 fields := Demo.staggered |}.
    split; [apply (bool_decide_unpack _); vm_compute; exact I|].
    split; [reflexivity|]. split; reflexivity.
  - apply Hthrow. split; discriminate.
Defined.

(** ** What [apply_effect] leaves alone *)

Lemma merge_or_push_calls e t st : calls (merge_or_push e t st) = calls st.
Proof. unfold merge_or_push. by destruct (list_find _ _) as [[i a]|]. Qed.

Lemma interruption_scan_calls e t l : forall st,
  calls (foldl (interruption_step e t) st l) = calls st.
Proof.
  induction l as [|a l IH]; intros st; [done|]. simpl. rewrite IH.
  unfold interruption_step. destruct (objects st !! a) as [ae|]; [|done].
  destruct (blocks_component_of e ae); [apply remove_effect_calls | done].
Qed.

(** X14: applying an effect touches the ledger only: the characters (no
    damage is dealt before a tick), the pointer, the result, the snapshot
    and the groups are as before, and no closure is called; at most one
    record is allocated, none is freed, every record that existed keeps
    its kind and target, and the ledger gains at most the new record. *)
Theorem apply_effect_touches_only_the_ledger e t st :
  let st' := apply_effect e t st in
  combat_queue st' = combat_queue st
  /\ calls st' = calls st
  /\ _result st' = _result st
  /\ current_index st' = current_index st
  /\ turn_state st' = turn_state st
  /\ group_1 st' = group_1 st
  /\ group_2 st' = group_2 st
  /\ length (objects st) <= length (objects st') <= S (length (objects st))
  /\ (forall a, a < length (objects st) -> ledger_key st' a = ledger_key st a)
  /\ (forall a, a ∈ active_effects st' ->
        a ∈ active_effects st \/ a = length (objects st)).
Proof.
  intros st'. subst st'.
  destruct (apply_effect_frame e t st) as [Hres Hidx Hg1 Hg2 Hts _ _ _].
  split; [apply apply_effect_queue|].
  split.
  { unfold apply_effect. by rewrite interruption_scan_calls, merge_or_push_calls. }
  do 5 (split; [done|]).
  assert (Hsub : sublist (active_effects (apply_effect e t st))
                   (active_effects (merge_or_push e t st)))
    by apply interruption_scan_sublist.
  unfold ledger_key. rewrite apply_effect_objects.
  revert Hsub. unfold merge_or_push.
  destruct (list_find _ _) as [[i b]|]; simpl; intros Hsub.
  - rewrite length_alter. split; [lia|]. split.
    + intros a Ha. destruct (decide (a = b)) as [->|Hne].
      * rewrite list_lookup_alter_eq.
        destruct (objects st !! b) as [ae|]; [|done]. cbn -[merge_effect].
        by destruct (merge_effect_key e (length (combat_queue st)) ae)
          as [-> ->].
      * by rewrite list_lookup_alter_ne.
    + intros a Ha. left. by eapply elem_of_sublist.
  - rewrite length_app. simpl. split; [lia|]. split.
    + intros a Ha. by rewrite lookup_app_l.
    + intros a Ha. eapply elem_of_sublist in Ha; [|apply Hsub].
      apply elem_of_app in Ha as [Ha|Ha]; [by left|].
      right. by apply list_elem_of_singleton in Ha.
Qed.

(** ** The life of an effect *)

Section Lifetime.

Context (E : Externals).

(** One tick of a ledger whose closures only write statistics. *)
Lemma update_active_effects_quiet st :
  ledger_ok st -> quiet_ledger E st ->
  let st' := update_active_effects E st in
  (forall b,
     objects st' !! b
     = if decide (b ∈ active_effects st)
       then decrement_turns <$> objects st !! b
       else objects st !! b)
  /\ active_effects st' = filter (still_active st') (active_effects st)
  /\ calls st'
     = calls st
       ++ mjoin ((fun a =>
                    from_option (calls_of_tick (length (combat_queue st)) a) []
                      (objects st !! a)) <$> active_effects st)
  /\ length (combat_queue st') = length (combat_queue st)
  /\ ledger_ok st'
  /\ quiet_ledger E st'.
Proof.
  intros Hok Hquiet st'.
  pose proof Hok as [_ Hkeys]. apply NoDup_fmap_1 in Hkeys.
  destruct (tick_all_quiet E (active_effects st) st Hkeys Hquiet)
    as (Ho & Hact & Hcalls).
  assert (Hobj : forall b,
            objects st' !! b
            = if decide (b ∈ active_effects st)
              then decrement_turns <$> objects st !! b
              else objects st !! b).
  { intros b. subst st'. unfold update_active_effects. simpl. apply Ho. }
  assert (Hled : active_effects st'
                 = filter (still_active st') (active_effects st)).
  { subst st'. unfold update_active_effects. simpl. by rewrite Hact. }
  split; [done|]. split; [done|]. split.
  { subst st'. unfold update_active_effects. simpl. apply Hcalls. }
  split; [apply update_active_effects_frame|].
  split; [by apply update_active_effects_ok|].
  intros a ae' Ha Hae'. rewrite Hled in Ha.
  apply list_elem_of_filter in Ha as [_ Ha].
  rewrite Hobj, decide_True in Hae' by done.
  destruct (objects st !! a) as [ae|] eqn:Hae; [|done].
  injection Hae' as <-. apply (Hquiet a ae Ha Hae).
Qed.

Lemma ticks_quiet k st :
  ledger_ok st -> quiet_ledger E st ->
  ledger_ok (Nat.iter k (update_active_effects E) st)
  /\ quiet_ledger E (Nat.iter k (update_active_effects E) st)
  /\ length (combat_queue (Nat.iter k (update_active_effects E) st))
     = length (combat_queue st).
Proof.
  intros Hok Hquiet. induction k as [|k (IH1 & IH2 & IH3)]; [done|].
  rewrite Nat.iter_succ.
  destruct (update_active_effects_quiet _ IH1 IH2)
    as (_ & _ & _ & Hlen & Hok' & Hquiet').
  split; [done|]. split; [done|]. by rewrite Hlen.
Qed.

Lemma call_address_of_tick n (os : list ActiveEffect) b c :
  c ∈ from_option (calls_of_tick n b) [] (os !! b) -> call_address c = b.
Proof.
  destruct (os !! b); simpl;
    [apply calls_of_tick_address | by intros ?%elem_of_nil].
Qed.

(** While the record at [a] has turns left, each tick takes one turn off
    it and makes the calls of [calls_of_tick] for it. *)
Lemma ticks_alive st a ae :
  ledger_ok st -> quiet_ledger E st ->
  a ∈ active_effects st ->
  objects st !! a = Some ae ->
  let n := length (combat_queue st) in
  let left j := Nat.iter j num_pred (remaining_turns ae) in
  forall k,
    (forall j, 1 <= j < k -> num_positive (left j) = true) ->
    let st' := Nat.iter k (update_active_effects E) st in
    objects st' !! a = Some (set_remaining_turns (left k) ae)
    /\ (a ∈ active_effects st' <-> k = 0 \/ num_positive (left k) = true)
    /\ filter (fun c => call_address c = a) (calls st')
       = filter (fun c => call_address c = a) (calls st)
         ++ mjoin ((fun j =>
                      calls_of_tick n a (set_remaining_turns (left j) ae))
                     <$> seq 0 k).
Proof.
  intros Hok Hquiet Ha Hae n left.
  induction k as [|k IH]; intros Halive st'.
  - subst st'. simpl. split; [by destruct ae|]. split; [by split; auto|].
    by rewrite app_nil_r.
  - destruct IH as (Hobj & Hin & Hcalls); [intros j Hj; apply Halive; lia|].
    subst st'. rewrite Nat.iter_succ.
    set (s := Nat.iter k (update_active_effects E) st) in *.
    destruct (ticks_quiet k st Hok Hquiet) as (Hoks & Hquiets & Hlen).
    fold s in Hoks, Hquiets, Hlen.
    assert (Has : a ∈ active_effects s).
    { apply Hin. destruct k as [|k]; [by left|].
      right. apply Halive. lia. }
    destruct (update_active_effects_quiet s Hoks Hquiets)
      as (Ho & Hled & Hc & _).
    assert (Hnew : objects (update_active_effects E s) !! a
                   = Some (set_remaining_turns (left (S k)) ae)).
    { rewrite Ho, decide_True, Hobj by done. done. }
    split; [done|]. split.
    + rewrite Hled, list_elem_of_filter. unfold still_active.
      rewrite Hnew. simpl. split; [intros [H _]; by right|].
      intros [H|H]; [done|]. by split.
    + rewrite Hc, filter_app, Hcalls, <- app_assoc. f_equal.
      rewrite seq_S, fmap_app, join_app. f_equal. simpl.
      rewrite app_nil_r.
      rewrite filter_address_join;
        [|intros b c; apply call_address_of_tick
         |destruct Hoks as [_ Hk]; by apply NoDup_fmap_1 in Hk].
      rewrite decide_True, Hobj by done. simpl. by rewrite Hlen.
Qed.

(** A record that is out of the ledger is never touched again. *)
Lemma ticks_gone st a :
  ledger_ok st -> quiet_ledger E st ->
  a ∉ active_effects st ->
  forall k,
    let st' := Nat.iter k (update_active_effects E) st in
    objects st' !! a = objects st !! a
    /\ (a ∉ active_effects st')
    /\ filter (fun c => call_address c = a) (calls st')
       = filter (fun c => call_address c = a) (calls st).
Proof.
  intros Hok Hquiet Ha. induction k as [|k (Hobj & Hout & Hcalls)]; [done|].
  cbv zeta. rewrite Nat.iter_succ.
  set (s := Nat.iter k (update_active_effects E) st) in *.
  destruct (ticks_quiet k st Hok Hquiet) as (Hoks & Hquiets & Hlen).
  fold s in Hoks, Hquiets, Hlen.
  destruct (update_active_effects_quiet s Hoks Hquiets)
    as (Ho & Hled & Hc & _).
  split; [by rewrite Ho, decide_False|]. split.
  - rewrite Hled, list_elem_of_filter. by intros [_ ?].
  - rewrite Hc, filter_app, Hcalls.
    rewrite filter_address_join;
      [|intros b c; apply call_address_of_tick
       |destruct Hoks as [_ Hk]; by apply NoDup_fmap_1 in Hk].
    by rewrite decide_False, app_nil_r.
Qed.

Lemma ticks_add k m st :
  Nat.iter (k + m) (update_active_effects E) st
  = Nat.iter m (update_active_effects E)
      (Nat.iter k (update_active_effects E) st).
Proof.
  rewrite Nat.add_comm. induction m as [|m IH]; [done|].
  by rewrite Nat.add_succ_l, !Nat.iter_succ, IH.
Qed.

End Lifetime.

Lemma iter_num_pred_fin j (r : Z) :
  (r <= max_safe)%Z -> (- max_safe <= r - Z.of_nat j)%Z ->
  Nat.iter j num_pred (Fin r) = Fin (r - Z.of_nat j).
Proof.
  intros Hr. induction j as [|j IH]; intros Hj; [simpl; f_equal; lia|].
  rewrite Nat.iter_succ, IH, num_pred_safe by lia. f_equal. lia.
Qed.

Lemma iter_num_pred_infinity j : Nat.iter j num_pred Infinity = Infinity.
Proof. induction j as [|j IH]; [done|]. by rewrite Nat.iter_succ, IH. Qed.

(** X15: the countdown of a record over any number of ticks, in a ledger
    whose closures only write statistics.  A record with [r > 0] turns
    left, [r] at most [2 ^ 53], loses one turn at each of the next [r]
    ticks and is then out of the ledger for good, frozen at zero; the
    calls made for it are those of its [r] ticks, in order, and none
    after. *)
Theorem effect_lifetime (E : Externals) st a ae (r : Z) :
  ledger_ok st ->
  quiet_ledger E st ->
  a ∈ active_effects st ->
  objects st !! a = Some ae ->
  remaining_turns ae = Fin r ->
  (0 < r <= max_safe)%Z ->
  let n := length (combat_queue st) in
  forall k,
    let st' := Nat.iter k (update_active_effects E) st in
    let lived := Nat.min k (Z.to_nat r) in
    objects st' !! a
    = Some (set_remaining_turns (Fin (r - Z.of_nat lived)) ae)
    /\ (a ∈ active_effects st' <-> (Z.of_nat k < r)%Z)
    /\ filter (fun c => call_address c = a) (calls st')
       = filter (fun c => call_address c = a) (calls st)
         ++ mjoin ((fun j =>
                      calls_of_tick n a
                        (set_remaining_turns (Fin (r - Z.of_nat j)) ae))
                     <$> seq 0 lived).
Proof.
  intros Hok Hquiet Ha Hae Hr [Hpos Hsafe] n k st' lived.
  assert (Hleft : forall j,
            j <= Z.to_nat r ->
            Nat.iter j num_pred (remaining_turns ae) = Fin (r - Z.of_nat j)).
  { intros j Hj. rewrite Hr. apply iter_num_pred_fin; [done|].
    unfold max_safe. lia. }
  assert (Halive : forall k0,
            k0 <= Z.to_nat r ->
            forall j, 1 <= j < k0 ->
              num_positive (Nat.iter j num_pred (remaining_turns ae)) = true).
  { intros k0 Hk0 j Hj. rewrite Hleft by lia. simpl.
    apply Z.ltb_lt. lia. }
  assert (Hmap : forall m,
            m <= Z.to_nat r ->
            (fun j => calls_of_tick n a
                        (set_remaining_turns
                           (Nat.iter j num_pred (remaining_turns ae)) ae))
              <$> seq 0 m
            = (fun j => calls_of_tick n a
                          (set_remaining_turns (Fin (r - Z.of_nat j)) ae))
                <$> seq 0 m).
  { intros m Hm. apply list_fmap_ext. intros i j Hij.
    apply lookup_seq in Hij as [-> Hi]. by rewrite Hleft by lia. }
  destruct (decide (k <= Z.to_nat r)) as [Hk|Hk].
  - destruct (ticks_alive E st a ae Hok Hquiet Ha Hae k (Halive k Hk))
      as (Hobj & Hin & Hcalls).
    subst lived st'. rewrite Nat.min_l by done.
    rewrite Hleft in Hobj, Hin by done. simpl in Hin.
    rewrite Z.ltb_lt in Hin. rewrite Hmap in Hcalls by done.
    split; [done|]. split; [|done]. rewrite Hin. lia.
  - set (R := Z.to_nat r) in *.
    destruct (ticks_alive E st a ae Hok Hquiet Ha Hae R (Halive R (le_n _)))
      as (Hobj & Hin & Hcalls).
    rewrite Hleft in Hobj, Hin by done. simpl in Hin.
    rewrite Z.ltb_lt in Hin. rewrite Hmap in Hcalls by done.
    assert (Hout : a ∉ active_effects (Nat.iter R (update_active_effects E) st)).
    { rewrite Hin. subst R. lia. }
    destruct (ticks_quiet E R st Hok Hquiet) as (HokR & HquietR & _).
    destruct (ticks_gone E _ a HokR HquietR Hout (k - R))
      as (Hobj' & Hout' & Hcalls').
    rewrite <- ticks_add in Hobj', Hout', Hcalls'.
    replace (R + (k - R)) with k in Hobj', Hout', Hcalls' by lia.
    subst lived st'. rewrite Nat.min_r by lia. fold R.
    split; [by rewrite Hobj'|]. split; [|by rewrite Hcalls'].
    split; [done|]. subst R. lia.
Qed.

Lemma effect_lifetime_witness :
  let tick := update_active_effects Demo.world in
  (0 ∈ active_effects (Nat.iter 3 tick Demo.kindled) <-> (3 < 4)%Z)
  /\ (0 ∈ active_effects (Nat.iter 4 tick Demo.kindled) <-> (4 < 4)%Z).
Proof.
  assert (Hok : ledger_ok Demo.kindled).
  { apply (reachable_ledger_ok Demo.world).
    eapply reachable_step; [apply reachable_new|].
    apply (step_cmd Demo.world _ (ApplyEffect _ _)). }
  assert (Hin : 0 ∈ active_effects Demo.kindled) by by left.
  assert (Hsafe : (0 < 4 <= max_safe)%Z) by (unfold max_safe; lia).
  split.
  - by destruct (effect_lifetime Demo.world Demo.kindled 0 _ 4 Hok
                   (quiet_world _) Hin eq_refl eq_refl Hsafe 3)
      as (_ & H & _).
  - by destruct (effect_lifetime Demo.world Demo.kindled 0 _ 4 Hok
                   (quiet_world _) Hin eq_refl eq_refl Hsafe 4)
      as (_ & H & _).
Defined.

(** X16: a record whose count of turns is [Infinity] never leaves a
    ledger whose closures only write statistics, and is never changed;
    its turn action, when it declares one, is called at every tick, and
    its closing action never. *)
Theorem infinite_effect_never_expires (E : Externals) st a ae :
  ledger_ok st ->
  quiet_ledger E st ->
  a ∈ active_effects st ->
  objects st !! a = Some ae ->
  remaining_turns ae = Infinity ->
  forall k,
    let st' := Nat.iter k (update_active_effects E) st in
    objects st' !! a = Some ae
    /\ a ∈ active_effects st'
    /\ filter (fun c => call_address c = a) (calls st')
       = filter (fun c => call_address c = a) (calls st)
         ++ match turn_action (fields ae) with
            | Some f => replicate k (TurnActionCall a f Infinity)
            | None => []
            end.
Proof.
  intros Hok Hquiet Ha Hae Hinf k st'.
  destruct (ticks_alive E st a ae Hok Hquiet Ha Hae k)
    as (Hobj & Hin & Hcalls).
  { intros j _. by rewrite Hinf, iter_num_pred_infinity. }
  rewrite Hinf, iter_num_pred_infinity in Hobj, Hin.
  subst st'. cbv zeta in Hobj, Hin, Hcalls.
  split; [by rewrite Hobj, <- Hinf; destruct ae|].
  split; [apply Hin; by right|].
  rewrite Hcalls. f_equal.
  clear Hcalls Hobj Hin. generalize 0 as start.
  induction k as [|k IH]; intros start; simpl.
  - by destruct (turn_action (fields ae)).
  - rewrite IH, Hinf, iter_num_pred_infinity.
    unfold calls_of_tick. simpl.
    destruct (turn_action (fields ae)) as [f|];
      destruct (action_after_end (fields ae)) as [g|]; simpl;
      by rewrite ?orb_true_r.
Qed.

Lemma infinite_effect_never_expires_witness :
  0 ∈ active_effects
        (Nat.iter 5 (update_active_effects Demo.world)
           (apply_effect (set_duration Infinity (Demo.burning 1 1 (Some 1)))
              "2" (new_combat [Demo.hero "1" 10; Demo.hero "2" 10] [0] [1]))).
Proof.
  set (st := apply_effect _ _ _).
  assert (Hok : ledger_ok st).
  { apply (reachable_ledger_ok Demo.world).
    eapply reachable_step; [apply reachable_new|].
    apply (step_cmd Demo.world _ (ApplyEffect _ _)). }
  assert (Hin : 0 ∈ active_effects st) by by left.
  by destruct (infinite_effect_never_expires Demo.world st 0 _ Hok
                 (quiet_world _) Hin eq_refl eq_refl 5) as (_ & H & _).
Defined.

(** *** Whole rounds *)

Lemma calls_of_tick_fin n a ae (x : Z) :
  1 <= n ->
  (- max_safe < x <= max_safe)%Z ->
  calls_of_tick n a (set_remaining_turns (Fin x) ae)
  = match turn_action (fields ae) with
    | Some f =>
        if (Z.rem x (Z.of_nat n) =? 0)%Z then [TurnActionCall a f (Fin x)]
        else []
    | None => []
    end
    ++ match action_after_end (fields ae) with
       | Some g => if (x =? 1)%Z then [ActionAfterEndCall a g] else []
       | None => []
       end.
Proof.
  intros Hn Hx. unfold calls_of_tick.
  cbn [remaining_turns set_remaining_turns fields].
  rewrite num_pred_safe by done.
  destruct n as [|n']; [lia|].
  cbn [round_boundary num_is_infinity num_is_zero].
  rewrite orb_false_r. f_equal.
  destruct (action_after_end (fields ae)) as [g|]; [|done].
  destruct (Z.eqb_spec (x - 1) 0), (Z.eqb_spec x 1); (done || lia).
Qed.

Lemma join_fmap_nil {A B} (F : A -> list B) (l : list A) :
  (forall j, j ∈ l -> F j = []) -> mjoin (F <$> l) = [].
Proof.
  induction l as [|j l IH]; intros H; [done|]. simpl.
  rewrite (H j) by left. apply IH. intros i Hi. apply H. by right.
Qed.

Lemma rem_inside_round (m n j : nat) :
  1 <= m -> 1 <= j < n ->
  (Z.rem (Z.of_nat m * Z.of_nat n - Z.of_nat j) (Z.of_nat n) =? 0)%Z = false.
Proof.
  intros Hm Hj. apply Z.eqb_neq. intros Hrem.
  apply Z.rem_divide in Hrem; [|lia].
  assert (Hdiv : (Z.of_nat n | Z.of_nat j)%Z).
  { replace (Z.of_nat j)
      with (Z.of_nat m * Z.of_nat n
            - (Z.of_nat m * Z.of_nat n - Z.of_nat j))%Z by lia.
    apply Z.divide_sub_r; [|done]. apply Z.divide_factor_r. }
  apply Z.divide_pos_le in Hdiv; lia.
Qed.

(** The calls of the [n] ticks of one round, the [m]-th from the end. *)
Lemma calls_of_round n a ae m :
  1 <= n -> 1 <= m ->
  (Z.of_nat m * Z.of_nat n <= max_safe)%Z ->
  mjoin ((fun j =>
            calls_of_tick n a
              (set_remaining_turns
                 (Fin (Z.of_nat m * Z.of_nat n - Z.of_nat j)) ae))
           <$> seq 0 n)
  = match turn_action (fields ae) with
    | Some f => [TurnActionCall a f (Fin (Z.of_nat m * Z.of_nat n))]
    | None => []
    end
    ++ match action_after_end (fields ae) with
       | Some g => if decide (m = 1) then [ActionAfterEndCall a g] else []
       | None => []
       end.
Proof.
  intros Hn Hm Hsafe.
  set (F := fun j => calls_of_tick n a _).
  assert (HF : forall j,
            j < n ->
            F j
            = match turn_action (fields ae) with
              | Some f =>
                  if (Z.rem (Z.of_nat m * Z.of_nat n - Z.of_nat j)
                        (Z.of_nat n) =? 0)%Z
                  then [TurnActionCall a f
                          (Fin (Z.of_nat m * Z.of_nat n - Z.of_nat j))]
                  else []
              | None => []
              end
              ++ match action_after_end (fields ae) with
                 | Some g =>
                     if (Z.of_nat m * Z.of_nat n - Z.of_nat j =? 1)%Z
                     then [ActionAfterEndCall a g] else []
                 | None => []
                 end).
  { intros j Hj. subst F. cbv beta. apply calls_of_tick_fin; [done|].
    unfold max_safe in *. nia. }
  assert (Hmid : forall j, 1 <= j < n ->
            F j
            = match action_after_end (fields ae) with
              | Some g =>
                  if (Z.of_nat m * Z.of_nat n - Z.of_nat j =? 1)%Z
                  then [ActionAfterEndCall a g] else []
              | None => []
              end).
  { intros j Hj. rewrite HF, rem_inside_round by (done || lia).
    by destruct (turn_action (fields ae)). }
  assert (H0 : F 0
               = match turn_action (fields ae) with
                 | Some f => [TurnActionCall a f (Fin (Z.of_nat m * Z.of_nat n))]
                 | None => []
                 end
                 ++ match action_after_end (fields ae) with
                    | Some g =>
                        if (Z.of_nat m * Z.of_nat n =? 1)%Z
                        then [ActionAfterEndCall a g] else []
                    | None => []
                    end).
  { rewrite HF by lia. simpl Z.of_nat.
    rewrite Z.sub_0_r, Z.rem_mul by lia. done. }
  clearbody F. destruct n as [|n']; [lia|].
  change (seq 0 (S n')) with (0 :: seq 1 n').
  rewrite fmap_cons. simpl mjoin. rewrite H0, <- app_assoc. f_equal.
  destruct n' as [|n''].
  - simpl. rewrite app_nil_r.
    destruct (action_after_end (fields ae)) as [g|]; [|done].
    destruct (Z.eqb_spec (Z.of_nat m * Z.of_nat 1) 1), (decide (m = 1));
      (done || lia).
  - assert (Hfirst :
              match action_after_end (fields ae) with
              | Some g =>
                  if (Z.of_nat m * Z.of_nat (S (S n'')) =? 1)%Z
                  then [ActionAfterEndCall a g] else []
              | None => []
              end = []).
    { destruct (action_after_end (fields ae)) as [g|]; [|done].
      destruct (Z.eqb_spec (Z.of_nat m * Z.of_nat (S (S n''))) 1);
        [nia | done]. }
    rewrite Hfirst, app_nil_l.
    rewrite seq_S, fmap_app, join_app.
    rewrite join_fmap_nil.
    + simpl. rewrite app_nil_r, Hmid by lia.
      destruct (action_after_end (fields ae)) as [g|]; [|done].
      destruct (decide (m = 1)) as [Hm1|Hm1];
        destruct (Z.eqb_spec
                    (Z.of_nat m * Z.of_nat (S (S n'')) - Z.of_nat (S n'')) 1)
          as [Heq|Hne]; try done;
        [subst m; change (Z.of_nat 1) with 1%Z in Hne; lia|].
      exfalso. assert (2 <= Z.of_nat m)%Z by lia. nia.
    + intros j Hj. apply elem_of_seq in Hj. rewrite Hmid by lia.
      destruct (action_after_end (fields ae)) as [g|]; [|done].
      destruct (Z.eqb_spec
                  (Z.of_nat m * Z.of_nat (S (S n'')) - Z.of_nat j) 1);
        [nia | done].
Qed.

Lemma calls_of_rounds n a ae m :
  1 <= n -> 1 <= m ->
  (Z.of_nat m * Z.of_nat n <= max_safe)%Z ->
  mjoin ((fun j =>
            calls_of_tick n a
              (set_remaining_turns
                 (Fin (Z.of_nat m * Z.of_nat n - Z.of_nat j)) ae))
           <$> seq 0 (m * n))
  = calls_of_life n a ae m.
Proof.
  intros Hn. induction m as [|m IH]; [lia|]. intros _ Hsafe.
  assert (Hsafe' : (Z.of_nat m * Z.of_nat n <= max_safe)%Z) by nia.
  change (S m * n) with (n + m * n).
  rewrite seq_app, fmap_app, join_app, calls_of_round by (done || lia).
  rewrite (Nat.add_comm 0 n), <- (fmap_add_seq n 0 (m * n)).
  rewrite <- list_fmap_compose.
  assert (Hshift :
            (fun j =>
               calls_of_tick n a
                 (set_remaining_turns
                    (Fin (Z.of_nat (S m) * Z.of_nat n - Z.of_nat j)) ae))
              ∘ Nat.add n <$> seq 0 (m * n)
            = (fun j =>
                 calls_of_tick n a
                   (set_remaining_turns
                      (Fin (Z.of_nat m * Z.of_nat n - Z.of_nat j)) ae))
                <$> seq 0 (m * n)).
  { apply list_fmap_ext. intros i j _. simpl. do 3 f_equal. lia. }
  rewrite Hshift. clear Hshift. unfold calls_of_life.
  destruct m as [|m].
  - simpl. by rewrite app_nil_r.
  - rewrite IH by (done || lia). unfold calls_of_life.
    assert (Hseq : forall f,
              (fun i =>
                 TurnActionCall a f
                   (Fin (Z.of_nat (S (S m) - i) * Z.of_nat n)))
                <$> seq 0 (S (S m))
              = TurnActionCall a f (Fin (Z.of_nat (S (S m)) * Z.of_nat n))
                  :: ((fun i =>
                         TurnActionCall a f
                           (Fin (Z.of_nat (S m - i) * Z.of_nat n)))
                        <$> seq 0 (S m))).
    { intros f. change (seq 0 (S (S m))) with (0 :: seq 1 (S m)).
      rewrite fmap_cons. f_equal.
      by rewrite <- fmap_S_seq, <- list_fmap_compose. }
    destruct (action_after_end (fields ae)) as [g|],
      (turn_action (fields ae)) as [f|];
      rewrite ?Hseq, ?decide_False by lia; done.
Qed.

(** X17: in a ledger whose closures only write statistics (none applies
    or removes an effect), a record that has [d] whole rounds left in an
    encounter of [n] participants (what a new effect of duration [d]
    starts with), [d * n] at most [2 ^ 53], stays for exactly [d * n]
    ticks.  Over its life its turn action is called [d] times, at the
    first tick of every round and so at the very next tick first, and
    its closing action once, at the last tick; nothing is called for it
    afterwards. *)
Theorem effect_runs_for_its_rounds (E : Externals) st a ae (d : nat) :
  ledger_ok st ->
  quiet_ledger E st ->
  a ∈ active_effects st ->
  objects st !! a = Some ae ->
  let n := length (combat_queue st) in
  remaining_turns ae = Fin (Z.of_nat d * Z.of_nat n) ->
  (Z.of_nat d * Z.of_nat n <= max_safe)%Z ->
  1 <= d ->
  1 <= n ->
  forall k,
    let st' := Nat.iter k (update_active_effects E) st in
    (a ∈ active_effects st' <-> k < d * n)
    /\ (d * n <= k ->
        filter (fun c => call_address c = a) (calls st')
        = filter (fun c => call_address c = a) (calls st)
          ++ calls_of_life n a ae d).
Proof.
  intros Hok Hquiet Ha Hae n Hr Hsafe Hd Hn k st'. subst st'.
  assert (Hleft : forall j,
            j <= d * n ->
            Nat.iter j num_pred (remaining_turns ae)
            = Fin (Z.of_nat d * Z.of_nat n - Z.of_nat j)).
  { intros j Hj. rewrite Hr. apply iter_num_pred_fin; [done|].
    unfold max_safe. nia. }
  assert (Halive : forall k0,
            k0 <= d * n ->
            forall j, 1 <= j < k0 ->
              num_positive (Nat.iter j num_pred (remaining_turns ae)) = true).
  { intros k0 Hk0 j Hj. rewrite Hleft by lia. simpl.
    apply Z.ltb_lt. nia. }
  assert (Hgone :
            (a ∉ active_effects
                   (Nat.iter (d * n) (update_active_effects E) st))
            /\ filter (fun c => call_address c = a)
                 (calls (Nat.iter (d * n) (update_active_effects E) st))
               = filter (fun c => call_address c = a) (calls st)
                 ++ calls_of_life n a ae d).
  { destruct (ticks_alive E st a ae Hok Hquiet Ha Hae (d * n)
                (Halive (d * n) (le_n _))) as (_ & Hin & Hcalls).
    cbv zeta in Hin, Hcalls.
    rewrite Hleft in Hin by done. simpl in Hin.
    rewrite Z.ltb_lt in Hin. split; [rewrite Hin; nia|].
    rewrite Hcalls. f_equal.
    rewrite <- (calls_of_rounds n a ae d) by done.
    f_equal. apply list_fmap_ext. intros i j Hij.
    apply lookup_seq in Hij as [-> Hi]. by rewrite Hleft by lia. }
  destruct Hgone as [Hout Hlife].
  destruct (decide (k < d * n)) as [Hk|Hk].
  - split; [|lia].
    destruct (ticks_alive E st a ae Hok Hquiet Ha Hae k)
      as (_ & Hin & _); [apply Halive; lia|].
    cbv zeta in Hin. rewrite Hin, Hleft by lia. simpl.
    rewrite Z.ltb_lt. split; [done|]. intros _. right. nia.
  - destruct (ticks_quiet E (d * n) st Hok Hquiet) as (HokR & HquietR & _).
    destruct (ticks_gone E _ a HokR HquietR Hout (k - d * n))
      as (_ & Hout' & Hcalls').
    rewrite <- ticks_add in Hout', Hcalls'.
    replace (d * n + (k - d * n)) with k in Hout', Hcalls' by lia.
    split; [done|]. intros _. by rewrite Hcalls'.
Qed.

Lemma effect_runs_for_its_rounds_witness :
  filter (fun c => call_address c = 0)
    (calls (Nat.iter 4 (update_active_effects Demo.world) Demo.kindled))
  = [TurnActionCall 0 3 (Fin 4); TurnActionCall 0 3 (Fin 2)].
Proof.
  assert (Hok : ledger_ok Demo.kindled).
  { apply (reachable_ledger_ok Demo.world).
    eapply reachable_step; [apply reachable_new|].
    apply (step_cmd Demo.world _ (ApplyEffect _ _)). }
  assert (Hin : 0 ∈ active_effects Demo.kindled) by by left.
  assert (Hsafe : (Z.of_nat 2 * Z.of_nat 2 <= max_safe)%Z)
    by (unfold max_safe; lia).
  destruct (effect_runs_for_its_rounds Demo.world Demo.kindled 0 _ 2 Hok
              (quiet_world _) Hin eq_refl eq_refl Hsafe
              (le_S _ _ (le_n 1)) (le_S _ _ (le_n 1)) 4) as (_ & H).
  apply (H (le_n 4)).
Defined.

(** ** The initiative order *)

Lemma pick_le d i : pick d i <= i.
Proof.
  unfold pick. destruct d as [r [H0 H1]]. cbn [draw_value].
  set (x := (r * inject_Z (Z.of_nat (i + 1)))%Q).
  assert (Hlt : (Qfloor x < Z.of_nat (i + 1))%Z).
  { rewrite Zlt_Qlt. eapply Qle_lt_trans; [apply Qfloor_le|].
    subst x. rewrite <- (Qmult_1_l (inject_Z (Z.of_nat (i + 1)))) at 2.
    apply Qmult_lt_compat_r; [|done].
    rewrite <- (Zlt_Qlt 0). lia. }
  lia.
Qed.

Lemma insert_head_Permutation {A} (l : list A) j (a y : A) :
  l !! j = Some y -> y :: <[j := a]> l ≡ₚ a :: l.
Proof.
  revert j. induction l as [|b l IH]; intros [|j] Hj; try done.
  - simpl in *. injection Hj as ->. apply Permutation_swap.
  - simpl in *. rewrite (Permutation_swap b y), (IH j Hj).
    apply Permutation_swap.
Qed.

Lemma swap_Permutation {A} i j (l : list A) : swap i j l ≡ₚ l.
Proof.
  unfold swap.
  destruct (l !! i) as [x|] eqn:Hi; [|done].
  destruct (l !! j) as [y|] eqn:Hj; [|done].
  revert i j Hi Hj. induction l as [|a l IH]; intros [|i] [|j] Hi Hj;
    try done; simpl in *.
  - by injection Hi as ->.
  - injection Hi as ->. by apply insert_head_Permutation.
  - injection Hj as ->. by apply insert_head_Permutation.
  - f_equiv. by apply IH.
Qed.

Lemma swap_fmap {A B} (f : A -> B) i j (l : list A) :
  swap i j (f <$> l) = f <$> swap i j l.
Proof.
  unfold swap. rewrite !list_lookup_fmap.
  destruct (l !! i) as [x|]; [|done]. destruct (l !! j) as [y|]; [|done].
  simpl. by rewrite !list_fmap_insert.
Qed.

Lemma shuffle_from_Permutation {A} random i : forall drawn (l : list A),
  shuffle_from random drawn i l ≡ₚ l.
Proof.
  induction i as [|i IH]; intros drawn l; [done|]. simpl.
  rewrite IH. apply swap_Permutation.
Qed.

Lemma shuffle_from_fmap {A B} (f : A -> B) random i :
  forall drawn (l : list A),
    shuffle_from random drawn i (f <$> l)
    = f <$> shuffle_from random drawn i l.
Proof.
  induction i as [|i IH]; intros drawn l; [done|]. simpl.
  by rewrite swap_fmap, IH.
Qed.

Lemma shuffleArray_fmap {A B} (f : A -> B) random (l : list A) :
  shuffleArray random (f <$> l) = f <$> shuffleArray random l.
Proof. unfold shuffleArray. by rewrite length_fmap, shuffle_from_fmap. Qed.

Lemma shuffleArray_Permutation {A} random (l : list A) :
  shuffleArray random l ≡ₚ l.
Proof. apply shuffle_from_Permutation. Qed.

(** X18: [shuffleArray] returns a rearrangement of its argument, whatever
    [Math.random] draws: nothing is lost, added or duplicated.  Every
    index it draws is one of the array, at most the index it is swapped
    with; and the rearrangement depends on the draws and on the length
    only, not on what the array holds. *)
Theorem shuffleArray_rearranges {A} (random : nat -> Draw) (array : list A) :
  shuffleArray random array ≡ₚ array
  /\ length (shuffleArray random array) = length array
  /\ (forall x, x ∈ shuffleArray random array <-> x ∈ array)
  /\ (NoDup array -> NoDup (shuffleArray random array))
  /\ (forall d i, pick d i <= i)
  /\ (forall B (f : A -> B),
        shuffleArray random (f <$> array) = f <$> shuffleArray random array)
  /\ (length array <= 1 -> shuffleArray random array = array).
Proof.
  pose proof (shuffleArray_Permutation random array) as Hperm.
  split; [done|]. split; [by rewrite Hperm|].
  split; [by intros x; rewrite Hperm|].
  split; [by rewrite Hperm|]. split; [apply pick_le|].
  split; [intros B f; apply shuffleArray_fmap|].
  intros Hlen. unfold shuffleArray.
  by replace (length array - 1) with 0 by lia.
Qed.

Example shuffleArray_example :
  shuffleArray (fun _ => Cases.half) [1; 2; 3; 4] = [1; 4; 2; 3].
Proof. reflexivity. Qed.

Lemma lookup_seq_fmap {A} (l : list A) :
  (fun i => l !! i) <$> seq 0 (length l) = Some <$> l.
Proof.
  apply list_eq. intros i. rewrite !list_lookup_fmap.
  destruct (decide (i < length l)) as [Hi|Hi].
  - rewrite lookup_seq_lt by done. simpl.
    destruct (lookup_lt_is_Some_2 l i Hi) as [x Hx]. by rewrite Hx.
  - rewrite lookup_seq_ge by lia. simpl.
    by rewrite lookup_ge_None_2 by lia.
Qed.

(** The queue holds at [p] the character that the shuffled indices name
    at [p]. *)
Lemma shuffleArray_order {A} random (l : list A) p i :
  shuffleArray random (seq 0 (length l)) !! p = Some i ->
  shuffleArray random l !! p = l !! i.
Proof.
  intros Hp.
  assert (H : Some <$> shuffleArray random l
              = (fun i => l !! i) <$> shuffleArray random (seq 0 (length l))).
  { by rewrite <- !shuffleArray_fmap, lookup_seq_fmap. }
  apply (f_equal (fun q => q !! p)) in H.
  rewrite !list_lookup_fmap, Hp in H. simpl in H.
  destruct (shuffleArray random l !! p) as [x|] eqn:Hx; simpl in H.
  - by injection H.
  - done.
Qed.

Lemma position_of_order (order : list nat) n i :
  order ≡ₚ seq 0 n -> i < n ->
  order !! position_of order i = Some i
  /\ position_of order i < n.
Proof.
  intros Hperm Hi. unfold position_of.
  assert (Hin : i ∈ order) by (rewrite Hperm, elem_of_seq; lia).
  destruct (list_find (fun x => x = i) order) as [[p x]|] eqn:Hfind.
  - apply list_find_Some in Hfind as (Hp & -> & _). simpl.
    split; [done|]. apply lookup_lt_Some in Hp.
    by rewrite Hperm, length_seq in Hp.
  - apply list_find_None in Hfind. rewrite Forall_forall in Hfind.
    by destruct (Hfind i Hin).
Qed.

(** X19: the constructor loses no one.  The queue of a new combat is a
    rearrangement of the first group followed by the second; the groups
    of the combat name, in their order, the positions in the queue of
    their own members, and no position twice; the pointer is at the
    head of the queue, the ledger is empty and no result is set.  The
    new combat is a state that the engine's invariants start from. *)
Theorem constructor_keeps_everyone (E : Externals) (random : nat -> Draw)
    (g1 g2 : list Character) :
  let st := construct random g1 g2 in
  combat_queue st ≡ₚ g1 ++ g2
  /\ current_index st = 0
  /\ active_effects st = []
  /\ _result st = None
  /\ (fun p => combat_queue st !! p) <$> group_1 st = Some <$> g1
  /\ (fun p => combat_queue st !! p) <$> group_2 st = Some <$> g2
  /\ NoDup (group_1 st ++ group_2 st)
  /\ reachable E st.
Proof.
  intros st. subst st. unfold construct. simpl.
  set (order := shuffleArray random (seq 0 (length g1 + length g2))).
  assert (Hperm : order ≡ₚ seq 0 (length g1 + length g2))
    by apply shuffleArray_Permutation.
  assert (Hat : forall i, i < length g1 + length g2 ->
            shuffleArray random (g1 ++ g2) !! position_of order i
            = (g1 ++ g2) !! i).
  { intros i Hi. apply shuffleArray_order. rewrite length_app.
    by apply (position_of_order order (length g1 + length g2) i). }
  split; [apply shuffleArray_Permutation|].
  do 3 (split; [done|]).
  split; [|split; [|split; [|apply reachable_new]]].
  - rewrite <- list_fmap_compose, <- (lookup_seq_fmap g1).
    apply list_fmap_ext. intros k i Hk. apply lookup_seq in Hk as [-> Hk].
    simpl. rewrite Hat by lia. by rewrite lookup_app_l by lia.
  - rewrite <- list_fmap_compose, <- (lookup_seq_fmap g2).
    replace (seq (length g1) (length g2))
      with (Nat.add (length g1) <$> seq 0 (length g2))
      by (rewrite fmap_add_seq; f_equal; lia).
    rewrite <- list_fmap_compose.
    apply list_fmap_ext. intros k i Hk. apply lookup_seq in Hk as [-> Hk].
    simpl. rewrite Hat by lia. rewrite lookup_app_r by lia.
    f_equal. lia.
  - rewrite <- fmap_app, <- seq_app.
    apply NoDup_fmap_2_strong; [|apply NoDup_seq].
    intros i j Hi Hj Heq. apply elem_of_seq in Hi, Hj.
    destruct (position_of_order order _ i Hperm) as [Hpi _]; [lia|].
    destruct (position_of_order order _ j Hperm) as [Hpj _]; [lia|].
    rewrite Heq in Hpi. congruence.
Qed.

(** ** A turn that is taken again *)

(** X20: when an offered action answers [false], [act] returns at once,
    whatever the state: after the commands of the action only the win
    check runs.  No tick is made, so the effect records, the ledger and
    the log of calls are those the action left, and the pointer stays;
    the win check does run, and sets the result if the action brought a
    group down. *)
Theorem repeated_turn_skips_the_tick (E : Externals) action target st ts :
  turn_state st = Some ts ->
  existsb (offers action) (available_actions ts) = true ->
  fst (run_action E action target st) = ResultBoolean false ->
  let st1 := snd (run_action E action target st) in
  forall fuel,
    act E fuel action target st = Normal (check_finish st1)
    /\ objects (check_finish st1) = objects st1
    /\ active_effects (check_finish st1) = active_effects st1
    /\ calls (check_finish st1) = calls st1
    /\ combat_queue (check_finish st1) = combat_queue st1
    /\ current_index (check_finish st1) = current_index st
    /\ ((sum_hp st1 (group_1 st1) <= 0)%Z \/ (sum_hp st1 (group_2 st1) <= 0)%Z
        -> is_Some (_result (check_finish st1))).
Proof.
  intros Hts Hoff Hfalse st1 fuel.
  rewrite (act_unfold E fuel action target st ts Hts Hoff), Hfalse.
  rewrite report_throws_not_number by done. simpl.
  fold st1. split; [done|].
  destruct (check_finish_frame st1) as (Hidx & Hq & Ho & Ha & _).
  split; [done|]. split; [done|].
  split; [unfold check_finish; by repeat destruct (_ <=? _)%Z|].
  split; [done|]. split.
  - rewrite Hidx. subst st1. apply run_action_frame.
  - unfold check_finish. intros [H|H].
    + apply Z.leb_le in H. by rewrite H.
    + apply Z.leb_le in H. rewrite H.
      by destruct (sum_hp st1 (group_1 st1) <=? 0)%Z.
Qed.

Lemma repeated_turn_skips_the_tick_witness :
  act Demo.world 0 Demo.menu None Demo.duel
  = Normal (check_finish Demo.duel).
Proof.
  destruct (repeated_turn_skips_the_tick Demo.world Demo.menu None
              Demo.duel
              (default {| agent := 0; available_actions := [];
                          allies := []; enemies := [] |}
                 (turn_state Demo.duel))
              eq_refl eq_refl eq_refl 0) as [H _].
  exact H.
Defined.

(** ** Blocking *)

(** X21: an effect with [blocks_action] that is applied to the
    participant at the pointer, when no effect of its kind is active on
    that participant and no record of the ledger has a component that it
    blocks, leaves that participant with the synthetic action alone at
    the next snapshot. *)
Theorem new_blocking_effect_blocks (st : Combat) (e : IEffect) (who : Character) :
  ledger_ok st ->
  combat_queue st !! current_index st = Some who ->
  blocks_action e = true ->
  list_find (same_effect st (type e) (character_id who)) (active_effects st)
  = None ->
  existsb (interrupting e (merge_or_push e (character_id who) st))
    (active_effects (merge_or_push e (character_id who) st)) = false ->
  get_available_actions (apply_effect e (character_id who) st)
  = Some [null_action].
Proof.
  intros Hok Hwho Hblocks Hfind Hquiet.
  set (t := character_id who) in *.
  set (st1 := merge_or_push e t st) in *.
  destruct (merge_or_push_fresh e t st Hok Hfind) as (Hact & _ & _).
  fold st1 in Hact.
  assert (Hscan : active_effects (apply_effect e t st) = active_effects st1).
  { unfold apply_effect. fold st1.
    rewrite interruption_scan_result, Hquiet; [done|].
    apply (merge_or_push_ok e t st Hok). }
  assert (Hobj : objects (apply_effect e t st) !! length (objects st)
                 = Some {| char_id := t;
                           remaining_turns :=
                             num_times_length (duration e)
                               (length (combat_queue st));
                           fields := e |}).
  { rewrite apply_effect_objects. unfold merge_or_push. rewrite Hfind.
    simpl. by rewrite list_lookup_middle. }
  apply (blocked_get_available_actions _ who).
  - rewrite apply_effect_queue.
    by destruct (apply_effect_frame e t st) as [_ -> _ _ _ _ _ _].
  - eexists _, _. split; [|split; [exact Hobj|by split]].
    rewrite Hscan, Hact. apply elem_of_app. right. by left.
Qed.

Lemma new_blocking_effect_blocks_witness :
  get_available_actions
    (apply_effect Demo.staggered "1"
       (new_combat [Demo.hero "1" 10; Demo.hero "2" 10] [0] [1]))
  = Some [null_action].
Proof.
  apply (new_blocking_effect_blocks
           (new_combat [Demo.hero "1" 10; Demo.hero "2" 10] [0] [1])
           Demo.staggered (Demo.hero "1" 10));
    try reflexivity.
  apply (reachable_ledger_ok Demo.world), reachable_new.
Defined.

(** X22: merging an incoming effect into the active record of its kind
    on the target changes the turns left and, at most, the damage, the
    duration and the turn action of the record: its target, its kind,
    what it blocks, its components and its closing action stay those of
    the record.  So an incoming effect that blocks, merged into a record
    that does not, blocks nothing. *)
Theorem merge_keeps_what_the_record_blocks (st : Combat) (e : IEffect)
    (t : string) (i a : nat) (old : ActiveEffect) :
  list_find (same_effect st (type e) t) (active_effects st) = Some (i, a) ->
  objects st !! a = Some old ->
  exists new,
    objects (apply_effect e t st) !! a = Some new
    /\ char_id new = char_id old
    /\ type (fields new) = type (fields old)
    /\ blocks_action (fields new) = blocks_action (fields old)
    /\ blocks_somatic (fields new) = blocks_somatic (fields old)
    /\ blocks_verbal (fields new) = blocks_verbal (fields old)
    /\ components (fields new) = components (fields old)
    /\ action_after_end (fields new) = action_after_end (fields old)
    /\ forall agent_id,
         blocks_agent (apply_effect e t st) agent_id a
         = blocks_agent st agent_id a.
Proof.
  intros Hfind Hold.
  assert (Hnew : objects (apply_effect e t st) !! a
                 = Some (merge_effect e (length (combat_queue st)) old)).
  { rewrite apply_effect_objects, (merge_or_push_found e t st i a Hfind).
    simpl. by rewrite list_lookup_alter_eq, Hold. }
  assert (Hkeep :
            let new := merge_effect e (length (combat_queue st)) old in
            char_id new = char_id old
            /\ type (fields new) = type (fields old)
            /\ blocks_action (fields new) = blocks_action (fields old)
            /\ blocks_somatic (fields new) = blocks_somatic (fields old)
            /\ blocks_verbal (fields new) = blocks_verbal (fields old)
            /\ components (fields new) = components (fields old)
            /\ action_after_end (fields new) = action_after_end (fields old)).
  { unfold merge_effect. simpl.
    destruct (damage (fields old)) as [d0|]; [|done].
    destruct (damage e) as [d1|]; [|done].
    destruct (rate_gt _ _); [|done].
    destruct (turn_action (fields old)) as [f0|]; [|done].
    by destruct (turn_action e) as [f1|]. }
  destruct Hkeep as (H1 & H2 & H3 & H4 & H5 & H6 & H7).
  eexists. split; [exact Hnew|]. do 7 (split; [done|]).
  intros agent_id. unfold blocks_agent. by rewrite Hnew, Hold, H1, H3.
Qed.

Lemma merge_keeps_what_the_record_blocks_witness :
  blocks_agent
    (apply_effect Cases.searing "2" Demo.kindled) "2" 0
  = false.
Proof.
  destruct (merge_keeps_what_the_record_blocks Demo.kindled
              Cases.searing "2" 0 0 _ eq_refl eq_refl) as (new & _ & _ & _ & _ & _ & _ & _ & _ & H).
  by rewrite H.
Defined.

(** ** The first revision *)

Lemma legacy_applyEffect_frame e t st :
  same_frame st (Legacy.applyEffect e t st).
Proof.
  unfold Legacy.applyEffect. destruct (list_find _ _) as [[i a]|]; by split.
Qed.

Lemma legacy_exec_cmd_frame st c : same_frame st (Legacy.exec_cmd st c).
Proof.
  destruct c; simpl.
  - split; simpl; try done; [by rewrite length_alter | by apply alter_stat_ids].
  - split; simpl; try done; [by rewrite length_alter | by apply alter_stat_ids].
  - apply legacy_applyEffect_frame.
Qed.

Lemma legacy_exec_cmds_frame cs st : same_frame st (Legacy.exec_cmds cs st).
Proof.
  unfold Legacy.exec_cmds. revert st.
  induction cs as [|c cs IH]; intros st; simpl.
  - apply same_frame_refl.
  - eapply same_frame_trans; [apply legacy_exec_cmd_frame | apply IH].
Qed.

Section LegacyTick.

Context (E : Legacy.Externals).

(** One callback of the filter: the frame is kept, and the address is
    kept or not. *)
Lemma legacy_tick_effect_spec acc a :
  same_frame (fst acc) (fst (Legacy.tick_effect E acc a))
  /\ (snd (Legacy.tick_effect E acc a) = snd acc
      \/ snd (Legacy.tick_effect E acc a) = snd acc ++ [a]).
Proof.
  destruct acc as [st kept]. unfold Legacy.tick_effect.
  destruct (objects st !! a) as [effect|];
    [|split; [apply same_frame_refl | by left]].
  set (st1 := match turn_action (fields effect) with
              | Some f => _ | None => st end).
  assert (H1 : same_frame st st1).
  { subst st1. destruct (turn_action (fields effect)) as [f|];
      [|apply same_frame_refl].
    destruct (round_boundary _ _); [|apply same_frame_refl].
    destruct (get_char_by_id st (char_id effect)) as [target|];
      [|apply same_frame_refl].
    eapply same_frame_trans; [|apply legacy_exec_cmds_frame]. by split. }
  set (st2 := set_objects _ st1).
  assert (H2 : same_frame st st2).
  { eapply same_frame_trans; [apply H1|]. by split. }
  destruct (objects st2 !! a) as [effect'|]; simpl; [|by split; [|left]].
  split; [done|]. destruct (num_positive _); [by right | by left].
Qed.

Lemma legacy_tick_all_spec l : forall acc,
  same_frame (fst acc) (fst (foldl (Legacy.tick_effect E) acc l))
  /\ exists kept,
       snd (foldl (Legacy.tick_effect E) acc l) = snd acc ++ kept
       /\ sublist kept l.
Proof.
  induction l as [|a l IH]; intros acc; simpl.
  - split; [apply same_frame_refl|]. exists []. by rewrite app_nil_r.
  - destruct (IH (Legacy.tick_effect E acc a)) as (Hframe & kept & Hkept & Hsub).
    destruct (legacy_tick_effect_spec acc a) as (Hframe1 & [Hk|Hk]).
    + split; [by eapply same_frame_trans|]. exists kept.
      rewrite Hkept, Hk. split; [done | by apply sublist_cons].
    + split; [by eapply same_frame_trans|]. exists (a :: kept).
      rewrite Hkept, Hk, <- app_assoc. split; [done | by apply sublist_skip].
Qed.

Lemma legacy_update_active_effects_spec st :
  same_frame st (Legacy.update_active_effects E st)
  /\ sublist (active_effects (Legacy.update_active_effects E st))
       (active_effects st).
Proof.
  unfold Legacy.update_active_effects.
  destruct (legacy_tick_all_spec (active_effects st) (st, []))
    as (Hframe & kept & Hkept & Hsub).
  destruct (foldl _ _ _) as [st1 k]. simpl in *. subst k.
  split; [|done]. eapply same_frame_trans; [apply Hframe|]. by split.
Qed.


End LegacyTick.



(** X24: [applyEffect] of the first revision looks for an active record
    of the incoming kind on any target.  When there is one, the first
    such record gets the turns of the incoming effect and nothing else
    changes: no record is made for the target, which may be another
    participant than the one the record is on.  Only when no record of
    the kind is active is a record pushed, for the target. *)
Theorem legacy_applyEffect_matches_by_kind (st : Combat) (e : IEffect)
    (t : string) :
  let st' := Legacy.applyEffect e t st in
  let n := length (combat_queue st) in
  (forall i a old,
     list_find (Legacy.same_kind st (type e)) (active_effects st) = Some (i, a) ->
     objects st !! a = Some old ->
     active_effects st' = active_effects st
     /\ length (objects st') = length (objects st)
     /\ objects st' !! a
        = Some (set_remaining_turns
                  (num_add (remaining_turns old)
                     (num_times_length (duration e) n)) old)
     /\ (forall b, b <> a -> objects st' !! b = objects st !! b)
     /\ (forall b, same_effect st' (type e) t b <-> same_effect st (type e) t b))
  /\ (list_find (Legacy.same_kind st (type e)) (active_effects st) = None ->
      active_effects st' = active_effects st ++ [length (objects st)]
      /\ objects st'
         = objects st
           ++ [{| char_id := t;
                  remaining_turns := num_times_length (duration e) n;
                  fields := e |}])
  /\ combat_queue st' = combat_queue st
  /\ calls st' = calls st.
Proof.
  intros st' n. subst st' n. unfold Legacy.applyEffect.
  split; [|split].
  - intros i a old Hfind Hold. rewrite Hfind. simpl.
    split; [done|]. split; [by rewrite length_alter|].
    split; [by rewrite list_lookup_alter_eq, Hold|].
    split; [intros b Hb; by rewrite list_lookup_alter_ne|].
    intros b. unfold same_effect. simpl.
    destruct (decide (b = a)) as [->|Hb].
    + by rewrite list_lookup_alter_eq, Hold.
    + by rewrite list_lookup_alter_ne.
  - by intros ->.
  - by destruct (list_find _ _) as [[i a]|].
Qed.

(** Two participants are set on fire in turn: one record, on the first. *)
Example legacy_second_fire_is_lost :
  let st := Legacy.applyEffect (Legacy.blaze 0) "2"
              (Legacy.applyEffect (Legacy.blaze 0) "1" Cases.old_duel) in
  active_effects st = [0]
  /\ (char_id <$> objects st !! 0) = Some "1"
  /\ (remaining_turns <$> objects st !! 0) = Some (Fin 6)
  /\ length (objects st) = 1.
Proof. vm_compute. repeat split. Qed.

(** X25: a tick of the first revision replaces the ledger by those of
    its records that still have turns left when they are visited, in
    their order.  A record that a turn action pushes during the tick is
    allocated and then dropped with the ledger that the tick replaces. *)
Theorem legacy_tick_keeps_a_sublist (E : Legacy.Externals) (st : Combat) :
  sublist (active_effects (Legacy.update_active_effects E st))
    (active_effects st)
  /\ (forall a,
        a ∉ active_effects st ->
        a ∉ active_effects (Legacy.update_active_effects E st))
  /\ length (combat_queue (Legacy.update_active_effects E st))
     = length (combat_queue st)
  /\ current_index (Legacy.update_active_effects E st) = current_index st
  /\ _result (Legacy.update_active_effects E st) = _result st
  /\ (let kindled := Legacy.applyEffect (Legacy.blaze 1) "1" Cases.old_duel in
      let st' := Legacy.update_active_effects Legacy.world kindled in
      active_effects kindled = [0]
      /\ length (objects st') = 2
      /\ (type <$> (fields <$> objects st' !! 1)) = Some STAGGERED
      /\ active_effects st' = [0]).
Proof.
  destruct (legacy_update_active_effects_spec E st)
    as ([Hres Hidx _ _ _ Hlen _ _] & Hsub).
  split; [done|].
  split; [intros a Ha Hin; apply Ha; by eapply elem_of_sublist|].
  do 3 (split; [done|]). vm_compute. repeat split.
Qed.

(** ** The result that the generator returns *)

Section Verdict.

Context (E : Externals).

Lemma check_finish_verdict st r :
  _result st = None ->
  _result (check_finish st) = Some r ->
  verdict (check_finish st) r.
Proof.
  intros Hnone. unfold verdict.
  destruct (check_finish_sums st (group_1 st)) as (Hs1 & Hg1 & Hg2).
  destruct (check_finish_sums st (group_2 st)) as (Hs2 & _).
  rewrite Hg1, Hg2, Hs1, Hs2. clear Hs1 Hs2 Hg1 Hg2.
  unfold check_finish.
  destruct (Z.leb_spec (sum_hp st (group_1 st)) 0) as [H1|H1].
  - intros [= <-]. by left.
  - destruct (Z.leb_spec (sum_hp st (group_2 st)) 0) as [H2|H2].
    + intros [= <-]. by right.
    + by rewrite Hnone.
Qed.

Lemma resolve_verdict fuel decision st st2 r :
  _result st = None ->
  resolve E fuel decision st = Normal st2 ->
  _result st2 = Some r ->
  verdict st2 r.
Proof.
  intros Hnone. unfold resolve.
  destruct (action decision) as [a|]; [|intros [= <-]; by rewrite Hnone].
  destruct (_ || _); [|intros [= <-]; by rewrite Hnone].
  intros Hact. destruct (act_returns_checked E _ _ _ _ _ Hact)
    as (st1 & -> & Hres & _).
  apply check_finish_verdict. by rewrite Hres.
Qed.

Lemma turns_verdict fuel : forall st st' r,
  _result st = None ->
  turns E fuel st = Returns r st' ->
  _result st' = Some r /\ verdict st' r.
Proof.
  induction fuel as [|fuel IH]; intros st st' r Hnone; [done|]. simpl.
  destruct (begin_turn st) as [st1|] eqn:Hbegin; [|done].
  assert (Hnone1 : _result st1 = None).
  { destruct (begin_turn_inv _ _ Hbegin) as (who & actions & _ & _ & ->).
    done. }
  destruct (kind <$> _) as [[strategy|]|]; [|done|done].
  destruct (resolve E fuel (run_strategy E strategy st1) st1)
    as [st2| | | |] eqn:Hresolve; simpl; try done.
  destruct (_result st2) as [r2|] eqn:Hr2.
  - intros [= <- <-]. split; [done|]. by eapply resolve_verdict.
  - by apply IH.
Qed.

End Verdict.

(** X26: a result that a call of [next] returns, in an encounter that had
    none, is the result stored in the returned state and is what the win
    check says of that state: the winner is 1 with the hit points of the
    first group summing to at most 0, or 0 with those of the first group
    positive and those of the second at most 0.  No result is returned
    while both groups stand. *)
Theorem returned_result_is_the_verdict (E : Externals) fuel decision g r st' :
  _result (generator_state g) = None ->
  next E fuel decision g = Returns r st' ->
  _result st' = Some r
  /\ verdict st' r
  /\ ((sum_hp st' (group_1 st') <= 0)%Z \/ (sum_hp st' (group_2 st') <= 0)%Z)
  /\ winner r <= 1.
Proof.
  intros Hnone Hnext.
  assert (H : _result st' = Some r /\ verdict st' r).
  { destruct g as [st|st|st]; simpl in *; [by eapply turns_verdict| |done].
    destruct (action decision) as [a|]; [|done].
    destruct (resolve E fuel decision st) as [st2| | | |] eqn:Hresolve;
      simpl in Hnext; try done.
    destruct (_result st2) as [r2|] eqn:Hr2.
    - injection Hnext as <- <-. split; [done|]. by eapply resolve_verdict.
    - by eapply turns_verdict. }
  destruct H as [Hres Hv]. split; [done|]. split; [done|].
  destruct Hv as [[-> H1]|(-> & H1 & H2)]; split; auto.
Qed.

Lemma returned_result_is_the_verdict_witness :
  exists st',
    next Demo.world 3 {| action := Some Demo.strike; target := Some 1 |}
      (Suspended Demo.duel) = Returns {| winner := 0 |} st'
    /\ verdict st' {| winner := 0 |}.
Proof.
  destruct (next Demo.world 3
              {| action := Some Demo.strike; target := Some 1 |}
              (Suspended Demo.duel)) as [st'|r st'|st'|st'| | |] eqn:Hnext;
    try (vm_compute in Hnext; discriminate).
  assert (Hr : r = {| winner := 0 |}).
  { vm_compute in Hnext. by injection Hnext as <- _. }
  subst r. exists st'. split; [done|].
  by destruct (returned_result_is_the_verdict Demo.world 3 _
                 (Suspended Demo.duel) _ st' eq_refl Hnext) as (_ & H & _).
Defined.
